(** * VPaint transform tool: a shallow embedding of
    [src/Gui/VectorAnimationComplex/TransformTool.cpp]

    The file follows the C++ translation unit from top to bottom: the
    constants and widget geometry of the anonymous namespace, the rotate
    arrow contour, then the [TransformTool] member functions (hover state
    and the begin/continue/end drag protocol).

    - [double] arithmetic is kept abstract behind the class [Scalar], so
      every structural statement holds for any interpretation of the
      arithmetic; two instances are provided: the real numbers (for the
      algebraic statements) and the kernel's binary64 floats (so that the
      definitions can be run on concrete inputs).
    - [int] is a 32-bit two's complement integer, written as [Z] with the
      wrap-around spelled out.
    - Calls into collaborators whose code is outside the translation unit
      ([KeyVertex], [KeyEdge]) are recorded as a trace of outbound calls.
    - The drawing functions return the list of OpenGL commands they issue,
      in order; reading a vector past its end, which [operator[]] does not
      check, is the result [None]. *)

From Stdlib Require Import ZArith List Reals Lra Lia Floats Uint63.
From stdpp Require Import gmap sets list fin_sets.

(* ===================================================================== *)
(** ** 32-bit [int] *)
(* ===================================================================== *)

Module Int.
Local Open Scope Z_scope.

Definition min_signed : Z := - 2 ^ 31.
Definition max_signed : Z := 2 ^ 31 - 1.
Definition modulus : Z := 2 ^ 32.

(** The representative of [z] modulo 2^32 in the signed range. *)
Definition wrap (z : Z) : Z := (z - min_signed) mod modulus + min_signed.

Definition add (a b : Z) : Z := wrap (a + b).
Definition sub (a b : Z) : Z := wrap (a - b).

Definition in_range (z : Z) : Prop := min_signed <= z <= max_signed.
End Int.

(* ===================================================================== *)
(** ** [double] *)
(* ===================================================================== *)

(** The operations on [double] that the translation unit uses: conversion
    from an integer literal or an [int], the four arithmetic operations,
    unary minus, and [std::cos], [std::sin], [std::atan2] of <cmath>. *)
Class Scalar (D : Type) := {
  d_of_Z : Z -> D;
  dadd : D -> D -> D;
  dsub : D -> D -> D;
  dmul : D -> D -> D;
  ddiv : D -> D -> D;
  dneg : D -> D;
  dcos : D -> D;
  dsin : D -> D;
  datan2 : D -> D -> D;
  dmin : D -> D -> D;
  dmax : D -> D -> D;
}.

Declare Scope double_scope.
Delimit Scope double_scope with dbl.
Notation "x + y" := (dadd x y) : double_scope.
Notation "x - y" := (dsub x y) : double_scope.
Notation "x * y" := (dmul x y) : double_scope.
Notation "x / y" := (ddiv x y) : double_scope.
Notation "- x" := (dneg x) : double_scope.

(** A decimal literal [m * 10^-e], e.g. [3.14159] is [decimal 314159 5]. *)
Definition decimal {D} {SD : Scalar D} (m : Z) (e : nat) : D :=
  ddiv (d_of_Z m) (d_of_Z (10 ^ Z.of_nat e)).

(** *** The real numbers *)

(** [std::atan2 y x] on the reals: the argument of the point [(x, y)] in
    the interval (-pi, pi]. *)
Definition Ratan2 (y x : R) : R :=
  if Rlt_dec 0 x then atan (y / x)
  else if Rlt_dec x 0 then
         if Rle_dec 0 y then (atan (y / x) + Rtrigo1.PI)%R
         else (atan (y / x) - Rtrigo1.PI)%R
  else if Rlt_dec 0 y then (Rtrigo1.PI / 2)%R
  else if Rlt_dec y 0 then (- (Rtrigo1.PI / 2))%R
  else 0%R.

#[export] Instance R_scalar : Scalar R := {|
  d_of_Z := IZR;
  dadd := Rplus;
  dsub := Rminus;
  dmul := Rmult;
  ddiv := Rdiv;
  dneg := Ropp;
  dcos := cos;
  dsin := sin;
  datan2 := Ratan2;
  dmin := Rmin;
  dmax := Rmax;
|}.

(** *** binary64 *)

Definition float_of_Z (z : Z) : float :=
  match z with
  | Z0 => PrimFloat.zero
  | Zpos _ => PrimFloat.of_uint63 (Uint63.of_Z z)
  | Zneg p => PrimFloat.opp (PrimFloat.of_uint63 (Uint63.of_Z (Zpos p)))
  end.

Definition float_min (a b : float) : float := if PrimFloat.ltb b a then b else a.
Definition float_max (a b : float) : float := if PrimFloat.ltb a b then b else a.

(** The kernel has no transcendental functions on floats: the three
    <cmath> functions are arguments of the instance. *)
Definition float_scalar (fcos fsin : float -> float)
    (fatan2 : float -> float -> float) : Scalar float := {|
  d_of_Z := float_of_Z;
  dadd := PrimFloat.add;
  dsub := PrimFloat.sub;
  dmul := PrimFloat.mul;
  ddiv := PrimFloat.div;
  dneg := PrimFloat.opp;
  dcos := fcos;
  dsin := fsin;
  datan2 := fatan2;
  dmin := float_min;
  dmax := float_max;
|}.

(* ===================================================================== *)
(** ** Eigen: [Vector2d], [Affine2d], [Scaling], [Rotation2Dd],
       [Translation2d] *)
(* ===================================================================== *)

Section Eigen.
Context {D : Type} {SD : Scalar D}.
Local Open Scope double_scope.

(** [Eigen::Vector2d] *)
Record Vec2 := mkVec2 { vx : D; vy : D }.

Definition vadd (a b : Vec2) : Vec2 := mkVec2 (vx a + vx b) (vy a + vy b).
Definition vsub (a b : Vec2) : Vec2 := mkVec2 (vx a - vx b) (vy a - vy b).
Definition vneg (a : Vec2) : Vec2 := mkVec2 (- vx a) (- vy a).
(** [r * u], a scalar times a vector *)
Definition smul (r : D) (u : Vec2) : Vec2 := mkVec2 (r * vx u) (r * vy u).

(** [Eigen::Affine2d]: the linear block and the translation column of
    the 3x3 matrix whose last row is (0, 0, 1). *)
Record Affine2d := mkAffine2d {
  a00 : D; a01 : D;
  a10 : D; a11 : D;
  t0 : D; t1 : D;
}.

Definition linearTimes (xf : Affine2d) (v : Vec2) : Vec2 :=
  mkVec2 (a00 xf * vx v + a01 xf * vy v) (a10 xf * vx v + a11 xf * vy v).

Definition translation (xf : Affine2d) : Vec2 := mkVec2 (t0 xf) (t1 xf).

Definition withTranslation (xf : Affine2d) (t : Vec2) : Affine2d :=
  mkAffine2d (a00 xf) (a01 xf) (a10 xf) (a11 xf) (vx t) (vy t).

(** [xf = Eigen::Scaling(sx, sy)]: the diagonal matrix becomes the linear
    block, the translation is set to zero. *)
Definition Scaling (sx sy : D) : Affine2d :=
  mkAffine2d sx (d_of_Z 0) (d_of_Z 0) sy (d_of_Z 0) (d_of_Z 0).

(** [xf = Eigen::Rotation2Dd(angle)]: the rotation matrix of the angle
    becomes the linear block, the translation is set to zero. *)
Definition Rotation2Dd (angle : D) : Affine2d :=
  mkAffine2d (dcos angle) (- dsin angle) (dsin angle) (dcos angle)
             (d_of_Z 0) (d_of_Z 0).


(** [Translation2d * Affine2d] ([pretranslate]): the translation is added
    to the transform's translation column. *)
Definition pretranslate (p : Vec2) (xf : Affine2d) : Affine2d :=
  withTranslation xf (vadd (translation xf) p).

(** [Affine2d * Translation2d] ([translate]): the linear block times the
    translation is added to the translation column. *)
Definition translate (xf : Affine2d) (p : Vec2) : Affine2d :=
  withTranslation xf (vadd (translation xf) (linearTimes xf p)).

(** [xf * v] for a point [v] *)
Definition transformPoint (xf : Affine2d) (v : Vec2) : Vec2 :=
  vadd (linearTimes xf v) (translation xf).
End Eigen.

Arguments Vec2 D : clear implicits.
Arguments Affine2d D : clear implicits.

(* ===================================================================== *)
(** ** [BoundingBox] *)
(* ===================================================================== *)

(** BoundingBox.h is not part of the translation unit: the tool uses the
    default constructor (the empty box), [unite] and the six accessors. *)
Class BoundingBoxOps (D BB : Type) := {
  bbEmpty : BB;
  unite : BB -> BB -> BB;
  xMin : BB -> D;
  xMax : BB -> D;
  xMid : BB -> D;
  yMin : BB -> D;
  yMax : BB -> D;
  yMid : BB -> D;
}.

(* ===================================================================== *)
(** ** [TransformTool::WidgetId] *)
(* ===================================================================== *)

Module TransformTool.
(** Modelled from the spec: the enumeration [WidgetId] of TransformTool.h,
    which is not among the sources.  It has the sentinel [None] and twelve
    widgets (four corner-scale, four edge-scale, four corner-rotate) with
    contiguous numeric values; the widgets are listed in the order in
    which the switch statements of the translation unit list them. *)
Inductive WidgetId :=
| None
| TopLeftScale | TopRightScale | BottomRightScale | BottomLeftScale
| TopScale | RightScale | BottomScale | LeftScale
| TopLeftRotate | TopRightRotate | BottomRightRotate | BottomLeftRotate.

(** The numeric value of an enumerator. *)
Definition toInt (id : WidgetId) : Z :=
  match id with
  | None => 0
  | TopLeftScale => 1 | TopRightScale => 2
  | BottomRightScale => 3 | BottomLeftScale => 4
  | TopScale => 5 | RightScale => 6 | BottomScale => 7 | LeftScale => 8
  | TopLeftRotate => 9 | TopRightRotate => 10
  | BottomRightRotate => 11 | BottomLeftRotate => 12
  end%Z.

Definition MIN_WIDGET_ID : Z := toInt TopLeftScale.
Definition MAX_WIDGET_ID : Z := toInt BottomLeftRotate.

(** [static_cast<WidgetId>(z)]; the tool casts only values between
    [MIN_WIDGET_ID] and [MAX_WIDGET_ID]. *)
Definition ofInt (z : Z) : WidgetId :=
  match z with
  | 1 => TopLeftScale | 2 => TopRightScale
  | 3 => BottomRightScale | 4 => BottomLeftScale
  | 5 => TopScale | 6 => RightScale | 7 => BottomScale | 8 => LeftScale
  | 9 => TopLeftRotate | 10 => TopRightRotate
  | 11 => BottomRightRotate | 12 => BottomLeftRotate
  | _ => None
  end%Z.

#[export] Instance WidgetId_eq_dec : EqDecision WidgetId.
Proof. solve_decision. Defined.
End TransformTool.

Export (hints) TransformTool.

(* ===================================================================== *)
(** ** The anonymous namespace: constants and widget geometry *)
(* ===================================================================== *)

Section WidgetGeometry.
Context {D : Type} {SD : Scalar D} {BB : Type} {BO : BoundingBoxOps D BB}.
Local Open Scope double_scope.

(** Math constants *)
Definition PI : D := decimal 314159 5.
Definition SQRT2 : D := decimal 14142 4.

(** Scale widget params *)
Definition scaleWidgetCornerSize : D := d_of_Z 8.
Definition scaleWidgetEdgeSize : D := d_of_Z 5.

(** Arrow params *)
Definition rotateWidgetSize : D := scaleWidgetCornerSize.
Definition rotateWidgetAngleRange : D := PI / d_of_Z 7.
Definition rotateWidgetCircleCenter : D := d_of_Z 5.
Definition rotateWidgetCircleRadius : D := d_of_Z 9.
Definition rotateWidgetBodyHalfWidth : D := decimal 7 1.
Definition rotateWidgetHeadHalfWidth : D := SQRT2.
Definition rotateWidgetNumSamples : nat := 20.

(** Widget position *)
Definition widgetPos_ (id : TransformTool.WidgetId) (bb : BB) : Vec2 D :=
  match id with
  | TransformTool.TopLeftScale => mkVec2 (xMin bb) (yMin bb)
  | TransformTool.TopRightScale => mkVec2 (xMax bb) (yMin bb)
  | TransformTool.BottomRightScale => mkVec2 (xMax bb) (yMax bb)
  | TransformTool.BottomLeftScale => mkVec2 (xMin bb) (yMax bb)
  | TransformTool.TopScale => mkVec2 (xMid bb) (yMin bb)
  | TransformTool.RightScale => mkVec2 (xMax bb) (yMid bb)
  | TransformTool.BottomScale => mkVec2 (xMid bb) (yMax bb)
  | TransformTool.LeftScale => mkVec2 (xMin bb) (yMid bb)
  | TransformTool.TopLeftRotate => mkVec2 (xMin bb) (yMin bb)
  | TransformTool.TopRightRotate => mkVec2 (xMax bb) (yMin bb)
  | TransformTool.BottomRightRotate => mkVec2 (xMax bb) (yMax bb)
  | TransformTool.BottomLeftRotate => mkVec2 (xMin bb) (yMax bb)
  | _ => mkVec2 (d_of_Z 0) (d_of_Z 0)
  end.

(** Widget opposite position *)
Definition widgetOppositePos_ (id : TransformTool.WidgetId) (bb : BB) : Vec2 D :=
  match id with
  | TransformTool.TopLeftScale => mkVec2 (xMax bb) (yMax bb)
  | TransformTool.TopRightScale => mkVec2 (xMin bb) (yMax bb)
  | TransformTool.BottomRightScale => mkVec2 (xMin bb) (yMin bb)
  | TransformTool.BottomLeftScale => mkVec2 (xMax bb) (yMin bb)
  | TransformTool.TopScale => mkVec2 (xMid bb) (yMax bb)
  | TransformTool.RightScale => mkVec2 (xMin bb) (yMid bb)
  | TransformTool.BottomScale => mkVec2 (xMid bb) (yMin bb)
  | TransformTool.LeftScale => mkVec2 (xMax bb) (yMid bb)
  | TransformTool.TopLeftRotate => mkVec2 (xMax bb) (yMax bb)
  | TransformTool.TopRightRotate => mkVec2 (xMin bb) (yMax bb)
  | TransformTool.BottomRightRotate => mkVec2 (xMin bb) (yMin bb)
  | TransformTool.BottomLeftRotate => mkVec2 (xMax bb) (yMin bb)
  | _ => mkVec2 (d_of_Z 0) (d_of_Z 0)
  end.

(** Widget angle *)
Definition rotateWidgetMidAngle_ (id : TransformTool.WidgetId) : D :=
  match id with
  | TransformTool.TopLeftRotate => d_of_Z 5 * PI / d_of_Z 4
  | TransformTool.TopRightRotate => d_of_Z 7 * PI / d_of_Z 4
  | TransformTool.BottomRightRotate => d_of_Z 1 * PI / d_of_Z 4
  | TransformTool.BottomLeftRotate => d_of_Z 3 * PI / d_of_Z 4
  | _ => d_of_Z 0
  end.

(** Unit vector of angle theta *)
Definition u_ (theta : D) : Vec2 D := mkVec2 (dcos theta) (dsin theta).

(** Point on circle of center c, radius r, at angle theta *)
Definition p_ (c : Vec2 D) (r : D) (theta : D) : Vec2 D :=
  vadd c (smul r (u_ theta)).

(** Point on circle of center c, radius r, along unit vector u (the
    second overload of [p_]) *)
Definition p_u (c : Vec2 D) (r : D) (u : Vec2 D) : Vec2 D :=
  vadd c (smul r u).

(** *** [computeArrow_] *)

(** The [const] locals of [computeArrow_], as functions of its arguments
    ([zoom] is [viewSettings.zoom()]). *)
Definition arrowSize (zoom : D) : D := rotateWidgetSize / zoom.
Definition arrowCenter (id : TransformTool.WidgetId) (bb : BB) (zoom : D) : Vec2 D :=
  p_ (widgetPos_ id bb) (- rotateWidgetCircleCenter * arrowSize zoom)
     (rotateWidgetMidAngle_ id).

Definition rCenterline (zoom : D) : D := rotateWidgetCircleRadius * arrowSize zoom.
Definition rMaxHead (zoom : D) : D :=
  rCenterline zoom + rotateWidgetHeadHalfWidth * arrowSize zoom.
Definition rMinHead (zoom : D) : D :=
  rCenterline zoom - rotateWidgetHeadHalfWidth * arrowSize zoom.
Definition rMaxBody (zoom : D) : D :=
  rCenterline zoom + rotateWidgetBodyHalfWidth * arrowSize zoom.
Definition rMinBody (zoom : D) : D :=
  rCenterline zoom - rotateWidgetBodyHalfWidth * arrowSize zoom.

Definition startAngle (id : TransformTool.WidgetId) : D :=
  rotateWidgetMidAngle_ id - decimal 5 1 * rotateWidgetAngleRange.
Definition endAngle (id : TransformTool.WidgetId) : D :=
  rotateWidgetMidAngle_ id + decimal 5 1 * rotateWidgetAngleRange.
Definition deltaAngle : D :=
  rotateWidgetAngleRange / d_of_Z (Z.of_nat rotateWidgetNumSamples - 1).

(** The three points of the first and of the second arrow head. *)
Definition firstHead (id : TransformTool.WidgetId) (bb : BB) (zoom : D)
    : Vec2 D * Vec2 D * Vec2 D :=
  let center := arrowCenter id bb zoom in
  let uStart := u_ (startAngle id) in
  let vStart := mkVec2 (- vy uStart) (vx uStart) in
  (p_u center (rMaxHead zoom) uStart,
   vsub (p_u center (rCenterline zoom) uStart)
        (smul (rotateWidgetHeadHalfWidth * arrowSize zoom) vStart),
   p_u center (rMinHead zoom) uStart).

Definition secondHead (id : TransformTool.WidgetId) (bb : BB) (zoom : D)
    : Vec2 D * Vec2 D * Vec2 D :=
  let center := arrowCenter id bb zoom in
  let uEnd := u_ (endAngle id) in
  let vEnd := mkVec2 (- vy uEnd) (vx uEnd) in
  (p_u center (rMinHead zoom) uEnd,
   vadd (p_u center (rCenterline zoom) uEnd)
        (smul (rotateWidgetHeadHalfWidth * arrowSize zoom) vEnd),
   p_u center (rMaxHead zoom) uEnd).

(** The body points written by iteration [i] of the loop. *)
Definition bodyMin (id : TransformTool.WidgetId) (bb : BB) (zoom : D) (i : nat) : Vec2 D :=
  p_u (arrowCenter id bb zoom) (rMinBody zoom)
      (u_ (startAngle id + d_of_Z (Z.of_nat i) * deltaAngle)).
Definition bodyMax (id : TransformTool.WidgetId) (bb : BB) (zoom : D) (i : nat) : Vec2 D :=
  p_u (arrowCenter id bb zoom) (rMaxBody zoom)
      (u_ (startAngle id + d_of_Z (Z.of_nat i) * deltaAngle)).

(** The loop [for (int i=0; i<n; ++i)] with [k] iterations left. *)
Fixpoint arrowBody (id : TransformTool.WidgetId) (bb : BB) (zoom : D)
    (k i minBodyIndex maxBodyIndex : nat) (res : list (Vec2 D)) : list (Vec2 D) :=
  match k with
  | O => res
  | S k' =>
      let res := <[minBodyIndex := bodyMin id bb zoom i]> res in
      let res := <[maxBodyIndex := bodyMax id bb zoom i]> res in
      arrowBody id bb zoom k' (S i) (S minBodyIndex) (Nat.pred maxBodyIndex) res
  end.

(** Compute arrow for the rotate widgets.  [Vec2Vector res(2*n+6)] is the
    list of [2*n+6] points; its initial content is indeterminate in the
    source and every index is written before the function returns (here
    the list starts filled with the origin).  All indices written are in
    range, so stdpp's insert agrees with [operator[]]. *)
Definition computeArrow_ (id : TransformTool.WidgetId) (bb : BB) (zoom : D)
    : list (Vec2 D) :=
  let n := rotateWidgetNumSamples in
  let res : list (Vec2 D) :=
    replicate (2 * n + 6)%nat (mkVec2 (d_of_Z 0) (d_of_Z 0)) in
  (* First arrow head *)
  let '(h0, h1, h2) := firstHead id bb zoom in
  let res := <[0 := h0]> res in
  let res := <[1 := h1]> res in
  let res := <[2 := h2]> res in
  (* Second arrow head *)
  let '(g0, g1, g2) := secondHead id bb zoom in
  let res := <[(n + 3)%nat := g0]> res in
  let res := <[(n + 4)%nat := g1]> res in
  let res := <[(n + 5)%nat := g2]> res in
  (* Arrow body *)
  arrowBody id bb zoom n 0 3 (2 * n + 5)%nat res.

(** A point is one of the six points of the two arrow heads. *)
Definition isHeadPoint (id : TransformTool.WidgetId) (bb : BB) (zoom : D)
    (p : Vec2 D) : Prop :=
  p = (firstHead id bb zoom).1.1 \/ p = (firstHead id bb zoom).1.2
  \/ p = (firstHead id bb zoom).2
  \/ p = (secondHead id bb zoom).1.1 \/ p = (secondHead id bb zoom).1.2
  \/ p = (secondHead id bb zoom).2.

(** The reading of the contour in which its last three points (indices
    [2n+3], [2n+4], [2n+5]) belong to an arrow head. *)
Definition lastThreeAreHeadPoints (id : TransformTool.WidgetId) (bb : BB)
    (zoom : D) : Prop :=
  let n := rotateWidgetNumSamples in
  forall j, (2 * n + 3 <= j < 2 * n + 6)%nat ->
    exists p, computeArrow_ id bb zoom !! j = Some p /\ isHeadPoint id bb zoom p.
End WidgetGeometry.

(* ===================================================================== *)
(** ** Cells and the vector animation complex *)
(* ===================================================================== *)

(** Modelled from the spec: Cell.h, KeyVertex.h, KeyEdge.h and VAC.h are not
    among the sources.  A cell is a vertex, an edge or a face, and either a
    key cell or an inbetween cell; a [Cell *] is the dynamic type of the
    object together with its identity. *)
Inductive CellKind :=
| KeyVertexKind | KeyEdgeKind | KeyFaceKind
| InbetweenVertexKind | InbetweenEdgeKind | InbetweenFaceKind.

#[export] Instance CellKind_eq_dec : EqDecision CellKind.
Proof. solve_decision. Defined.

Definition CellKind_to_nat (k : CellKind) : nat :=
  match k with
  | KeyVertexKind => 0 | KeyEdgeKind => 1 | KeyFaceKind => 2
  | InbetweenVertexKind => 3 | InbetweenEdgeKind => 4 | InbetweenFaceKind => 5
  end.

Definition CellKind_of_nat (n : nat) : CellKind :=
  match n with
  | 0 => KeyVertexKind | 1 => KeyEdgeKind | 2 => KeyFaceKind
  | 3 => InbetweenVertexKind | 4 => InbetweenEdgeKind | _ => InbetweenFaceKind
  end.

#[export] Instance CellKind_countable : Countable CellKind.
Proof.
  apply (inj_countable' CellKind_to_nat CellKind_of_nat).
  intros []; reflexivity.
Defined.

Record Cell := mkCell { cellKind : CellKind; cellId : positive }.

#[export] Instance Cell_eq_dec : EqDecision Cell.
Proof. solve_decision. Defined.

#[export] Instance Cell_countable : Countable Cell.
Proof.
  apply (inj_countable' (fun c => (cellKind c, cellId c))
                        (fun p => mkCell (fst p) (snd p))).
  intros []; reflexivity.
Defined.

(** Modelled from the spec: [KeyVertex *] and [KeyEdge *] (KeyVertex.h,
    KeyEdge.h), the identity of a cell whose static type fixes its kind. *)
Definition KeyVertex := positive.
Definition KeyEdge := positive.

Definition keyVertexCell (v : KeyVertex) : Cell := mkCell KeyVertexKind v.
Definition keyEdgeCell (e : KeyEdge) : Cell := mkCell KeyEdgeKind e.

(** Modelled from the spec: the downcasts [toInbetweenCell], [toKeyVertex],
    [toKeyEdge] of Cell.h; the null pointer is [None]. *)
Definition toInbetweenCell (c : Cell) : option Cell :=
  match cellKind c with
  | InbetweenVertexKind | InbetweenEdgeKind | InbetweenFaceKind => Some c
  | _ => None
  end.

Definition toKeyVertex (c : Cell) : option KeyVertex :=
  match cellKind c with
  | KeyVertexKind => Some (cellId c)
  | _ => None
  end.

Definition toKeyEdge (c : Cell) : option KeyEdge :=
  match cellKind c with
  | KeyEdgeKind => Some (cellId c)
  | _ => None
  end.

(** Modelled from the spec: the converting constructors
    [KeyVertexSet(const CellSet &)] and [KeyEdgeSet(const CellSet &)] of
    CellList.h, which keep the vertex cells and the edge cells of the set. *)
Definition KeyVertexSet (cells : gset Cell) : gset KeyVertex :=
  set_omap toKeyVertex cells.
Definition KeyEdgeSet (cells : gset Cell) : gset KeyEdge :=
  set_omap toKeyEdge cells.

Section VAC.
Context {BB Time : Type}.

(** Modelled from the spec: what the tool reads of the complex.  Every
    cell has the set of cells it directly depends on (for a key edge, its
    incident key vertices), exists or not at a time, and has an outline
    bounding box at a time. *)
Record VAC := mkVAC {
  boundary : gmap Cell (gset Cell);
  exists_ : Cell -> Time -> bool;
  outlineBoundingBox : Cell -> Time -> BB;
}.

Definition cellBoundary (vac : VAC) (c : Cell) : gset Cell :=
  default ∅ (boundary vac !! c).

(** Modelled from the spec: [Algorithms::closure] of Algorithms.h, the
    smallest superset of a cell set that contains the boundary of each of
    its members.  One step adds the boundary of every member; every cell
    a step can add is in the boundary of some cell of the complex, so as
    many steps as there are such cells reach the fixed point. *)
Definition closureStep (vac : VAC) (cells : gset Cell) : gset Cell :=
  cells ∪ set_bind (cellBoundary vac) cells.

Definition boundaryCells (vac : VAC) : gset Cell :=
  ⋃ (snd <$> map_to_list (boundary vac)).

Definition closure (vac : VAC) (cells : gset Cell) : gset Cell :=
  Nat.iter (size (boundaryCells vac)) (closureStep vac) cells.

(** A set is closed under incidence when it contains the boundary of each
    of its members. *)
Definition closedUnderBoundary (vac : VAC) (cells : gset Cell) : Prop :=
  forall c, c ∈ cells -> cellBoundary vac c ⊆ cells.
End VAC.

Arguments VAC BB Time : clear implicits.

(* ===================================================================== *)
(** ** [TransformTool] *)
(* ===================================================================== *)

Section Tool.
Context {D : Type} {SD : Scalar D} {BB : Type} {BO : BoundingBoxOps D BB}.
Context {Time : Type}.
Local Open Scope double_scope.

(** [VAC::keyframe_(cells, time)] is outside the translation unit: it
    changes the complex and returns the resulting key cells. *)
Variable keyframe_ : VAC BB Time -> gset Cell -> Time -> VAC BB Time * gset Cell.

(** The data members of the tool. *)
Record ToolState := mkToolState {
  cells_ : gset Cell;
  idOffset_ : Z;
  hovered_ : TransformTool.WidgetId;
  manualPivot_ : bool;
  draggedVertices_ : gset KeyVertex;
  draggedEdges_ : gset KeyEdge;
  x0_ : D; y0_ : D;
  dx_ : D; dy_ : D;
  xPivot_ : D; yPivot_ : D;
}.

(** The calls the tool makes on the cached key edges and key vertices. *)
Inductive Call :=
| KeyEdge_prepareAffineTransform (e : KeyEdge)
| KeyVertex_prepareAffineTransform (v : KeyVertex)
| KeyEdge_performAffineTransform (e : KeyEdge) (xf : Affine2d D)
| KeyVertex_performAffineTransform (v : KeyVertex) (xf : Affine2d D)
| KeyVertex_correctEdgesGeometry (v : KeyVertex).

Definition setCells (st : ToolState) (cells : gset Cell) : ToolState :=
  mkToolState cells (idOffset_ st) (hovered_ st) false
              (draggedVertices_ st) (draggedEdges_ st)
              (x0_ st) (y0_ st) (dx_ st) (dy_ st) (xPivot_ st) (yPivot_ st).

Definition setIdOffset (st : ToolState) (idOffset : Z) : ToolState :=
  mkToolState (cells_ st) idOffset (hovered_ st) (manualPivot_ st)
              (draggedVertices_ st) (draggedEdges_ st)
              (x0_ st) (y0_ st) (dx_ st) (dy_ st) (xPivot_ st) (yPivot_ st).

Definition hovered (st : ToolState) : TransformTool.WidgetId := hovered_ st.

(** [glPickColor_(id)]: the pick id handed to [Picking::glColor]. *)
Definition glPickColor_ (st : ToolState) (id : TransformTool.WidgetId) : Z :=
  Int.sub (Int.add (idOffset_ st) (TransformTool.toInt id))
          TransformTool.MIN_WIDGET_ID.

Definition setNoHoveredObject (st : ToolState) : ToolState :=
  mkToolState (cells_ st) (idOffset_ st) TransformTool.None (manualPivot_ st)
              (draggedVertices_ st) (draggedEdges_ st)
              (x0_ st) (y0_ st) (dx_ st) (dy_ st) (xPivot_ st) (yPivot_ st).

Definition setHoveredObject (st : ToolState) (id : Z) : ToolState :=
  let widgetId :=
    Int.add (Int.sub id (idOffset_ st)) TransformTool.MIN_WIDGET_ID in
  if (TransformTool.MIN_WIDGET_ID <=? widgetId)%Z
     && (widgetId <=? TransformTool.MAX_WIDGET_ID)%Z
  then
    mkToolState (cells_ st) (idOffset_ st) (TransformTool.ofInt widgetId)
                (manualPivot_ st)
                (draggedVertices_ st) (draggedEdges_ st)
                (x0_ st) (y0_ st) (dx_ st) (dy_ st) (xPivot_ st) (yPivot_ st)
  else
    setNoHoveredObject st.

(** *** [beginTransform] *)

(** Clear cached values *)
Definition clearDragged (st : ToolState) : ToolState :=
  mkToolState (cells_ st) (idOffset_ st) (hovered_ st) (manualPivot_ st)
              ∅ ∅
              (x0_ st) (y0_ st) (dx_ st) (dy_ st) (xPivot_ st) (yPivot_ st).

(** Return in trivial cases *)
Definition trivialCase (st : ToolState) (cells : gset Cell) : bool :=
  bool_decide (hovered st = TransformTool.None) || bool_decide (cells = ∅).

(** Keyframe inbetween cells: the loop that fills [cellsNotToKeyframe]
    (first component) and [cellsToKeyframe] (second component). *)
Definition partitionCells (vac : VAC BB Time) (cells : gset Cell) (time : Time)
    : gset Cell * gset Cell :=
  foldl (fun '(cellsNotToKeyframe, cellsToKeyframe) c =>
           match toInbetweenCell c with
           | Some sc =>
               if exists_ vac sc time
               then (cellsNotToKeyframe, cellsToKeyframe ∪ {[sc]})
               else (cellsNotToKeyframe ∪ {[sc]}, cellsToKeyframe)
           | None => (cellsNotToKeyframe ∪ {[c]}, cellsToKeyframe)
           end)
        (∅, ∅) (elements cells).

(** Determine which cells to transform *)
Definition cellsToTransform (vac : VAC BB Time)
    (cellsNotToKeyframe keyframedCells : gset Cell) : gset Cell :=
  closure vac (cellsNotToKeyframe ∪ keyframedCells).

(** Compute outline bounding box at current time *)
Definition outlineBoundingBoxOf (vac : VAC BB Time) (cells : gset Cell)
    (time : Time) : BB :=
  foldl (fun obb c => unite obb (outlineBoundingBox vac c time))
        bbEmpty (elements cells).

(** The tool after the call, the complex after keyframing, and the calls
    made on the cached cells. *)
Definition beginTransform (st : ToolState) (vac : VAC BB Time)
    (cells : gset Cell) (x0 y0 : D) (time : Time)
    : ToolState * VAC BB Time * list Call :=
  let st := clearDragged st in
  if trivialCase st cells then (st, vac, [])
  else
    let '(cellsNotToKeyframe, cellsToKeyframe) := partitionCells vac cells time in
    let '(vac, keyframedCells) := keyframe_ vac cellsToKeyframe time in
    let cellsToTransform := cellsToTransform vac cellsNotToKeyframe keyframedCells in
    (* Cache key vertices and edges *)
    let draggedVertices := KeyVertexSet cellsToTransform in
    let draggedEdges := KeyEdgeSet cellsToTransform in
    (* prepare for affine transform *)
    let calls :=
      (KeyEdge_prepareAffineTransform <$> elements draggedEdges)
      ++ (KeyVertex_prepareAffineTransform <$> elements draggedVertices) in
    let obb := outlineBoundingBoxOf vac cells time in
    (* Cache start values to determine affine transformation *)
    let obbWidgetPos := widgetPos_ (hovered st) obb in
    let obbOppositeWidgetPos := widgetOppositePos_ (hovered st) obb in
    (mkToolState (cells_ st) (idOffset_ st) (hovered_ st) (manualPivot_ st)
                 draggedVertices draggedEdges
                 x0 y0
                 (x0 - vx obbWidgetPos) (y0 - vy obbWidgetPos)
                 (vx obbOppositeWidgetPos) (vy obbOppositeWidgetPos),
     vac, calls).

(** *** [continueTransform] *)

Definition isCornerScale (id : TransformTool.WidgetId) : bool :=
  bool_decide (id = TransformTool.TopLeftScale)
  || bool_decide (id = TransformTool.TopRightScale)
  || bool_decide (id = TransformTool.BottomRightScale)
  || bool_decide (id = TransformTool.BottomLeftScale).

Definition isVerticalScale (id : TransformTool.WidgetId) : bool :=
  bool_decide (id = TransformTool.TopScale)
  || bool_decide (id = TransformTool.BottomScale).

Definition isHorizontalScale (id : TransformTool.WidgetId) : bool :=
  bool_decide (id = TransformTool.RightScale)
  || bool_decide (id = TransformTool.LeftScale).

Definition isRotate (id : TransformTool.WidgetId) : bool :=
  bool_decide (id = TransformTool.TopLeftRotate)
  || bool_decide (id = TransformTool.TopRightRotate)
  || bool_decide (id = TransformTool.BottomRightRotate)
  || bool_decide (id = TransformTool.BottomLeftRotate).

(** The two quotients of the scale branches. *)
Definition xRatio (st : ToolState) (x : D) : D :=
  (x - dx_ st - xPivot_ st) / (x0_ st - dx_ st - xPivot_ st).
Definition yRatio (st : ToolState) (y : D) : D :=
  (y - dy_ st - yPivot_ st) / (y0_ st - dy_ st - yPivot_ st).

(** The angle of the rotate branch. *)
Definition dTheta (st : ToolState) (x y : D) : D :=
  let theta0 := datan2 (y0_ st - yPivot_ st) (x0_ st - xPivot_ st) in
  let theta := datan2 (y - yPivot_ st) (x - xPivot_ st) in
  theta - theta0.

(** Determine affine transformation: [Some xf], or [None] where the
    source returns from the final [else]. *)
Definition determineAffine (st : ToolState) (x y : D) : option (Affine2d D) :=
  if isCornerScale (hovered st) then
    Some (Scaling (xRatio st x) (yRatio st y))
  else if isVerticalScale (hovered st) then
    Some (Scaling (d_of_Z 1) (yRatio st y))
  else if isHorizontalScale (hovered st) then
    Some (Scaling (xRatio st x) (d_of_Z 1))
  else if isRotate (hovered st) then
    Some (Rotation2Dd (dTheta st x y))
  else
    None.

(** Make relative to pivot: [pivot * xf * pivot.inverse()] *)
Definition makeRelativeToPivot (st : ToolState) (xf : Affine2d D) : Affine2d D :=
  let pivot := mkVec2 (xPivot_ st) (yPivot_ st) in
  translate (pretranslate pivot xf) (vneg pivot).

(** Apply affine transformation: the three loops over the cached sets. *)
Definition applyAffine (st : ToolState) (xf : Affine2d D) : list Call :=
  ((fun e => KeyEdge_performAffineTransform e xf) <$> elements (draggedEdges_ st))
  ++ ((fun v => KeyVertex_performAffineTransform v xf) <$> elements (draggedVertices_ st))
  ++ (KeyVertex_correctEdgesGeometry <$> elements (draggedVertices_ st)).

(** The calls made on the cached cells; the tool itself is not changed. *)
Definition continueTransform (st : ToolState) (cells : gset Cell) (x y : D)
    : list Call :=
  if trivialCase st cells then []
  else
    match determineAffine st x y with
    | Some xf => applyAffine st (makeRelativeToPivot st xf)
    | None => []
    end.

(** Nothing to do *)
Definition endTransform (st : ToolState) (cells : gset Cell) : ToolState := st.

(** The recorded pivot point. *)
Definition pivotOf (st : ToolState) : Vec2 D := mkVec2 (xPivot_ st) (yPivot_ st).

(** The cell a call is made on is a cached one. *)
Definition callOnCached (st : ToolState) (c : Call) : Prop :=
  match c with
  | KeyEdge_prepareAffineTransform e | KeyEdge_performAffineTransform e _ =>
      e ∈ draggedEdges_ st
  | KeyVertex_prepareAffineTransform v | KeyVertex_performAffineTransform v _
  | KeyVertex_correctEdgesGeometry v =>
      v ∈ draggedVertices_ st
  end.
End Tool.

Arguments ToolState D : clear implicits.
Arguments Call D : clear implicits.

(* ===================================================================== *)
(** ** A bounding box for the examples *)
(* ===================================================================== *)

Section Box.
Context {D : Type} {SD : Scalar D}.
Local Open Scope double_scope.

(** Modelled from the spec: a [BoundingBox] with the attributes [xMin],
    [xMax], [yMin], [yMax] and the derived midpoints; uniting with the
    empty box adopts the other box, uniting two boxes covers both. *)
Record Box := mkBox { box_xMin : D; box_xMax : D; box_yMin : D; box_yMax : D }.

Definition Box_unite (a b : option Box) : option Box :=
  match a, b with
  | None, _ => b
  | _, None => a
  | Some a, Some b =>
      Some (mkBox (dmin (box_xMin a) (box_xMin b)) (dmax (box_xMax a) (box_xMax b))
                  (dmin (box_yMin a) (box_yMin b)) (dmax (box_yMax a) (box_yMax b)))
  end.

Definition Box_get (f : Box -> D) (b : option Box) : D :=
  match b with
  | Some b => f b
  | None => d_of_Z 0
  end.

#[export] Instance Box_ops : BoundingBoxOps D (option Box) := {|
  bbEmpty := None;
  unite := Box_unite;
  xMin := Box_get box_xMin;
  xMax := Box_get box_xMax;
  xMid := Box_get (fun b => (box_xMin b + box_xMax b) / d_of_Z 2);
  yMin := Box_get box_yMin;
  yMax := Box_get box_yMax;
  yMid := Box_get (fun b => (box_yMin b + box_yMax b) / d_of_Z 2);
|}.
End Box.

Arguments Box D : clear implicits.

(** The box [0,0]..[10,10]. *)
Definition box10 {D : Type} {SD : Scalar D} : Box D :=
  mkBox (d_of_Z 0) (d_of_Z 10) (d_of_Z 0) (d_of_Z 10).

(** The squared distance of [p] to [c], over the reals. *)
Definition dist2 (c p : Vec2 R) : R :=
  ((vx p - vx c) * (vx p - vx c) + (vy p - vy c) * (vy p - vy c))%R.

(** A complex of one key edge (cell 3) between two key vertices (cells 1
    and 2); every cell reports the same outline bounding box [b]. *)
Definition v1 : KeyVertex := 1%positive.
Definition v2 : KeyVertex := 2%positive.
Definition e3 : KeyEdge := 3%positive.

Definition edgeVAC {D : Type} (b : Box D) : VAC (option (Box D)) unit :=
  mkVAC (<[keyEdgeCell e3 := {[keyVertexCell v1; keyVertexCell v2]}]> ∅)
        (fun _ _ => true)
        (fun _ _ => Some b).

(** A keyframing service for complexes without inbetween cells: nothing
    to keyframe. *)
Definition noKeyframe {BB Time : Type} (vac : VAC BB Time) (cells : gset Cell)
    (time : Time) : VAC BB Time * gset Cell := (vac, ∅).

(** A tool hovering widget [h], with empty caches and the baseline [z]. *)
Definition hoveringTool {D : Type} (h : TransformTool.WidgetId) (z : D) : ToolState D :=
  mkToolState ∅ 0 h false ∅ ∅ z z z z z z.

(** The stand-in for the <cmath> functions in the binary64 examples, none
    of which reaches a rotate branch. *)
#[export] Instance float_scale_only : Scalar float :=
  float_scalar (fun _ => PrimFloat.nan) (fun _ => PrimFloat.nan)
               (fun _ _ => PrimFloat.nan).

(** The scenario of the spec: the box [0,0]..[10,10], [TopLeftScale]
    hovered, the button pressed at (0,0). *)
Definition scenarioTool {D : Type} {SD : Scalar D} : ToolState D :=
  (beginTransform noKeyframe (hoveringTool TransformTool.TopLeftScale (d_of_Z 0))
                  (edgeVAC box10) {[keyEdgeCell e3]} (d_of_Z 0) (d_of_Z 0) tt).1.1.

(* ===================================================================== *)
(** ** Drawing: the OpenGL calls of the tool *)
(* ===================================================================== *)

(** The primitive modes the tool passes to [glBegin]. *)
Inductive GLMode := GL_LINE_LOOP | GL_QUADS | GL_TRIANGLE_STRIP | GL_TRIANGLES.

#[export] Instance GLMode_eq_dec : EqDecision GLMode.
Proof. solve_decision. Defined.

Section Drawing.
Context {D : Type} {SD : Scalar D} {BB : Type} {BO : BoundingBoxOps D BB}.
Context {Time : Type}.
Local Open Scope double_scope.

(** [Cell::boundingBox(time)] and [BoundingBox::isProper()] are outside the
    translation unit. *)
Variable boundingBox : VAC BB Time -> Cell -> Time -> BB.
Variable isProper : BB -> bool.

(** The OpenGL commands the tool issues, in the order it issues them;
    [Picking_glColor] is [Picking::glColor] of Picking.h. *)
Inductive GLCall :=
| glBegin (mode : GLMode)
| glEnd
| glVertex2d (x y : D)
| glColor4dv (v : list D)
| glLineWidth (width : D)
| Picking_glColor (id : Z).

(** Widget colors *)
Definition outlineBoundingBoxColor : list D :=
  [decimal 5 1; decimal 5 1; decimal 5 1; decimal 2 1].
Definition boundingBoxColor : list D :=
  [decimal 5 1; decimal 5 1; decimal 5 1; decimal 5 1].
Definition fillColor : list D :=
  [decimal 8 1; decimal 8 1; decimal 8 1; decimal 2 1].
Definition strokeColor : list D :=
  [decimal 5 1; decimal 5 1; decimal 5 1; decimal 2 1].
Definition fillColorHighlighted : list D :=
  [decimal 10 1; decimal 8 1; decimal 8 1; decimal 8 1].
Definition strokeColorHighlighted : list D :=
  [decimal 10 1; decimal 5 1; decimal 5 1; decimal 8 1].

Definition lineWidth : D := decimal 10 1.

Definition glStrokeBoundingBox_ (bb : BB) : list GLCall :=
  [glBegin GL_LINE_LOOP;
   glVertex2d (xMin bb) (yMin bb);
   glVertex2d (xMax bb) (yMin bb);
   glVertex2d (xMax bb) (yMax bb);
   glVertex2d (xMin bb) (yMax bb);
   glEnd].

Definition glStrokeRect_ (pos : Vec2 D) (size : D) : list GLCall :=
  [glBegin GL_LINE_LOOP;
   glVertex2d (vx pos - size) (vy pos - size);
   glVertex2d (vx pos + size) (vy pos - size);
   glVertex2d (vx pos + size) (vy pos + size);
   glVertex2d (vx pos - size) (vy pos + size);
   glEnd].

Definition glFillRect_ (pos : Vec2 D) (size : D) : list GLCall :=
  [glBegin GL_QUADS;
   glVertex2d (vx pos - size) (vy pos - size);
   glVertex2d (vx pos + size) (vy pos - size);
   glVertex2d (vx pos + size) (vy pos + size);
   glVertex2d (vx pos - size) (vy pos + size);
   glEnd].

(** The loop over [i < arrow.size()] *)
Definition glStrokeArrow_ (arrow : list (Vec2 D)) : list GLCall :=
  [glBegin GL_LINE_LOOP]
  ++ ((fun p => glVertex2d (vx p) (vy p)) <$> arrow)
  ++ [glEnd].

(** [glVertex2d(arrow[i][0], arrow[i][1])].  [operator[]] does not check
    its index: reading past the end of the vector is undefined, here
    [None]. *)
Definition glVertexAt (arrow : list (Vec2 D)) (i : nat) : option GLCall :=
  (fun p => glVertex2d (vx p) (vy p)) <$> arrow !! i.

(** The loop [for (int i=0; i<n; ++i)] of [glFillArrow_] with [k]
    iterations left. *)
Fixpoint fillArrowBody (arrow : list (Vec2 D)) (k minBodyIndex maxBodyIndex : nat)
    : option (list GLCall) :=
  match k with
  | O => Some []
  | S k' =>
      a ← glVertexAt arrow minBodyIndex;
      b ← glVertexAt arrow maxBodyIndex;
      rest ← fillArrowBody arrow k' (S minBodyIndex) (Nat.pred maxBodyIndex);
      Some (a :: b :: rest)
  end.

Definition glFillArrow_ (arrow : list (Vec2 D)) : option (list GLCall) :=
  let n := rotateWidgetNumSamples in
  (* Arrow body *)
  body ← fillArrowBody arrow n 3 (2 * n + 5)%nat;
  (* Arrow heads *)
  h0 ← glVertexAt arrow 0;
  h1 ← glVertexAt arrow 1;
  h2 ← glVertexAt arrow 2;
  g0 ← glVertexAt arrow (n + 3)%nat;
  g1 ← glVertexAt arrow (n + 4)%nat;
  g2 ← glVertexAt arrow (n + 5)%nat;
  Some ([glBegin GL_TRIANGLE_STRIP] ++ body ++ [glEnd]
        ++ [glBegin GL_TRIANGLES; h0; h1; h2; g0; g1; g2; glEnd]).

Definition drawScaleWidget_ (st : ToolState D) (id : TransformTool.WidgetId)
    (bb : BB) (size : D) (zoom : D) : list GLCall :=
  (* Compute rect *)
  let p := widgetPos_ id bb in
  let size := size / zoom in
  (* Fill *)
  [glColor4dv (if bool_decide (hovered_ st = id) then fillColorHighlighted else fillColor)]
  ++ glFillRect_ p size
  (* Stroke *)
  ++ [glColor4dv (if bool_decide (hovered_ st = id) then strokeColorHighlighted
                  else strokeColor)]
  ++ glStrokeRect_ p size.

Definition drawPickScaleWidget_ (st : ToolState D) (id : TransformTool.WidgetId)
    (bb : BB) (size : D) (zoom : D) : list GLCall :=
  (* Compute rect *)
  let p := widgetPos_ id bb in
  let size := size / zoom in
  (* Fill *)
  [Picking_glColor (glPickColor_ st id)] ++ glFillRect_ p size.

Definition drawRotateWidget_ (st : ToolState D) (id : TransformTool.WidgetId)
    (bb : BB) (zoom : D) : option (list GLCall) :=
  (* Compute arrow *)
  let arrow := computeArrow_ id bb zoom in
  (* Fill *)
  fill ← glFillArrow_ arrow;
  (* Stroke *)
  Some ([glColor4dv (if bool_decide (hovered_ st = id) then fillColorHighlighted
                     else fillColor)]
        ++ fill
        ++ [glColor4dv (if bool_decide (hovered_ st = id) then strokeColorHighlighted
                        else strokeColor)]
        ++ glStrokeArrow_ arrow).

Definition drawPickRotateWidget_ (st : ToolState D) (id : TransformTool.WidgetId)
    (bb : BB) (zoom : D) : option (list GLCall) :=
  (* Compute arrow *)
  let arrow := computeArrow_ id bb zoom in
  (* Fill *)
  fill ← glFillArrow_ arrow;
  Some ([Picking_glColor (glPickColor_ st id)] ++ fill).

(** The three lists of widgets the draw loops range over. *)
Definition cornerScaleWidgets : list TransformTool.WidgetId :=
  [TransformTool.TopLeftScale; TransformTool.TopRightScale;
   TransformTool.BottomRightScale; TransformTool.BottomLeftScale].
Definition edgeScaleWidgets : list TransformTool.WidgetId :=
  [TransformTool.TopScale; TransformTool.RightScale;
   TransformTool.BottomScale; TransformTool.LeftScale].
Definition rotateWidgets : list TransformTool.WidgetId :=
  [TransformTool.TopLeftRotate; TransformTool.TopRightRotate;
   TransformTool.BottomRightRotate; TransformTool.BottomLeftRotate].

(** Compute bounding box at current time *)
Definition boundingBoxOf (vac : VAC BB Time) (cells : gset Cell) (time : Time) : BB :=
  foldl (fun bb c => unite bb (boundingBox vac c time)) bbEmpty (elements cells).

(** A loop of calls any of which may read out of range. *)
Fixpoint concatCalls (calls : list (option (list GLCall))) : option (list GLCall) :=
  match calls with
  | [] => Some []
  | first :: rest =>
      a ← first;
      b ← concatCalls rest;
      Some (a ++ b)
  end.

Definition draw (st : ToolState D) (vac : VAC BB Time) (cells : gset Cell)
    (time : Time) (zoom : D) : option (list GLCall) :=
  let bb := boundingBoxOf vac cells time in
  let obb := outlineBoundingBoxOf vac cells time in
  (* Draw bounding box and transform widgets *)
  if isProper bb then
    rotate ← concatCalls ((fun id => drawRotateWidget_ st id bb zoom) <$> rotateWidgets);
    Some ([glLineWidth lineWidth]
          (* Outline bounding box *)
          ++ [glColor4dv outlineBoundingBoxColor] ++ glStrokeBoundingBox_ obb
          (* Bounding box *)
          ++ [glColor4dv boundingBoxColor] ++ glStrokeBoundingBox_ bb
          (* Scale widgets (corners) *)
          ++ concat ((fun id => drawScaleWidget_ st id bb scaleWidgetCornerSize zoom)
                       <$> cornerScaleWidgets)
          (* Scale widgets (edges) *)
          ++ concat ((fun id => drawScaleWidget_ st id bb scaleWidgetEdgeSize zoom)
                       <$> edgeScaleWidgets)
          (* Rotate widgets *)
          ++ rotate)
  else Some [].

Definition drawPick (st : ToolState D) (vac : VAC BB Time) (cells : gset Cell)
    (time : Time) (zoom : D) : option (list GLCall) :=
  let bb := boundingBoxOf vac cells time in
  (* Draw transform widgets *)
  if isProper bb then
    rotate ← concatCalls ((fun id => drawPickRotateWidget_ st id bb zoom)
                            <$> rotateWidgets);
    Some ((* Scale widgets (corners) *)
          concat ((fun id => drawPickScaleWidget_ st id bb scaleWidgetCornerSize zoom)
                    <$> cornerScaleWidgets)
          (* Scale widgets (edges) *)
          ++ concat ((fun id => drawPickScaleWidget_ st id bb scaleWidgetEdgeSize zoom)
                       <$> edgeScaleWidgets)
          (* Rotate widgets *)
          ++ rotate)
  else Some [].

(** The vertices a sequence of commands emits, in order. *)
Definition glVertices (calls : list GLCall) : list (Vec2 D) :=
  omap (fun c => match c with glVertex2d x y => Some (mkVec2 x y) | _ => None end) calls.

(** The pick ids a sequence of commands sets, in order. *)
Definition pickIds (calls : list GLCall) : list Z :=
  omap (fun c => match c with Picking_glColor id => Some id | _ => None end) calls.

(** A command sets a colour, for display or for picking. *)
Definition isColorCall (c : GLCall) : bool :=
  match c with glColor4dv _ | Picking_glColor _ => true | _ => false end.

(** The filled primitives of a sequence of commands: what is issued between
    a [glBegin] of a mode other than [GL_LINE_LOOP] and its [glEnd], both
    included; [inside] tells whether such a primitive is open. *)
Fixpoint filledPrimitives (inside : bool) (calls : list GLCall) : list GLCall :=
  match calls with
  | [] => []
  | glBegin mode :: rest =>
      if bool_decide (mode = GL_LINE_LOOP) then filledPrimitives false rest
      else glBegin mode :: filledPrimitives true rest
  | glEnd :: rest =>
      if inside then glEnd :: filledPrimitives false rest
      else filledPrimitives false rest
  | glVertex2d x y :: rest =>
      if inside then glVertex2d x y :: filledPrimitives inside rest
      else filledPrimitives inside rest
  | _ :: rest => filledPrimitives inside rest
  end.
End Drawing.

Arguments GLCall D : clear implicits.

(** The widget across the box: the opposite corner of a corner widget, the
    opposite edge of an edge widget. *)
Definition oppositeWidget (id : TransformTool.WidgetId) : TransformTool.WidgetId :=
  match id with
  | TransformTool.None => TransformTool.None
  | TransformTool.TopLeftScale => TransformTool.BottomRightScale
  | TransformTool.TopRightScale => TransformTool.BottomLeftScale
  | TransformTool.BottomRightScale => TransformTool.TopLeftScale
  | TransformTool.BottomLeftScale => TransformTool.TopRightScale
  | TransformTool.TopScale => TransformTool.BottomScale
  | TransformTool.RightScale => TransformTool.LeftScale
  | TransformTool.BottomScale => TransformTool.TopScale
  | TransformTool.LeftScale => TransformTool.RightScale
  | TransformTool.TopLeftRotate => TransformTool.BottomRightRotate
  | TransformTool.TopRightRotate => TransformTool.BottomLeftRotate
  | TransformTool.BottomRightRotate => TransformTool.TopLeftRotate
  | TransformTool.BottomLeftRotate => TransformTool.TopRightRotate
  end.

(** The scale widget at the corner of a rotate widget. *)
Definition cornerOfRotate (id : TransformTool.WidgetId) : TransformTool.WidgetId :=
  match id with
  | TransformTool.TopLeftRotate => TransformTool.TopLeftScale
  | TransformTool.TopRightRotate => TransformTool.TopRightScale
  | TransformTool.BottomRightRotate => TransformTool.BottomRightScale
  | TransformTool.BottomLeftRotate => TransformTool.BottomLeftScale
  | other => other
  end.

(** The cells a sequence of calls prepares, transforms and corrects. *)
Definition preparedCells {D : Type} (calls : list (Call D)) : list Cell :=
  omap (fun c => match c with
                 | KeyEdge_prepareAffineTransform e => Some (keyEdgeCell e)
                 | KeyVertex_prepareAffineTransform v => Some (keyVertexCell v)
                 | _ => None
                 end) calls.
Definition transformedCells {D : Type} (calls : list (Call D)) : list Cell :=
  omap (fun c => match c with
                 | KeyEdge_performAffineTransform e _ => Some (keyEdgeCell e)
                 | KeyVertex_performAffineTransform v _ => Some (keyVertexCell v)
                 | _ => None
                 end) calls.
Definition correctedVertices {D : Type} (calls : list (Call D)) : list KeyVertex :=
  omap (fun c => match c with
                 | KeyVertex_correctEdgesGeometry v => Some v
                 | _ => None
                 end) calls.

(* ===================================================================== *)
(** ** Notions used to state the properties *)
(* ===================================================================== *)

(** The indices [glFillArrow_]'s loop reads with [k] iterations left, in
    the order it reads them. *)
Fixpoint fillBodyOrder (k minBodyIndex maxBodyIndex : nat) : list nat :=
  match k with
  | O => []
  | S k' => minBodyIndex :: maxBodyIndex
            :: fillBodyOrder k' (S minBodyIndex) (Nat.pred maxBodyIndex)
  end.

(** The indices [glFillArrow_] reads, in the order it reads them. *)
Definition fillOrder : list nat :=
  let n := rotateWidgetNumSamples in
  fillBodyOrder n 3 (2 * n + 5) ++ [0; 1; 2; n + 3; n + 4; n + 5]%nat.

(** A sequence of commands leaves no filled primitive open: the filled
    primitives of what follows are those it has on its own. *)
Definition closedCalls {D : Type} (a : list (GLCall D)) : Prop :=
  forall rest, filledPrimitives false (a ++ rest)
               = filledPrimitives false a ++ filledPrimitives false rest.

(** A command is a [glVertex2d]. *)
Definition isVertexCall {D : Type} (c : GLCall D) : Prop :=
  exists x y, c = glVertex2d x y.

(** A primitive of mode [mode] is complete with [k] vertices: no vertex is
    left over. *)
Definition completePrimitive (mode : GLMode) (k : nat) : bool :=
  match mode with
  | GL_LINE_LOOP => (2 <=? k)%nat
  | GL_QUADS => ((1 <=? k) && (k mod 4 =? 0))%nat
  | GL_TRIANGLE_STRIP => (3 <=? k)%nat
  | GL_TRIANGLES => ((1 <=? k) && (k mod 3 =? 0))%nat
  end.

(** A sequence of commands respects the [glBegin]/[glEnd] protocol:
    primitives are not nested and none is left open, vertices are emitted
    inside a primitive only and complete it, colours, pick ids and the line
    width are set between primitives only.  [current] is the primitive
    that is open, with the number of vertices emitted so far. *)
Fixpoint wellFormed {D : Type} (current : option (GLMode * nat))
    (calls : list (GLCall D)) : bool :=
  match calls with
  | [] => match current with None => true | Some _ => false end
  | glBegin mode :: rest =>
      match current with
      | None => wellFormed (Some (mode, 0%nat)) rest
      | Some _ => false
      end
  | glEnd :: rest =>
      match current with
      | Some (mode, k) => completePrimitive mode k && wellFormed None rest
      | None => false
      end
  | glVertex2d _ _ :: rest =>
      match current with
      | Some (mode, k) => wellFormed (Some (mode, S k)) rest
      | None => false
      end
  | _ :: rest =>
      match current with
      | None => wellFormed None rest
      | Some _ => false
      end
  end.

(** The relation between a point [p] of the rotate arrow of [id] at [bb],
    [zoom] and the point [p1] of the arrow at [bb'], zoom 1: relative to
    the widget's corner, [p] is [p1] divided by [zoom]. *)
Definition sameShape {BB : Type} {BO : BoundingBoxOps R BB}
    (id : TransformTool.WidgetId) (bb bb' : BB) (zoom : R) (p p1 : Vec2 R) : Prop :=
  vsub p (widgetPos_ id bb) = smul (1 / zoom)%R (vsub p1 (widgetPos_ id bb')).

(** The state [beginTransform] records when widget [h] is pressed at
    (x0, y0), with the widget at (wx, wy) on the outline box and the pivot
    at (px, py). *)
Definition pressedTool (h : TransformTool.WidgetId) (x0 y0 wx wy px py : R)
    : ToolState R :=
  mkToolState ∅ 0 h false ∅ ∅ x0 y0 (x0 - wx)%R (y0 - wy)%R px py.

(* ===================================================================== *)
(** * Properties *)
(* ===================================================================== *)

(** ** 32-bit arithmetic *)

Module IntFacts.
Local Open Scope Z_scope.

Lemma wrap_range z : Int.in_range (Int.wrap z).
Proof.
  unfold Int.in_range, Int.wrap, Int.min_signed, Int.max_signed, Int.modulus.
  pose proof (Z.mod_pos_bound (z - - 2 ^ 31) (2 ^ 32) eq_refl). lia.
Qed.

Lemma wrap_congruent z : exists q, Int.wrap z = z - q * Int.modulus.
Proof.
  exists ((z - Int.min_signed) / Int.modulus).
  unfold Int.wrap.
  pose proof (Z.div_mod (z - Int.min_signed) Int.modulus) as E.
  unfold Int.modulus in *. lia.
Qed.

Lemma wrap_id z : Int.in_range z -> Int.wrap z = z.
Proof.
  unfold Int.in_range, Int.wrap, Int.min_signed, Int.max_signed, Int.modulus.
  intros Hz. rewrite Z.mod_small; lia.
Qed.

(** A value congruent to [z] modulo 2^32 and in the signed range is the
    wrapped [z]. *)
Lemma wrap_unique z r q :
  Int.in_range r -> r = z - q * Int.modulus -> Int.wrap z = r.
Proof.
  intros Hr Hq. destruct (wrap_congruent z) as [q' Hq'].
  pose proof (wrap_range z) as Hw.
  unfold Int.in_range, Int.min_signed, Int.max_signed, Int.modulus in *.
  assert (q' = q) by nia. subst q'. lia.
Qed.

(** Subtracting the offset and adding [MIN_WIDGET_ID] undoes adding the
    offset and subtracting [MIN_WIDGET_ID], whatever wraps on the way. *)
Lemma pick_round_trip off w :
  Int.in_range w ->
  Int.add (Int.sub (Int.sub (Int.add off w) TransformTool.MIN_WIDGET_ID) off)
          TransformTool.MIN_WIDGET_ID = w.
Proof.
  intros Hw. unfold Int.add, Int.sub.
  destruct (wrap_congruent (off + w)) as [q1 ->].
  destruct (wrap_congruent (off + w - q1 * Int.modulus - TransformTool.MIN_WIDGET_ID))
    as [q2 ->].
  destruct (wrap_congruent
              (off + w - q1 * Int.modulus - TransformTool.MIN_WIDGET_ID
               - q2 * Int.modulus - off)) as [q3 ->].
  apply (wrap_unique _ _ (- (q1 + q2 + q3))); [exact Hw | lia].
Qed.
End IntFacts.

(** ** Hover state *)

Section HoverFacts.
Context {D : Type}.

Lemma widget_toInt_range (id : TransformTool.WidgetId) :
  id <> TransformTool.None ->
  (TransformTool.MIN_WIDGET_ID <= TransformTool.toInt id <= TransformTool.MAX_WIDGET_ID)%Z.
Proof. destruct id; intros Hid; try congruence; vm_compute; split; discriminate. Qed.

Lemma widget_ofInt_toInt (id : TransformTool.WidgetId) :
  TransformTool.ofInt (TransformTool.toInt id) = id.
Proof. destruct id; reflexivity. Qed.

Lemma widget_toInt_ofInt (z : Z) :
  (TransformTool.MIN_WIDGET_ID <= z <= TransformTool.MAX_WIDGET_ID)%Z ->
  TransformTool.toInt (TransformTool.ofInt z) = z
  /\ TransformTool.ofInt z <> TransformTool.None.
Proof.
  unfold TransformTool.MIN_WIDGET_ID, TransformTool.MAX_WIDGET_ID. simpl.
  intros Hz.
  assert (z = 1 \/ z = 2 \/ z = 3 \/ z = 4 \/ z = 5 \/ z = 6 \/ z = 7 \/ z = 8
          \/ z = 9 \/ z = 10 \/ z = 11 \/ z = 12)%Z as Hcases by lia.
  repeat (destruct Hcases as [-> | Hcases]); try subst z; split;
    (reflexivity || discriminate).
Qed.

Lemma setHoveredObject_hovered (st : ToolState D) (pickId : Z) :
  hovered (setHoveredObject st pickId) =
    let widgetId :=
      Int.add (Int.sub pickId (idOffset_ st)) TransformTool.MIN_WIDGET_ID in
    if decide (TransformTool.MIN_WIDGET_ID <= widgetId <= TransformTool.MAX_WIDGET_ID)%Z
    then TransformTool.ofInt widgetId else TransformTool.None.
Proof.
  unfold setHoveredObject. cbv zeta.
  set (w := Int.add _ _).
  destruct (decide _) as [[H1 H2] | Hn].
  - apply Z.leb_le in H1, H2. rewrite H1, H2. reflexivity.
  - destruct (Z.leb_spec TransformTool.MIN_WIDGET_ID w);
      destruct (Z.leb_spec w TransformTool.MAX_WIDGET_ID);
      simpl; try reflexivity; lia.
Qed.

Lemma setHoveredObject_idOffset (st : ToolState D) (pickId : Z) :
  idOffset_ (setHoveredObject st pickId) = idOffset_ st.
Proof.
  unfold setHoveredObject. cbv zeta.
  destruct (_ && _); reflexivity.
Qed.
End HoverFacts.

(** C6. For every integer [pickId], [setHoveredObject] sets the hovered
    widget to the one whose numeric value is
    [pickId - idOffset + MIN_WIDGET_ID] (computed in [int]) when that value
    lies between [MIN_WIDGET_ID] and [MAX_WIDGET_ID], and to [None]
    otherwise; where the subtraction and the addition do not overflow, the
    value is the mathematical one.  The pick id of every widget maps back to
    that widget, [setNoHoveredObject] always yields [None], and clearing
    twice or repeating an out-of-range id leaves the hover at [None]. *)
Theorem setHoveredObject_pick_id_mapping :
  forall (D : Type) (st : ToolState D) (pickId : Z),
    let widgetId :=
      Int.add (Int.sub pickId (idOffset_ st)) TransformTool.MIN_WIDGET_ID in
    let inRange :=
      (TransformTool.MIN_WIDGET_ID <= widgetId <= TransformTool.MAX_WIDGET_ID)%Z in
    (inRange ->
       hovered (setHoveredObject st pickId) <> TransformTool.None
       /\ TransformTool.toInt (hovered (setHoveredObject st pickId)) = widgetId)
    /\ (~ inRange -> hovered (setHoveredObject st pickId) = TransformTool.None)
    /\ (Int.in_range (pickId - idOffset_ st) ->
        Int.in_range (pickId - idOffset_ st + TransformTool.MIN_WIDGET_ID) ->
        widgetId = (pickId - idOffset_ st + TransformTool.MIN_WIDGET_ID)%Z)
    /\ (forall id : TransformTool.WidgetId,
          id <> TransformTool.None ->
          hovered (setHoveredObject st (glPickColor_ st id)) = id)
    /\ hovered (setNoHoveredObject st) = TransformTool.None
    /\ setNoHoveredObject (setNoHoveredObject st) = setNoHoveredObject st
    /\ (~ inRange ->
        setHoveredObject (setHoveredObject st pickId) pickId
        = setHoveredObject st pickId).
Proof.
  intros D st pickId widgetId inRange.
  pose proof (setHoveredObject_hovered st pickId) as Hh. cbv zeta in Hh.
  fold widgetId in Hh. fold inRange in Hh.
  refine (conj _ (conj _ (conj _ (conj _ (conj _ (conj _ _)))))); try reflexivity.
  - intros Hr. rewrite Hh. rewrite decide_True by exact Hr.
    destruct (widget_toInt_ofInt widgetId Hr). split; assumption.
  - intros Hr. rewrite Hh. rewrite decide_False by exact Hr. reflexivity.
  - intros H1 H2. unfold widgetId, Int.add, Int.sub.
    rewrite (IntFacts.wrap_id (pickId - idOffset_ st)) by exact H1.
    apply IntFacts.wrap_id, H2.
  - intros id Hid. rewrite setHoveredObject_hovered. cbv zeta.
    unfold glPickColor_.
    pose proof (widget_toInt_range id Hid) as Hrange.
    rewrite IntFacts.pick_round_trip.
    + rewrite decide_True by exact Hrange. apply widget_ofInt_toInt.
    + clear. unfold Int.in_range, Int.min_signed, Int.max_signed.
      destruct id; simpl; lia.
  - intros Hr. unfold setHoveredObject at 1. cbv zeta.
    rewrite setHoveredObject_idOffset. fold widgetId.
    assert (((TransformTool.MIN_WIDGET_ID <=? widgetId)%Z
             && (widgetId <=? TransformTool.MAX_WIDGET_ID)%Z) = false) as ->.
    { destruct (Z.leb_spec TransformTool.MIN_WIDGET_ID widgetId);
        destruct (Z.leb_spec widgetId TransformTool.MAX_WIDGET_ID);
        simpl; try reflexivity. exfalso. apply Hr. split; assumption. }
    unfold setHoveredObject. cbv zeta. fold widgetId.
    assert (((TransformTool.MIN_WIDGET_ID <=? widgetId)%Z
             && (widgetId <=? TransformTool.MAX_WIDGET_ID)%Z) = false) as ->.
    { destruct (Z.leb_spec TransformTool.MIN_WIDGET_ID widgetId);
        destruct (Z.leb_spec widgetId TransformTool.MAX_WIDGET_ID);
        simpl; try reflexivity. exfalso. apply Hr. split; assumption. }
    reflexivity.
Qed.

(** ** The drag protocol, for any arithmetic *)

Section DragFacts.
Context {D : Type} {SD : Scalar D} {BB : Type} {BO : BoundingBoxOps D BB}.
Context {Time : Type}.
Variable keyframe_ : VAC BB Time -> gset Cell -> Time -> VAC BB Time * gset Cell.
Local Open Scope double_scope.

Lemma trivialCase_true (st : ToolState D) (cells : gset Cell) :
  trivialCase st cells = true <-> hovered st = TransformTool.None \/ cells = ∅.
Proof.
  unfold trivialCase. rewrite orb_true_iff, !bool_decide_eq_true. reflexivity.
Qed.

Lemma trivialCase_false (st : ToolState D) (cells : gset Cell) :
  trivialCase st cells = false <-> hovered st <> TransformTool.None /\ cells <> ∅.
Proof.
  unfold trivialCase. rewrite orb_false_iff, !bool_decide_eq_false. reflexivity.
Qed.

Lemma trivialCase_cells (st : ToolState D) (A B : gset Cell) :
  A <> ∅ -> B <> ∅ -> trivialCase st A = trivialCase st B.
Proof.
  intros HA HB. unfold trivialCase.
  rewrite (bool_decide_eq_false_2 _ HA), (bool_decide_eq_false_2 _ HB).
  reflexivity.
Qed.

(** The state, complex and calls of a call that passes the guard. *)
Lemma beginTransform_started (st : ToolState D) (vac : VAC BB Time)
    (cells : gset Cell) (x0 y0 : D) (time : Time) :
  trivialCase st cells = false ->
  let parts := partitionCells vac cells time in
  let kf := keyframe_ vac parts.2 time in
  let toTransform := cellsToTransform kf.1 parts.1 kf.2 in
  let obb := outlineBoundingBoxOf kf.1 cells time in
  beginTransform keyframe_ st vac cells x0 y0 time =
    (mkToolState (cells_ st) (idOffset_ st) (hovered_ st) (manualPivot_ st)
                 (KeyVertexSet toTransform) (KeyEdgeSet toTransform)
                 x0 y0
                 (x0 - vx (widgetPos_ (hovered st) obb))
                 (y0 - vy (widgetPos_ (hovered st) obb))
                 (vx (widgetOppositePos_ (hovered st) obb))
                 (vy (widgetOppositePos_ (hovered st) obb)),
     kf.1,
     (KeyEdge_prepareAffineTransform <$> elements (KeyEdgeSet toTransform))
     ++ (KeyVertex_prepareAffineTransform <$> elements (KeyVertexSet toTransform))).
Proof.
  intros Hguard. cbv zeta. unfold beginTransform.
  change (trivialCase (clearDragged st) cells) with (trivialCase st cells).
  rewrite Hguard.
  destruct (partitionCells vac cells time) as [notK toK]. simpl.
  destruct (keyframe_ vac toK time) as [vac' keyframed]. reflexivity.
Qed.

(** C5. Every call of [beginTransform] starts by clearing the two caches:
    the outcome is the one of the call on the tool with cleared caches, so
    nothing cached earlier survives.  When no widget is hovered or the
    cell set is empty, the call then returns: the caches are empty, no
    call is made on any cell, the complex is untouched, and [x0_], [y0_],
    [dx_], [dy_], [xPivot_], [yPivot_], [hovered_], [cells_] (and the id
    offset and pivot mode) are what they were. *)
Theorem beginTransform_clears_then_guards :
  forall (st : ToolState D) (vac : VAC BB Time) (cells : gset Cell)
         (x0 y0 : D) (time : Time),
    beginTransform keyframe_ st vac cells x0 y0 time
    = beginTransform keyframe_ (clearDragged st) vac cells x0 y0 time
    /\ (hovered st = TransformTool.None \/ cells = ∅ ->
        let st' := (beginTransform keyframe_ st vac cells x0 y0 time).1.1 in
        beginTransform keyframe_ st vac cells x0 y0 time = (clearDragged st, vac, [])
        /\ draggedVertices_ st' = ∅ /\ draggedEdges_ st' = ∅
        /\ x0_ st' = x0_ st /\ y0_ st' = y0_ st
        /\ dx_ st' = dx_ st /\ dy_ st' = dy_ st
        /\ xPivot_ st' = xPivot_ st /\ yPivot_ st' = yPivot_ st
        /\ hovered_ st' = hovered_ st /\ cells_ st' = cells_ st
        /\ idOffset_ st' = idOffset_ st /\ manualPivot_ st' = manualPivot_ st).
Proof.
  intros st vac cells x0 y0 time. split.
  - reflexivity.
  - intros Hguard. apply trivialCase_true in Hguard. cbv zeta.
    assert (beginTransform keyframe_ st vac cells x0 y0 time
            = (clearDragged st, vac, [])) as ->.
    { unfold beginTransform.
      change (trivialCase (clearDragged st) cells) with (trivialCase st cells).
      rewrite Hguard. reflexivity. }
    simpl. repeat split; reflexivity.
Qed.

(** *** The transform selected by [continueTransform] *)

(** The transform is selected by the category of the
    hovered widget: the quotient on both axes for the corner-scale
    widgets, factor 1 on x for top and bottom, factor 1 on y for left and
    right, the difference of the two bearings for the rotate widgets, and
    no transform when nothing is hovered. *)
Lemma determineAffine_by_category (st : ToolState D) (x y : D) :
  determineAffine st x y =
    match hovered st with
    | TransformTool.TopLeftScale | TransformTool.TopRightScale
    | TransformTool.BottomRightScale | TransformTool.BottomLeftScale =>
        Some (Scaling ((x - dx_ st - xPivot_ st) / (x0_ st - dx_ st - xPivot_ st))
                      ((y - dy_ st - yPivot_ st) / (y0_ st - dy_ st - yPivot_ st)))
    | TransformTool.TopScale | TransformTool.BottomScale =>
        Some (Scaling (d_of_Z 1)
                      ((y - dy_ st - yPivot_ st) / (y0_ st - dy_ st - yPivot_ st)))
    | TransformTool.RightScale | TransformTool.LeftScale =>
        Some (Scaling ((x - dx_ st - xPivot_ st) / (x0_ st - dx_ st - xPivot_ st))
                      (d_of_Z 1))
    | TransformTool.TopLeftRotate | TransformTool.TopRightRotate
    | TransformTool.BottomRightRotate | TransformTool.BottomLeftRotate =>
        Some (Rotation2Dd (datan2 (y - yPivot_ st) (x - xPivot_ st)
                           - datan2 (y0_ st - yPivot_ st) (x0_ st - xPivot_ st)))
    | TransformTool.None => None
    end.
Proof.
  unfold determineAffine, hovered. destruct (hovered_ st); reflexivity.
Qed.

Lemma continueTransform_applied (st : ToolState D) (cells : gset Cell)
    (x y : D) (xf : Affine2d D) :
  trivialCase st cells = false ->
  determineAffine st x y = Some xf ->
  continueTransform st cells x y = applyAffine st (makeRelativeToPivot st xf).
Proof.
  intros Hguard Hxf. unfold continueTransform. rewrite Hguard, Hxf. reflexivity.
Qed.

Lemma determineAffine_is_Some (st : ToolState D) (x y : D) :
  hovered st <> TransformTool.None -> is_Some (determineAffine st x y).
Proof.
  intros Hh. rewrite determineAffine_by_category.
  destruct (hovered st); try congruence; eexists; reflexivity.
Qed.

(** The calls of [continueTransform]: none, or the three loops over the
    cached sets with one transform. *)
Lemma continueTransform_calls (st : ToolState D) (cells : gset Cell) (x y : D) :
  continueTransform st cells x y = []
  \/ exists xf, determineAffine st x y = Some xf
                /\ continueTransform st cells x y
                   = applyAffine st (makeRelativeToPivot st xf).
Proof.
  unfold continueTransform.
  destruct (trivialCase st cells); [left; reflexivity |].
  destruct (determineAffine st x y) as [xf |]; [right | left; reflexivity].
  exists xf. split; reflexivity.
Qed.

(** *** The order of the outbound calls *)

Lemma applyAffine_lookup (st : ToolState D) (xf : Affine2d D) (i : nat) (c : Call D) :
  applyAffine st xf !! i = Some c ->
  let ne := length (elements (draggedEdges_ st)) in
  let nv := length (elements (draggedVertices_ st)) in
  ((i < ne /\ exists e, elements (draggedEdges_ st) !! i = Some e
                        /\ c = KeyEdge_performAffineTransform e xf)
   \/ (ne <= i < ne + nv
       /\ exists v, elements (draggedVertices_ st) !! (i - ne) = Some v
                    /\ c = KeyVertex_performAffineTransform v xf)
   \/ (ne + nv <= i < ne + nv + nv
       /\ exists v, elements (draggedVertices_ st) !! (i - ne - nv) = Some v
                    /\ c = KeyVertex_correctEdgesGeometry v))%nat.
Proof.
  unfold applyAffine. cbv zeta. intros Hi.
  apply lookup_app_Some in Hi as [Hi | [Hle Hi]].
  - left. rewrite list_lookup_fmap in Hi.
    destruct (elements (draggedEdges_ st) !! i) as [e |] eqn:He; [| discriminate].
    split; [apply lookup_lt_Some in He; exact He |].
    exists e. split; [reflexivity | injection Hi; auto].
  - rewrite length_fmap in Hle, Hi.
    apply lookup_app_Some in Hi as [Hi | [Hle' Hi]].
    + right; left. rewrite list_lookup_fmap in Hi.
      destruct (elements (draggedVertices_ st) !! _) as [v |] eqn:Hv; [| discriminate].
      apply lookup_lt_Some in Hv as Hlt.
      split; [lia |]. exists v. split; [reflexivity | injection Hi; auto].
    + right; right. rewrite length_fmap in Hle', Hi.
      rewrite list_lookup_fmap in Hi.
      destruct (elements (draggedVertices_ st) !! _) as [v |] eqn:Hv; [| discriminate].
      apply lookup_lt_Some in Hv as Hlt.
      split; [lia |]. exists v. split; [reflexivity | injection Hi; auto].
Qed.

(** C9. Whenever [continueTransform] applies a transform, its calls are
    [performAffineTransform] on every cached edge, then
    [performAffineTransform] on every cached vertex, then
    [correctEdgesGeometry] on every cached vertex, all with the same
    transform.  So in the sequence of calls no [correctEdgesGeometry]
    comes before any vertex's [performAffineTransform], and no vertex is
    transformed before an edge. *)
Theorem continueTransform_call_order :
  forall (st : ToolState D) (cells : gset Cell) (x y : D),
    let calls := continueTransform st cells x y in
    (forall xf, trivialCase st cells = false ->
                determineAffine st x y = Some xf ->
                calls =
                  ((fun e => KeyEdge_performAffineTransform e (makeRelativeToPivot st xf))
                     <$> elements (draggedEdges_ st))
                  ++ ((fun v => KeyVertex_performAffineTransform v (makeRelativeToPivot st xf))
                        <$> elements (draggedVertices_ st))
                  ++ (KeyVertex_correctEdgesGeometry <$> elements (draggedVertices_ st)))
    /\ (forall (i j : nat) (v w : KeyVertex) (xf : Affine2d D),
          calls !! i = Some (KeyVertex_correctEdgesGeometry v) ->
          calls !! j = Some (KeyVertex_performAffineTransform w xf) ->
          j < i)
    /\ (forall (i j : nat) (e : KeyEdge) (v : KeyVertex) (xf xf' : Affine2d D),
          calls !! i = Some (KeyEdge_performAffineTransform e xf) ->
          calls !! j = Some (KeyVertex_performAffineTransform v xf') ->
          i < j).
Proof.
  intros st cells x y calls.
  split; [| split].
  - intros xf Hguard Hxf. unfold calls.
    rewrite (continueTransform_applied _ _ _ _ _ Hguard Hxf). reflexivity.
  - intros i j v w xf Hi Hj. unfold calls in *.
    destruct (continueTransform_calls st cells x y) as [E | [xf0 [_ E]]];
      rewrite E in *; [rewrite lookup_nil in Hi; discriminate |].
    apply applyAffine_lookup in Hi, Hj. cbv zeta in Hi, Hj.
    destruct Hi as [[_ [? [_ ?]]] | [[_ [? [_ ?]]] | [Hi _]]]; try discriminate.
    destruct Hj as [[_ [? [_ ?]]] | [[Hj _] | [_ [? [_ ?]]]]]; try discriminate.
    lia.
  - intros i j e v xf xf' Hi Hj. unfold calls in *.
    destruct (continueTransform_calls st cells x y) as [E | [xf0 [_ E]]];
      rewrite E in *; [rewrite lookup_nil in Hi; discriminate |].
    apply applyAffine_lookup in Hi, Hj. cbv zeta in Hi, Hj.
    destruct Hi as [[Hi _] | [[_ [? [_ ?]]] | [_ [? [_ ?]]]]]; try discriminate.
    destruct Hj as [[_ [? [_ ?]]] | [[Hj _] | [_ [? [_ ?]]]]]; try discriminate.
    lia.
Qed.

(** *** The cells argument *)

Lemma applyAffine_on_cached (st : ToolState D) (xf : Affine2d D) (c : Call D) :
  c ∈ applyAffine st xf -> callOnCached st c.
Proof.
  unfold applyAffine. rewrite !elem_of_app, !list_elem_of_fmap.
  intros [[e [-> He]] | [[v [-> Hv]] | [v [-> Hv]]]]; simpl;
    apply elem_of_elements; assumption.
Qed.

(** C10. [continueTransform] reads its [cells] argument only to test that
    it is not empty: for two non-empty cell sets and the same tool, the
    calls (the cells called and the transform passed) are the same, and
    every call is on a cell cached by [beginTransform]. *)
Theorem continueTransform_ignores_cells :
  forall (st : ToolState D) (A B : gset Cell) (x y : D),
    A <> ∅ -> B <> ∅ ->
    continueTransform st A x y = continueTransform st B x y
    /\ (forall c, c ∈ continueTransform st A x y -> callOnCached st c).
Proof.
  intros st A B x y HA HB. split.
  - unfold continueTransform. rewrite (trivialCase_cells st A B HA HB). reflexivity.
  - intros c Hc.
    destruct (continueTransform_calls st A x y) as [E | [xf [_ E]]];
      rewrite E in Hc.
    + apply elem_of_nil in Hc. contradiction.
    + apply applyAffine_on_cached in Hc. exact Hc.
Qed.

(** C8. For every scale widget the quotient is formed whatever the
    denominator: also when [x0_ - dx_ - xPivot_] (or the y counterpart) is
    zero the factor is the quotient by that zero, the transform is built
    from it and handed to every cached cell.  No branch rejects or clamps
    it. *)
Theorem continueTransform_scale_division_unguarded :
  forall (st : ToolState D) (cells : gset Cell) (x y : D),
    cells <> ∅ ->
    isCornerScale (hovered st) || isVerticalScale (hovered st)
      || isHorizontalScale (hovered st) = true ->
    let sx := if isVerticalScale (hovered st) then d_of_Z 1
              else (x - dx_ st - xPivot_ st) / (x0_ st - dx_ st - xPivot_ st) in
    let sy := if isHorizontalScale (hovered st) then d_of_Z 1
              else (y - dy_ st - yPivot_ st) / (y0_ st - dy_ st - yPivot_ st) in
    determineAffine st x y = Some (Scaling sx sy)
    /\ continueTransform st cells x y
       = applyAffine st (makeRelativeToPivot st (Scaling sx sy))
    /\ (x0_ st - dx_ st - xPivot_ st = d_of_Z 0 ->
        isVerticalScale (hovered st) = false ->
        a00 (makeRelativeToPivot st (Scaling sx sy))
        = (x - dx_ st - xPivot_ st) / d_of_Z 0)
    /\ (y0_ st - dy_ st - yPivot_ st = d_of_Z 0 ->
        isHorizontalScale (hovered st) = false ->
        a11 (makeRelativeToPivot st (Scaling sx sy))
        = (y - dy_ st - yPivot_ st) / d_of_Z 0).
Proof.
  intros st cells x y Hcells Hscale. cbv zeta.
  assert (hovered st <> TransformTool.None) as Hh.
  { intros E. rewrite E in Hscale. discriminate. }
  assert (trivialCase st cells = false) as Hguard
      by (apply trivialCase_false; split; assumption).
  assert (determineAffine st x y =
          Some (Scaling
                  (if isVerticalScale (hovered st) then d_of_Z 1
                   else (x - dx_ st - xPivot_ st) / (x0_ st - dx_ st - xPivot_ st))
                  (if isHorizontalScale (hovered st) then d_of_Z 1
                   else (y - dy_ st - yPivot_ st) / (y0_ st - dy_ st - yPivot_ st))))
    as Hxf.
  { rewrite determineAffine_by_category.
    destruct (hovered st); try discriminate; reflexivity. }
  split; [exact Hxf |].
  split; [apply continueTransform_applied; assumption |].
  split.
  - intros Hzero Hv. rewrite Hv. simpl. rewrite Hzero. reflexivity.
  - intros Hzero Hv. rewrite Hv. simpl. rewrite Hzero. reflexivity.
Qed.
End DragFacts.

(** ** The topological closure *)

Section ClosureFacts.
Context {BB Time : Type}.
Variable vac : VAC BB Time.

Lemma elem_of_closureStep (cells : gset Cell) (c : Cell) :
  c ∈ closureStep vac cells
  <-> c ∈ cells \/ exists c', c' ∈ cells /\ c ∈ cellBoundary vac c'.
Proof.
  unfold closureStep. rewrite elem_of_union, elem_of_set_bind. reflexivity.
Qed.

Lemma closureStep_extensive (cells : gset Cell) : cells ⊆ closureStep vac cells.
Proof. intros c Hc. apply elem_of_closureStep. left. exact Hc. Qed.

Lemma closureStep_fixed_closed (cells : gset Cell) :
  closureStep vac cells ⊆ cells <-> closedUnderBoundary vac cells.
Proof.
  split.
  - intros Hfix c Hc b Hb. apply Hfix, elem_of_closureStep. right.
    exists c. split; assumption.
  - intros Hclosed c Hc. apply elem_of_closureStep in Hc as [Hc | [c' [Hc' Hb]]].
    + exact Hc.
    + exact (Hclosed c' Hc' c Hb).
Qed.

Lemma cellBoundary_boundaryCells (c : Cell) :
  cellBoundary vac c ⊆ boundaryCells vac.
Proof.
  unfold cellBoundary, boundaryCells. intros b Hb.
  destruct (boundary vac !! c) as [bs |] eqn:Hc; simpl in Hb.
  - apply elem_of_union_list. exists bs. split; [| exact Hb].
    apply list_elem_of_fmap. exists (c, bs). split; [reflexivity |].
    apply elem_of_map_to_list. exact Hc.
  - apply elem_of_empty in Hb. contradiction.
Qed.

Lemma closureStep_bounded (cells start : gset Cell) :
  cells ⊆ start ∪ boundaryCells vac ->
  closureStep vac cells ⊆ start ∪ boundaryCells vac.
Proof.
  intros Hsub c Hc. apply elem_of_closureStep in Hc as [Hc | [c' [_ Hb]]].
  - apply Hsub, Hc.
  - apply elem_of_union. right. apply (cellBoundary_boundaryCells c'), Hb.
Qed.

Lemma iter_extensive (k : nat) (cells : gset Cell) :
  cells ⊆ Nat.iter k (closureStep vac) cells.
Proof.
  induction k as [| k IH]; simpl; [reflexivity |].
  etransitivity; [exact IH | apply closureStep_extensive].
Qed.

Lemma iter_bounded (k : nat) (cells : gset Cell) :
  Nat.iter k (closureStep vac) cells ⊆ cells ∪ boundaryCells vac.
Proof.
  induction k as [| k IH]; simpl.
  - apply union_subseteq_l.
  - apply closureStep_bounded, IH.
Qed.

(** After [k] steps the iteration has stopped or has added [k] cells. *)
Lemma iter_progress (k : nat) (cells : gset Cell) :
  closureStep vac (Nat.iter k (closureStep vac) cells)
    ⊆ Nat.iter k (closureStep vac) cells
  \/ k <= size (Nat.iter k (closureStep vac) cells ∖ cells).
Proof.
  induction k as [| k IH]; [right; lia |].
  simpl. set (X := Nat.iter k (closureStep vac) cells) in *.
  destruct IH as [Hfix | Hsize].
  - left. assert (closureStep vac X = X) as E.
    { apply set_eq. intros c. split; [apply Hfix | apply closureStep_extensive]. }
    rewrite E. exact Hfix.
  - destruct (decide (closureStep vac X ⊆ X)) as [Hfix | Hgrow].
    + left. assert (closureStep vac X = X) as E.
      { apply set_eq. intros c. split; [apply Hfix | apply closureStep_extensive]. }
      rewrite E. exact Hfix.
    + right.
      assert (X ∖ cells ⊂ closureStep vac X ∖ cells) as Hstrict.
      { split.
        - intros c Hc. apply elem_of_difference in Hc as [Hc Hout].
          apply elem_of_difference. split; [| exact Hout].
          apply closureStep_extensive, Hc.
        - intros Hback. apply Hgrow. intros c Hc.
          destruct (decide (c ∈ cells)) as [Hin | Hout].
          + apply (iter_extensive k cells), Hin.
          + assert (c ∈ closureStep vac X ∖ cells) as Hd
                by (apply elem_of_difference; split; assumption).
            apply Hback in Hd. apply elem_of_difference in Hd as [Hd _].
            exact Hd. }
      apply subset_size in Hstrict. lia.
Qed.

(** The closure is closed under incidence, ... *)
Lemma closure_closed (cells : gset Cell) : closedUnderBoundary vac (closure vac cells).
Proof.
  apply closureStep_fixed_closed. unfold closure.
  set (n := size (boundaryCells vac)).
  destruct (iter_progress n cells) as [Hfix | Hsize]; [exact Hfix |].
  set (X := Nat.iter n (closureStep vac) cells) in *.
  assert (X ∖ cells ⊆ boundaryCells vac) as Hsub.
  { intros c Hc. apply elem_of_difference in Hc as [Hc Hout].
    apply (iter_bounded n cells) in Hc.
    apply elem_of_union in Hc as [Hc | Hc]; [contradiction | exact Hc]. }
  assert (X ∖ cells ≡ boundaryCells vac) as Heq.
  { apply set_subseteq_size_equiv; [exact Hsub | exact Hsize]. }
  intros c Hc.
  pose proof (closureStep_bounded X cells (iter_bounded n cells) c Hc) as Hb.
  apply elem_of_union in Hb as [Hb | Hb].
  - apply (iter_extensive n cells), Hb.
  - apply Heq in Hb. apply elem_of_difference in Hb as [Hb _]. exact Hb.
Qed.

(** ... contains the cells it is taken of, ... *)
Lemma closure_extensive (cells : gset Cell) : cells ⊆ closure vac cells.
Proof. apply iter_extensive. Qed.

(** ... and is the smallest such set. *)
Lemma closure_least (cells other : gset Cell) :
  cells ⊆ other -> closedUnderBoundary vac other -> closure vac cells ⊆ other.
Proof.
  intros Hsub Hclosed. unfold closure.
  induction (size (boundaryCells vac)) as [| k IH]; simpl; [exact Hsub |].
  intros c Hc. apply elem_of_closureStep in Hc as [Hc | [c' [Hc' Hb]]].
  - apply IH, Hc.
  - exact (Hclosed c' (IH c' Hc') c Hb).
Qed.
End ClosureFacts.

(** ** The cells cached by [beginTransform] *)

Lemma elem_of_KeyVertexSet (cells : gset Cell) (v : KeyVertex) :
  v ∈ KeyVertexSet cells <-> keyVertexCell v ∈ cells.
Proof.
  unfold KeyVertexSet. rewrite elem_of_set_omap. split.
  - intros [[k i] [Hc Hk]]. unfold toKeyVertex in Hk. simpl in Hk.
    destruct k; try discriminate. injection Hk as ->. exact Hc.
  - intros Hc. exists (keyVertexCell v). split; [exact Hc | reflexivity].
Qed.

Lemma elem_of_KeyEdgeSet (cells : gset Cell) (e : KeyEdge) :
  e ∈ KeyEdgeSet cells <-> keyEdgeCell e ∈ cells.
Proof.
  unfold KeyEdgeSet. rewrite elem_of_set_omap. split.
  - intros [[k i] [Hc Hk]]. unfold toKeyEdge in Hk. simpl in Hk.
    destruct k; try discriminate. injection Hk as ->. exact Hc.
  - intros Hc. exists (keyEdgeCell e). split; [exact Hc | reflexivity].
Qed.

Section ClosureOfDrag.
Context {D : Type} {SD : Scalar D} {BB : Type} {BO : BoundingBoxOps D BB}.
Context {Time : Type}.
Variable keyframe_ : VAC BB Time -> gset Cell -> Time -> VAC BB Time * gset Cell.

(** C1. After a [beginTransform] that passes the guard, let [closed] be
    the closure, in the complex as keyframing left it, of the untouched
    cells united with the keyframed cells.  The cached vertices and edges
    are exactly the key vertices and key edges of [closed]; [closed]
    contains the cells it is taken of, is closed under incidence and is
    the smallest such set.  So every key vertex in the boundary of a
    cached edge is cached, and no key vertex or key edge of the closure is
    left out. *)
Theorem beginTransform_caches_closure :
  forall (st : ToolState D) (vac : VAC BB Time) (cells : gset Cell)
         (x0 y0 : D) (time : Time),
    hovered st <> TransformTool.None ->
    cells <> ∅ ->
    let parts := partitionCells vac cells time in
    let kf := keyframe_ vac parts.2 time in
    let result := beginTransform keyframe_ st vac cells x0 y0 time in
    let st' := result.1.1 in
    let vac' := result.1.2 in
    let closed := closure vac' (parts.1 ∪ kf.2) in
    vac' = kf.1
    /\ parts.1 ∪ kf.2 ⊆ closed
    /\ closedUnderBoundary vac' closed
    /\ (forall other, parts.1 ∪ kf.2 ⊆ other ->
                      closedUnderBoundary vac' other -> closed ⊆ other)
    /\ (forall v, v ∈ draggedVertices_ st' <-> keyVertexCell v ∈ closed)
    /\ (forall e, e ∈ draggedEdges_ st' <-> keyEdgeCell e ∈ closed)
    /\ (forall e v, e ∈ draggedEdges_ st' ->
                    keyVertexCell v ∈ cellBoundary vac' (keyEdgeCell e) ->
                    v ∈ draggedVertices_ st').
Proof.
  intros st vac cells x0 y0 time Hh Hcells. cbv zeta.
  assert (trivialCase st cells = false) as Hguard
      by (apply trivialCase_false; split; assumption).
  rewrite (beginTransform_started keyframe_ st vac cells x0 y0 time Hguard).
  simpl. unfold cellsToTransform.
  set (notK := (partitionCells vac cells time).1).
  set (kf := keyframe_ vac (partitionCells vac cells time).2 time).
  set (closed := closure kf.1 (notK ∪ kf.2)).
  split; [reflexivity |].
  split; [apply closure_extensive |].
  split; [apply closure_closed |].
  split; [intros other; apply closure_least |].
  split; [intros v; apply elem_of_KeyVertexSet |].
  split; [intros e; apply elem_of_KeyEdgeSet |].
  intros e v He Hv.
  apply elem_of_KeyVertexSet. apply elem_of_KeyEdgeSet in He.
  exact (closure_closed kf.1 (notK ∪ kf.2) _ He _ Hv).
Qed.
End ClosureOfDrag.


(** ** The rotate arrow contour *)

Section ArrowFacts.
Context {D : Type} {SD : Scalar D} {BB : Type} {BO : BoundingBoxOps D BB}.
Variables (id : TransformTool.WidgetId) (bb : BB) (zoom : D).
Local Open Scope double_scope.

(** The loop writes [k] pairs: the low index goes up from [lo], the high
    index comes down from [hi]; everything else is left as it was. *)
Lemma arrowBody_spec (k : nat) :
  forall (i lo hi : nat) (res : list (Vec2 D)),
    (lo + 2 * k <= hi + 1)%nat ->
    (hi < length res)%nat ->
    let out := arrowBody id bb zoom k i lo hi res in
    length out = length res
    /\ (forall t, (t < k)%nat ->
          out !! (lo + t)%nat = Some (bodyMin id bb zoom (i + t))
          /\ out !! (hi - t)%nat = Some (bodyMax id bb zoom (i + t)))
    /\ (forall j, ~ (lo <= j < lo + k)%nat -> ~ (hi - k < j <= hi)%nat ->
          out !! j = res !! j).
Proof.
  induction k as [| k IH]; intros i lo hi res Hroom Hhi; cbv zeta.
  - simpl. split; [reflexivity |]. split; [intros t Ht; lia | reflexivity].
  - simpl.
    set (res1 := <[lo := bodyMin id bb zoom i]> res).
    set (res2 := <[hi := bodyMax id bb zoom i]> res1).
    assert (length res2 = length res) as Hlen
        by (unfold res2, res1; rewrite !length_insert; reflexivity).
    destruct (IH (S i) (S lo) (Nat.pred hi) res2) as [IHlen [IHpairs IHrest]];
      [lia | lia |].
    split; [rewrite IHlen; exact Hlen |].
    split.
    + intros t Ht. destruct t as [| t].
      * rewrite !Nat.add_0_r, Nat.sub_0_r, !IHrest by lia.
        unfold res2, res1. split.
        -- rewrite list_lookup_insert_ne by lia.
           rewrite list_lookup_insert_eq by lia. reflexivity.
        -- rewrite list_lookup_insert_eq by (rewrite length_insert; lia).
           reflexivity.
      * destruct (IHpairs t) as [Hmin Hmax]; [lia |].
        replace (lo + S t)%nat with (S lo + t)%nat by lia.
        replace (hi - S t)%nat with (Nat.pred hi - t)%nat by lia.
        replace (i + S t)%nat with (S i + t)%nat by lia.
        split; assumption.
    + intros j Hlo Hhi'. rewrite IHrest by lia.
      unfold res2, res1. rewrite !list_lookup_insert_ne by lia. reflexivity.
Qed.

(** The contour, index by index. *)
Lemma computeArrow_points :
  let n := rotateWidgetNumSamples in
  let res := computeArrow_ id bb zoom in
  length res = (2 * n + 6)%nat
  /\ (res !! 0%nat, res !! 1%nat, res !! 2%nat)
     = (Some (firstHead id bb zoom).1.1, Some (firstHead id bb zoom).1.2,
        Some (firstHead id bb zoom).2)
  /\ (res !! (n + 3)%nat, res !! (n + 4)%nat, res !! (n + 5)%nat)
     = (Some (secondHead id bb zoom).1.1, Some (secondHead id bb zoom).1.2,
        Some (secondHead id bb zoom).2)
  /\ (forall i, (i < n)%nat ->
        res !! (3 + i)%nat = Some (bodyMin id bb zoom i)
        /\ res !! (2 * n + 5 - i)%nat = Some (bodyMax id bb zoom i)).
Proof.
  cbv zeta. unfold computeArrow_. cbv zeta.
  destruct (firstHead id bb zoom) as [[h0 h1] h2].
  destruct (secondHead id bb zoom) as [[g0 g1] g2].
  set (n := rotateWidgetNumSamples).
  set (res0 := replicate _ _).
  set (res6 := <[(n + 5)%nat := g2]> _).
  assert (length res6 = 2 * n + 6)%nat as Hlen.
  { unfold res6, res0. rewrite !length_insert, length_replicate. reflexivity. }
  destruct (arrowBody_spec n 0 3 (2 * n + 5)%nat res6) as [Hl [Hpairs Hrest]];
    [lia | lia |].
  split; [rewrite Hl; exact Hlen |].
  split; [| split].
  - rewrite !Hrest by (unfold n, rotateWidgetNumSamples; lia). reflexivity.
  - rewrite !Hrest by (unfold n, rotateWidgetNumSamples; lia). reflexivity.
  - intros i Hi. destruct (Hpairs i Hi) as [Hmin Hmax]. split; assumption.
Qed.

(** C7 (as amended). The contour has exactly [2n+6] points for the sample
    count [n].  Indices 0, 1, 2 are the first arrow head and indices [n+3],
    [n+4], [n+5] the second.  The other [2n] points are the body, as [n]
    pairs: index [3+i] is on the inner radius at angle
    [startAngle + i*deltaAngle], and the mirrored index [2n+5-i] is on the
    outer radius at the same angle.  The last three points of the contour
    are therefore body points (of the samples 2, 1 and 0), not a head. *)
Theorem computeArrow_contour :
  let n := rotateWidgetNumSamples in
  let res := computeArrow_ id bb zoom in
  let center := arrowCenter id bb zoom in
  length res = (2 * n + 6)%nat
  /\ (res !! 0%nat, res !! 1%nat, res !! 2%nat)
     = (Some (firstHead id bb zoom).1.1, Some (firstHead id bb zoom).1.2,
        Some (firstHead id bb zoom).2)
  /\ (res !! (n + 3)%nat, res !! (n + 4)%nat, res !! (n + 5)%nat)
     = (Some (secondHead id bb zoom).1.1, Some (secondHead id bb zoom).1.2,
        Some (secondHead id bb zoom).2)
  /\ (forall i, (i < n)%nat ->
        res !! (3 + i)%nat
        = Some (p_ center (rMinBody zoom)
                   (startAngle id + d_of_Z (Z.of_nat i) * deltaAngle))
        /\ res !! (2 * n + 5 - i)%nat
           = Some (p_ center (rMaxBody zoom)
                      (startAngle id + d_of_Z (Z.of_nat i) * deltaAngle)))
  /\ (res !! (2 * n + 3)%nat, res !! (2 * n + 4)%nat, res !! (2 * n + 5)%nat)
     = (Some (bodyMax id bb zoom 2), Some (bodyMax id bb zoom 1),
        Some (bodyMax id bb zoom 0)).
Proof.
  cbv zeta.
  destruct computeArrow_points as (Hlen & Hfirst & Hsecond & Hbody).
  cbv zeta in Hlen, Hfirst, Hsecond, Hbody.
  split; [exact Hlen |].
  split; [exact Hfirst |].
  split; [exact Hsecond |].
  split.
  - intros i Hi. destruct (Hbody i Hi) as [Hmin Hmax].
    split; [exact Hmin | exact Hmax].
  - destruct (Hbody 2%nat) as [_ H2]; [unfold rotateWidgetNumSamples; lia |].
    destruct (Hbody 1%nat) as [_ H1]; [unfold rotateWidgetNumSamples; lia |].
    destruct (Hbody 0%nat) as [_ H0]; [unfold rotateWidgetNumSamples; lia |].
    replace (2 * rotateWidgetNumSamples + 3)%nat
      with (2 * rotateWidgetNumSamples + 5 - 2)%nat by lia.
    replace (2 * rotateWidgetNumSamples + 4)%nat
      with (2 * rotateWidgetNumSamples + 5 - 1)%nat by lia.
    rewrite H2, H1. rewrite Nat.sub_0_r in H0. rewrite H0.
    reflexivity.
Qed.
End ArrowFacts.

(** ** Widget categories *)

Lemma isRotate_match (h : TransformTool.WidgetId) :
  isRotate h = match h with
               | TransformTool.TopLeftRotate | TransformTool.TopRightRotate
               | TransformTool.BottomRightRotate | TransformTool.BottomLeftRotate => true
               | _ => false
               end.
Proof. destruct h; reflexivity. Qed.

Lemma isVerticalScale_match (h : TransformTool.WidgetId) :
  isVerticalScale h = match h with
                      | TransformTool.TopScale | TransformTool.BottomScale => true
                      | _ => false
                      end.
Proof. destruct h; reflexivity. Qed.

Lemma isHorizontalScale_match (h : TransformTool.WidgetId) :
  isHorizontalScale h = match h with
                        | TransformTool.RightScale | TransformTool.LeftScale => true
                        | _ => false
                        end.
Proof. destruct h; reflexivity. Qed.

Lemma outlineBoundingBoxOf_singleton {D : Type} {SD : Scalar D} {Time : Type}
    (vac : VAC (option (Box D)) Time) (c : Cell) (time : Time) :
  outlineBoundingBoxOf vac {[c]} time = outlineBoundingBox vac c time.
Proof.
  unfold outlineBoundingBoxOf. rewrite elements_singleton. reflexivity.
Qed.

Lemma scenarioTool_started {D : Type} {SD : Scalar D} :
  trivialCase (hoveringTool (D:=D) TransformTool.TopLeftScale (d_of_Z 0))
              {[keyEdgeCell e3]} = false.
Proof.
  apply trivialCase_false. split; [discriminate | apply non_empty_singleton_L].
Qed.

(** The baseline of the scenario over the reals: press position (0,0), no
    drift, pivot (10,10). *)
Lemma scenarioTool_baseline :
  let st := scenarioTool (D:=R) in
  hovered st = TransformTool.TopLeftScale
  /\ x0_ st = 0%R /\ y0_ st = 0%R
  /\ dx_ st = (0 - 0)%R /\ dy_ st = (0 - 0)%R
  /\ xPivot_ st = 10%R /\ yPivot_ st = 10%R.
Proof.
  cbv zeta. unfold scenarioTool.
  rewrite beginTransform_started by apply scenarioTool_started.
  cbn [fst snd hovered hovered_ hoveringTool x0_ y0_ dx_ dy_ xPivot_ yPivot_ noKeyframe].
  rewrite outlineBoundingBoxOf_singleton. repeat split; reflexivity.
Qed.

Lemma scenarioTool_ratio :
  determineAffine (scenarioTool (D:=R)) 5%R 5%R = Some (Scaling (1 / 2)%R (1 / 2)%R).
Proof.
  destruct scenarioTool_baseline as (Eh & Ex & Ey & Edx & Edy & Epx & Epy).
  rewrite determineAffine_by_category, Eh, Ex, Ey, Edx, Edy, Epx, Epy.
  simpl. f_equal. f_equal; lra.
Qed.

(** C3. In [continueTransform] the transform is selected by the category
    of the hovered widget: for the four corner-scale widgets a scale with
    the quotient [(x - dx_ - xPivot_) / (x0_ - dx_ - xPivot_)] on x and its
    counterpart on y; for top and bottom the factor 1 on x and the quotient
    on y; for left and right the quotient on x and the factor 1 on y; for
    the four rotate widgets the rotation of angle
    [atan2(y - yPivot_, x - xPivot_) - atan2(y0_ - yPivot_, x0_ - xPivot_)].
    Called with a non-empty cell set, [continueTransform] hands exactly
    that transform, made relative to the pivot, to the cached cells (the
    three loops of [applyAffine]), and makes no call when nothing is
    hovered.
    For the box [0,0]..[10,10] with [TopLeftScale] hovered, the widget is at
    (0,0), the pivot at (10,10), and pressing at (0,0) then dragging to
    (5,5) gives the ratio 1/2 on both axes, over the reals and in binary64
    alike, and [continueTransform] hands the scale by 1/2 about (10,10) to
    the edge and its two vertices. *)
Theorem continueTransform_selects_transform :
  (forall (D : Type) (SD : Scalar D) (st : ToolState D) (x y : D),
      determineAffine st x y =
        match hovered st with
        | TransformTool.TopLeftScale | TransformTool.TopRightScale
        | TransformTool.BottomRightScale | TransformTool.BottomLeftScale =>
            Some (Scaling ((x - dx_ st - xPivot_ st) / (x0_ st - dx_ st - xPivot_ st))
                          ((y - dy_ st - yPivot_ st) / (y0_ st - dy_ st - yPivot_ st)))
        | TransformTool.TopScale | TransformTool.BottomScale =>
            Some (Scaling (d_of_Z 1)
                          ((y - dy_ st - yPivot_ st) / (y0_ st - dy_ st - yPivot_ st)))
        | TransformTool.RightScale | TransformTool.LeftScale =>
            Some (Scaling ((x - dx_ st - xPivot_ st) / (x0_ st - dx_ st - xPivot_ st))
                          (d_of_Z 1))
        | TransformTool.TopLeftRotate | TransformTool.TopRightRotate
        | TransformTool.BottomRightRotate | TransformTool.BottomLeftRotate =>
            Some (Rotation2Dd (datan2 (y - yPivot_ st) (x - xPivot_ st)
                               - datan2 (y0_ st - yPivot_ st) (x0_ st - xPivot_ st)))
        | TransformTool.None => None
        end)%dbl
  /\ (forall (D : Type) (SD : Scalar D) (st : ToolState D) (cells : gset Cell)
             (x y : D),
        cells <> ∅ ->
        continueTransform st cells x y =
          let relative := fun xf => applyAffine st (makeRelativeToPivot st xf) in
          match hovered st with
          | TransformTool.TopLeftScale | TransformTool.TopRightScale
          | TransformTool.BottomRightScale | TransformTool.BottomLeftScale =>
              relative
                (Scaling ((x - dx_ st - xPivot_ st) / (x0_ st - dx_ st - xPivot_ st))
                         ((y - dy_ st - yPivot_ st) / (y0_ st - dy_ st - yPivot_ st)))
          | TransformTool.TopScale | TransformTool.BottomScale =>
              relative
                (Scaling (d_of_Z 1)
                         ((y - dy_ st - yPivot_ st) / (y0_ st - dy_ st - yPivot_ st)))
          | TransformTool.RightScale | TransformTool.LeftScale =>
              relative
                (Scaling ((x - dx_ st - xPivot_ st) / (x0_ st - dx_ st - xPivot_ st))
                         (d_of_Z 1))
          | TransformTool.TopLeftRotate | TransformTool.TopRightRotate
          | TransformTool.BottomRightRotate | TransformTool.BottomLeftRotate =>
              relative
                (Rotation2Dd (datan2 (y - yPivot_ st) (x - xPivot_ st)
                              - datan2 (y0_ st - yPivot_ st) (x0_ st - xPivot_ st)))
          | TransformTool.None => []
          end)%dbl
  /\ (widgetPos_ TransformTool.TopLeftScale (Some (box10 (D:=R))) = mkVec2 0%R 0%R
      /\ widgetOppositePos_ TransformTool.TopLeftScale (Some (box10 (D:=R)))
         = mkVec2 10%R 10%R
      /\ determineAffine (scenarioTool (D:=R)) 5%R 5%R
         = Some (Scaling (1 / 2)%R (1 / 2)%R)
      /\ continueTransform (scenarioTool (D:=R)) {[keyEdgeCell e3]} 5%R 5%R
         = applyAffine scenarioTool
             (makeRelativeToPivot scenarioTool (Scaling (1 / 2)%R (1 / 2)%R)))
  /\ (forall (fcos fsin : float -> float) (fatan2 : float -> float -> float),
        let FS := float_scalar fcos fsin fatan2 in
        let half := PrimFloat.div (float_of_Z 5) (float_of_Z 10) in
        let xf := makeRelativeToPivot (SD:=FS) (scenarioTool (SD:=FS))
                    (Scaling (SD:=FS) half half) in
        determineAffine (SD:=FS) (scenarioTool (SD:=FS)) (float_of_Z 5) (float_of_Z 5)
        = Some (Scaling (SD:=FS) half half)
        /\ continueTransform (SD:=FS) (scenarioTool (SD:=FS)) {[keyEdgeCell e3]}
             (float_of_Z 5) (float_of_Z 5)
           = [KeyEdge_performAffineTransform e3 xf;
              KeyVertex_performAffineTransform v2 xf;
              KeyVertex_performAffineTransform v1 xf;
              KeyVertex_correctEdgesGeometry v2;
              KeyVertex_correctEdgesGeometry v1]).
Proof.
  split; [| split; [| split]].
  - intros D SD st x y. apply determineAffine_by_category.
  - intros D SD st cells x y Hcells. cbv zeta. unfold continueTransform.
    destruct (decide (hovered st = TransformTool.None)) as [Hh | Hh].
    + assert (trivialCase st cells = true) as ->
          by (apply trivialCase_true; left; exact Hh).
      rewrite Hh. reflexivity.
    + assert (trivialCase st cells = false) as ->
          by (apply trivialCase_false; split; assumption).
      rewrite determineAffine_by_category.
      destruct (hovered st); reflexivity.
  - split; [reflexivity |]. split; [reflexivity |].
    split; [apply scenarioTool_ratio |].
    apply continueTransform_applied; [| apply scenarioTool_ratio].
    apply trivialCase_false. split; [| apply non_empty_singleton_L].
    rewrite (proj1 scenarioTool_baseline). discriminate.
  - intros fcos fsin fatan2. cbv zeta. split; vm_compute; reflexivity.
Qed.

(** ** The drag protocol over the reals *)

Section RealFacts.
Context {BB : Type} {BO : BoundingBoxOps R BB} {Time : Type}.
Variable keyframe_ : VAC BB Time -> gset Cell -> Time -> VAC BB Time * gset Cell.

(** The scale and rotate transforms have no translation part. *)
Lemma determineAffine_linear (st : ToolState R) (x y : R) (xf : Affine2d R) :
  determineAffine st x y = Some xf -> t0 xf = 0%R /\ t1 xf = 0%R.
Proof.
  rewrite determineAffine_by_category.
  destruct (hovered st); intros E; try discriminate;
    injection E as <-; split; reflexivity.
Qed.






End RealFacts.

(** The rotate scenario of the spec: pivot (10,10), button pressed at (0,0)
    (bearing -3pi/4), pointer dragged to (10,0) (bearing -pi/2): the angle
    is pi/4, counter-clockwise positive. *)
Lemma rotate_scenario_angle (st : ToolState R) :
  x0_ st = 0%R -> y0_ st = 0%R -> xPivot_ st = 10%R -> yPivot_ st = 10%R ->
  dTheta st 10%R 0%R = (Rtrigo1.PI / 4)%R.
Proof.
  intros Ex Ey Epx Epy. unfold dTheta. simpl. rewrite Ex, Ey, Epx, Epy.
  replace (0 - 10)%R with (-10)%R by lra.
  replace (10 - 10)%R with 0%R by lra.
  unfold Ratan2.
  destruct (Rlt_dec 0 0) as [H00 | _]; [lra |].
  destruct (Rlt_dec 0 (-10)) as [H1 | _]; [lra |].
  destruct (Rlt_dec (-10) 0) as [_ | H2]; [| lra].
  destruct (Rle_dec 0 (-10)) as [H3 | _]; [lra |].
  replace (-10 / -10)%R with 1%R by lra.
  rewrite atan_1. lra.
Qed.

(** ** The rotate arrow over the reals *)

Lemma sin_cos_square (theta : R) : (cos theta * cos theta + sin theta * sin theta = 1)%R.
Proof. pose proof (sin2_cos2 theta) as E. unfold Rsqr in E. lra. Qed.

(** [p_] indeed yields a point of the circle of centre [c] and radius [r]. *)
Lemma dist2_on_circle (c : Vec2 R) (r theta : R) :
  dist2 c (p_u c r (u_ theta)) = (r * r)%R.
Proof.
  unfold dist2, p_u, u_, vadd, smul. simpl.
  pose proof (sin_cos_square theta) as E.
  replace ((vx c + r * cos theta - vx c) * (vx c + r * cos theta - vx c)
           + (vy c + r * sin theta - vy c) * (vy c + r * sin theta - vy c))%R
    with (r * r * (cos theta * cos theta + sin theta * sin theta))%R by ring.
  rewrite E. ring.
Qed.

(** The tip of an arrow head: [h] along the tangent, from the point of
    radius [r]. *)
Lemma dist2_head_plus (c : Vec2 R) (r h theta : R) :
  dist2 c (vadd (p_u c r (u_ theta))
                (smul h (mkVec2 (dneg (vy (u_ theta))) (vx (u_ theta)))))
  = (r * r + h * h)%R.
Proof.
  unfold dist2, p_u, u_, vadd, smul. cbn.
  pose proof (sin_cos_square theta) as E.
  replace ((vx c + r * cos theta + h * - sin theta - vx c)
           * (vx c + r * cos theta + h * - sin theta - vx c)
           + (vy c + r * sin theta + h * cos theta - vy c)
             * (vy c + r * sin theta + h * cos theta - vy c))%R
    with ((r * r + h * h) * (cos theta * cos theta + sin theta * sin theta))%R by ring.
  rewrite E. ring.
Qed.

Lemma dist2_head_minus (c : Vec2 R) (r h theta : R) :
  dist2 c (vsub (p_u c r (u_ theta))
                (smul h (mkVec2 (dneg (vy (u_ theta))) (vx (u_ theta)))))
  = (r * r + h * h)%R.
Proof.
  unfold dist2, p_u, u_, vadd, vsub, smul. cbn.
  pose proof (sin_cos_square theta) as E.
  replace ((vx c + r * cos theta - h * - sin theta - vx c)
           * (vx c + r * cos theta - h * - sin theta - vx c)
           + (vy c + r * sin theta - h * cos theta - vy c)
             * (vy c + r * sin theta - h * cos theta - vy c))%R
    with ((r * r + h * h) * (cos theta * cos theta + sin theta * sin theta))%R by ring.
  rewrite E. ring.
Qed.

Section RealArrow.
Context {BB : Type} {BO : BoundingBoxOps R BB}.
Variables (id : TransformTool.WidgetId) (bb : BB) (zoom : R).

(** The body points lie on the outer and on the inner radius. *)
Lemma bodyMax_dist2 (i : nat) :
  dist2 (arrowCenter id bb zoom) (bodyMax id bb zoom i)
  = (rMaxBody zoom * rMaxBody zoom)%R.
Proof. apply dist2_on_circle. Qed.

Lemma bodyMin_dist2 (i : nat) :
  dist2 (arrowCenter id bb zoom) (bodyMin id bb zoom i)
  = (rMinBody zoom * rMinBody zoom)%R.
Proof. apply dist2_on_circle. Qed.

(** The head points lie at three other distances of the centre. *)
Lemma headPoint_dist2 (p : Vec2 R) :
  isHeadPoint id bb zoom p ->
  let d := dist2 (arrowCenter id bb zoom) p in
  let hs := (rotateWidgetHeadHalfWidth * arrowSize zoom)%R in
  d = (rMaxHead zoom * rMaxHead zoom)%R
  \/ d = (rMinHead zoom * rMinHead zoom)%R
  \/ d = (rCenterline zoom * rCenterline zoom + hs * hs)%R.
Proof.
  cbv zeta. unfold isHeadPoint, firstHead, secondHead. cbv zeta. cbn [fst snd].
  intros [-> | [-> | [-> | [-> | [-> | ->]]]]].
  - left. apply dist2_on_circle.
  - right; right. apply dist2_head_minus.
  - right; left. apply dist2_on_circle.
  - right; left. apply dist2_on_circle.
  - right; right. apply dist2_head_plus.
  - left. apply dist2_on_circle.
Qed.
End RealArrow.

Lemma arrow_radii_at_zoom_1 :
  rMaxBody (1%R : R) = (776 / 10)%R
  /\ rMaxHead (1%R : R) = (72 + 14142 / 10000 * 8)%R
  /\ rMinHead (1%R : R) = (72 - 14142 / 10000 * 8)%R
  /\ rCenterline (1%R : R) = 72%R
  /\ (rotateWidgetHeadHalfWidth * arrowSize 1 = 14142 / 10000 * 8)%R.
Proof.
  unfold rMaxBody, rMaxHead, rMinHead, rCenterline, arrowSize, rotateWidgetSize,
    scaleWidgetCornerSize, rotateWidgetCircleRadius, rotateWidgetBodyHalfWidth,
    rotateWidgetHeadHalfWidth, SQRT2, decimal.
  cbn. change (10 ^ Z.of_nat 4)%Z with 10000%Z. change (10 ^ Z.of_nat 1)%Z with 10%Z.
  repeat split; lra.
Qed.

(** C7 (counterexample to the clause "the last 3 points form a head
    triangle"). For the widget [TopLeftRotate] on the box [0,0]..[10,10] at
    zoom 1, the last point of the contour (index [2n+5]) is the outer body
    point of sample 0, at distance 77.6 of the centre of the circle, while
    the six head points are at distances 83.3136, 60.6864 and
    sqrt(72^2 + 11.3136^2): it is none of them. *)
Lemma computeArrow_last_points_not_head :
  ~ lastThreeAreHeadPoints TransformTool.TopLeftRotate (Some (box10 (D:=R))) 1%R.
Proof.
  intros Hclaim.
  destruct (Hclaim (2 * rotateWidgetNumSamples + 5)%nat) as [p [Hp Hhead]];
    [unfold rotateWidgetNumSamples; lia |].
  destruct (computeArrow_points TransformTool.TopLeftRotate (Some (box10 (D:=R))) 1%R)
    as (_ & _ & _ & Hbody).
  destruct (Hbody 0%nat) as [_ Hmax]; [unfold rotateWidgetNumSamples; lia |].
  rewrite Nat.sub_0_r in Hmax. rewrite Hmax in Hp. injection Hp as <-.
  apply headPoint_dist2 in Hhead. cbv zeta in Hhead.
  rewrite bodyMax_dist2 in Hhead.
  destruct arrow_radii_at_zoom_1 as (E1 & E2 & E3 & E4 & E5).
  rewrite E1, E2, E3, E4, E5 in Hhead.
  destruct Hhead as [Hd | [Hd | Hd]]; lra.
Qed.

(** ** More on the drag protocol *)

Section PartitionFacts.
Context {D : Type} {SD : Scalar D} {BB : Type} {BO : BoundingBoxOps D BB}.
Context {Time : Type}.
Variable keyframe_ : VAC BB Time -> gset Cell -> Time -> VAC BB Time * gset Cell.

Lemma toInbetweenCell_Some (c sc : Cell) : toInbetweenCell c = Some sc -> sc = c.
Proof. unfold toInbetweenCell. destruct (cellKind c); congruence. Qed.

(** The loop of [partitionCells] from any pair of accumulators. *)
Lemma partitionCells_fold (vac : VAC BB Time) (time : Time) (l : list Cell) :
  forall (accN accK : gset Cell) (c : Cell),
    let keyframed c := is_Some (toInbetweenCell c) /\ exists_ vac c time = true in
    let r := foldl (fun '(cellsNotToKeyframe, cellsToKeyframe) c =>
                      match toInbetweenCell c with
                      | Some sc =>
                          if exists_ vac sc time
                          then (cellsNotToKeyframe, cellsToKeyframe ∪ {[sc]})
                          else (cellsNotToKeyframe ∪ {[sc]}, cellsToKeyframe)
                      | None => (cellsNotToKeyframe ∪ {[c]}, cellsToKeyframe)
                      end) (accN, accK) l in
    (c ∈ r.1 <-> c ∈ accN \/ (c ∈ l /\ ~ keyframed c))
    /\ (c ∈ r.2 <-> c ∈ accK \/ (c ∈ l /\ keyframed c)).
Proof.
  induction l as [| a l IH]; intros accN accK c; cbv zeta.
  - simpl. split; (split; [auto | intros [Hin | [Hin _]]; [exact Hin |]]);
      apply elem_of_nil in Hin; contradiction.
  - simpl. destruct (toInbetweenCell a) as [sc |] eqn:Ha.
    + apply toInbetweenCell_Some in Ha as Hsc. subst sc.
      destruct (exists_ vac a time) eqn:He.
      * destruct (IH accN (accK ∪ {[a]}) c) as [IH1 IH2]. cbv zeta in IH1, IH2.
        rewrite IH1, IH2. rewrite elem_of_union, elem_of_singleton, !elem_of_cons.
        split; split.
        -- intros [Hn | [Hl Hk]]; [left; exact Hn | right; split; [right; exact Hl | exact Hk]].
        -- intros [Hn | [[-> | Hl] Hk]]; [left; exact Hn | | right; split; assumption].
           exfalso. apply Hk. split; [rewrite Ha; eexists; reflexivity | exact He].
        -- intros [[Hk | ->] | [Hl Hk]].
           ++ left; exact Hk.
           ++ right. split; [left; reflexivity |].
              split; [rewrite Ha; eexists; reflexivity | exact He].
           ++ right. split; [right; exact Hl | exact Hk].
        -- intros [Hk | [[-> | Hl] Hk]].
           ++ left; left; exact Hk.
           ++ left; right; reflexivity.
           ++ right; split; assumption.
      * destruct (IH (accN ∪ {[a]}) accK c) as [IH1 IH2]. cbv zeta in IH1, IH2.
        rewrite IH1, IH2. rewrite elem_of_union, elem_of_singleton, !elem_of_cons.
        split; split.
        -- intros [[Hn | ->] | [Hl Hk]].
           ++ left; exact Hn.
           ++ right. split; [left; reflexivity |]. intros [_ Hex]. congruence.
           ++ right. split; [right; exact Hl | exact Hk].
        -- intros [Hn | [[-> | Hl] Hk]].
           ++ left; left; exact Hn.
           ++ left; right; reflexivity.
           ++ right; split; assumption.
        -- intros [Hk | [Hl Hk]]; [left; exact Hk | right; split; [right; exact Hl | exact Hk]].
        -- intros [Hk | [[-> | Hl] Hk]]; [left; exact Hk | | right; split; assumption].
           destruct Hk as [_ Hex]. congruence.
    + destruct (IH (accN ∪ {[a]}) accK c) as [IH1 IH2]. cbv zeta in IH1, IH2.
      rewrite IH1, IH2. rewrite elem_of_union, elem_of_singleton, !elem_of_cons.
      split; split.
      * intros [[Hn | ->] | [Hl Hk]].
        -- left; exact Hn.
        -- right. split; [left; reflexivity |]. intros [[x Hx] _]. congruence.
        -- right. split; [right; exact Hl | exact Hk].
      * intros [Hn | [[-> | Hl] Hk]].
        -- left; left; exact Hn.
        -- left; right; reflexivity.
        -- right; split; assumption.
      * intros [Hk | [Hl Hk]]; [left; exact Hk | right; split; [right; exact Hl | exact Hk]].
      * intros [Hk | [[-> | Hl] Hk]]; [left; exact Hk | | right; split; assumption].
        destruct Hk as [[x Hx] _]. congruence.
Qed.

(** Where a selected cell goes. *)
Lemma partitionCells_member (vac : VAC BB Time) (cells : gset Cell) (time : Time)
    (c : Cell) :
  (c ∈ (partitionCells vac cells time).1 <->
   c ∈ cells /\ ~ (is_Some (toInbetweenCell c) /\ exists_ vac c time = true))
  /\ (c ∈ (partitionCells vac cells time).2 <->
      c ∈ cells /\ is_Some (toInbetweenCell c) /\ exists_ vac c time = true).
Proof.
  unfold partitionCells.
  destruct (partitionCells_fold vac time (elements cells) ∅ ∅ c) as [H1 H2].
  cbv zeta in H1, H2. rewrite H1, H2, elem_of_elements.
  split; split.
  - intros [Hn | Hc]; [apply elem_of_empty in Hn; contradiction | exact Hc].
  - intros Hc. right. exact Hc.
  - intros [Hn | Hc]; [apply elem_of_empty in Hn; contradiction | exact Hc].
  - intros Hc. right. exact Hc.
Qed.

(** X1. The loop at the head of [beginTransform] splits the selection in
    two: the cells to keyframe are exactly the selected inbetween cells that
    exist at [time], the cells not to keyframe are all the other selected
    cells; together they are the selection, and they do not overlap. *)
Theorem partitionCells_splits_selection :
  forall (vac : VAC BB Time) (cells : gset Cell) (time : Time),
    let parts := partitionCells vac cells time in
    (forall c, c ∈ parts.2 <->
               c ∈ cells /\ is_Some (toInbetweenCell c) /\ exists_ vac c time = true)
    /\ (forall c, c ∈ parts.1 <->
                  c ∈ cells /\ ~ (is_Some (toInbetweenCell c) /\ exists_ vac c time = true))
    /\ parts.1 ∪ parts.2 = cells
    /\ parts.1 ∩ parts.2 = ∅.
Proof.
  intros vac cells time parts. unfold parts.
  split; [intros c; apply partitionCells_member |].
  split; [intros c; apply partitionCells_member |].
  split.
  - apply set_eq. intros c. rewrite elem_of_union.
    destruct (partitionCells_member vac cells time c) as [H1 H2]. rewrite H1, H2.
    split.
    + intros [[Hc _] | [Hc _]]; exact Hc.
    + intros Hc.
      destruct (decide (is_Some (toInbetweenCell c) /\ exists_ vac c time = true))
        as [Hk | Hk]; [right | left]; split; assumption.
  - apply set_eq. intros c. rewrite elem_of_intersection.
    destruct (partitionCells_member vac cells time c) as [H1 H2]. rewrite H1, H2.
    split.
    + intros [[_ Hn] [_ Hk]]. contradiction.
    + intros Hn. apply elem_of_empty in Hn. contradiction.
Qed.

Lemma toKeyVertex_Some (c : Cell) (v : KeyVertex) :
  toKeyVertex c = Some v -> c = keyVertexCell v /\ toInbetweenCell c = None.
Proof.
  destruct c as [k i]. unfold toKeyVertex, toInbetweenCell, keyVertexCell. simpl.
  destruct k; intros E; try discriminate. injection E as ->. split; reflexivity.
Qed.

Lemma toKeyEdge_Some (c : Cell) (e : KeyEdge) :
  toKeyEdge c = Some e -> c = keyEdgeCell e /\ toInbetweenCell c = None.
Proof.
  destruct c as [k i]. unfold toKeyEdge, toInbetweenCell, keyEdgeCell. simpl.
  destruct k; intros E; try discriminate. injection E as ->. split; reflexivity.
Qed.

(** X2. After a [beginTransform] that passes the guard, every selected key
    vertex and key edge is cached for the drag, and so is every key vertex
    and key edge that keyframing returned; with a cached edge come the key
    vertices of its boundary. *)
Theorem beginTransform_caches_selected_keys :
  forall (st : ToolState D) (vac : VAC BB Time) (cells : gset Cell)
         (x0 y0 : D) (time : Time),
    hovered st <> TransformTool.None ->
    cells <> ∅ ->
    let kf := keyframe_ vac (partitionCells vac cells time).2 time in
    let st' := (beginTransform keyframe_ st vac cells x0 y0 time).1.1 in
    (forall c v, c ∈ cells ∪ kf.2 -> toKeyVertex c = Some v -> v ∈ draggedVertices_ st')
    /\ (forall c e, c ∈ cells ∪ kf.2 -> toKeyEdge c = Some e -> e ∈ draggedEdges_ st')
    /\ (forall c e v, c ∈ cells ∪ kf.2 -> toKeyEdge c = Some e ->
                      keyVertexCell v ∈ cellBoundary kf.1 c ->
                      v ∈ draggedVertices_ st').
Proof.
  intros st vac cells x0 y0 time Hh Hcells kf st'.
  assert (trivialCase st cells = false) as Hguard
      by (apply trivialCase_false; split; assumption).
  unfold st'.
  rewrite (beginTransform_started keyframe_ st vac cells x0 y0 time Hguard).
  cbn [fst snd draggedVertices_ draggedEdges_]. fold kf. unfold cellsToTransform.
  set (notK := (partitionCells vac cells time).1).
  assert (forall c, c ∈ cells ∪ kf.2 -> toInbetweenCell c = None ->
                    c ∈ closure kf.1 (notK ∪ kf.2)) as Hin.
  { intros c Hc Hkey. apply closure_extensive.
    apply elem_of_union in Hc as [Hc | Hc].
    - apply elem_of_union. left. apply partitionCells_member.
      split; [exact Hc |]. intros [[x Hx] _]. congruence.
    - apply elem_of_union. right. exact Hc. }
  split; [| split].
  - intros c v Hc Hv. apply toKeyVertex_Some in Hv as [-> Hkey].
    apply elem_of_KeyVertexSet, Hin; assumption.
  - intros c e Hc He. apply toKeyEdge_Some in He as [-> Hkey].
    apply elem_of_KeyEdgeSet, Hin; assumption.
  - intros c e v Hc He Hv. apply toKeyEdge_Some in He as [-> Hkey].
    apply elem_of_KeyVertexSet.
    exact (closure_closed kf.1 (notK ∪ kf.2) _ (Hin _ Hc Hkey) _ Hv).
Qed.

(** *** The calls of one drag *)

Lemma omap_fmap_Some {A B C : Type} (f : B -> option C) (g : A -> B) (h : A -> C)
    (l : list A) :
  (forall a, f (g a) = Some (h a)) -> omap f (g <$> l) = h <$> l.
Proof.
  intros Hfg. induction l as [| a l IH]; [reflexivity |].
  rewrite !fmap_cons. cbn [omap list_omap]. rewrite Hfg, IH. reflexivity.
Qed.

Lemma omap_fmap_None {A B C : Type} (f : B -> option C) (g : A -> B) (l : list A) :
  (forall a, f (g a) = None) -> omap f (g <$> l) = [].
Proof.
  intros Hfg. induction l as [| a l IH]; [reflexivity |].
  rewrite fmap_cons. cbn [omap list_omap]. rewrite Hfg, IH. reflexivity.
Qed.

Lemma applyAffine_cells (st : ToolState D) (xf : Affine2d D) :
  transformedCells (applyAffine st xf)
  = (keyEdgeCell <$> elements (draggedEdges_ st))
    ++ (keyVertexCell <$> elements (draggedVertices_ st))
  /\ correctedVertices (applyAffine st xf) = elements (draggedVertices_ st)
  /\ preparedCells (applyAffine st xf) = [].
Proof.
  unfold applyAffine. split; [| split].
  - unfold transformedCells. rewrite !omap_app.
    rewrite (omap_fmap_Some _ (fun e => KeyEdge_performAffineTransform e xf) keyEdgeCell)
      by reflexivity.
    rewrite (omap_fmap_Some _ (fun v => KeyVertex_performAffineTransform v xf)
               keyVertexCell) by reflexivity.
    rewrite (omap_fmap_None _ KeyVertex_correctEdgesGeometry) by reflexivity.
    rewrite app_nil_r. reflexivity.
  - unfold correctedVertices. rewrite !omap_app.
    rewrite (omap_fmap_None _ (fun e => KeyEdge_performAffineTransform e xf))
      by reflexivity.
    rewrite (omap_fmap_None _ (fun v => KeyVertex_performAffineTransform v xf))
      by reflexivity.
    rewrite (omap_fmap_Some _ KeyVertex_correctEdgesGeometry (fun v => v)) by reflexivity.
    rewrite list_fmap_id. reflexivity.
  - unfold preparedCells. rewrite !omap_app.
    rewrite (omap_fmap_None _ (fun e => KeyEdge_performAffineTransform e xf))
      by reflexivity.
    rewrite (omap_fmap_None _ (fun v => KeyVertex_performAffineTransform v xf))
      by reflexivity.
    rewrite (omap_fmap_None _ KeyVertex_correctEdgesGeometry) by reflexivity.
    reflexivity.
Qed.

Lemma prepare_cells (le : list KeyEdge) (lv : list KeyVertex) :
  let calls : list (Call D) :=
    (KeyEdge_prepareAffineTransform <$> le) ++ (KeyVertex_prepareAffineTransform <$> lv) in
  preparedCells calls = (keyEdgeCell <$> le) ++ (keyVertexCell <$> lv)
  /\ transformedCells calls = [] /\ correctedVertices calls = [].
Proof.
  cbv zeta. split; [| split].
  - unfold preparedCells. rewrite !omap_app.
    rewrite (omap_fmap_Some _ KeyEdge_prepareAffineTransform keyEdgeCell) by reflexivity.
    rewrite (omap_fmap_Some _ KeyVertex_prepareAffineTransform keyVertexCell)
      by reflexivity.
    reflexivity.
  - unfold transformedCells. rewrite !omap_app.
    rewrite (omap_fmap_None _ KeyEdge_prepareAffineTransform) by reflexivity.
    rewrite (omap_fmap_None _ KeyVertex_prepareAffineTransform) by reflexivity.
    reflexivity.
  - unfold correctedVertices. rewrite !omap_app.
    rewrite (omap_fmap_None _ KeyEdge_prepareAffineTransform) by reflexivity.
    rewrite (omap_fmap_None _ KeyVertex_prepareAffineTransform) by reflexivity.
    reflexivity.
Qed.

(** X3. Between [beginTransform] and the following [continueTransform]
    the cells match: whenever the latter applies a transform, the cells it
    transforms are the cells the former prepared, in the same order (edges
    first), and the vertices it corrects are the cached vertices.  No cell
    is transformed without having been prepared. *)
Theorem continueTransform_transforms_prepared :
  forall (st : ToolState D) (vac : VAC BB Time) (cells cells' : gset Cell)
         (x0 y0 x y : D) (time : Time),
    hovered st <> TransformTool.None ->
    cells <> ∅ -> cells' <> ∅ ->
    let result := beginTransform keyframe_ st vac cells x0 y0 time in
    let st' := result.1.1 in
    transformedCells (continueTransform st' cells' x y) = preparedCells result.2
    /\ correctedVertices (continueTransform st' cells' x y)
       = elements (draggedVertices_ st')
    /\ transformedCells result.2 = [] /\ correctedVertices result.2 = [].
Proof.
  intros st vac cells cells' x0 y0 x y time Hh Hcells Hcells' result st'.
  assert (trivialCase st cells = false) as Hguard
      by (apply trivialCase_false; split; assumption).
  assert (hovered st' = hovered st) as Eh.
  { unfold st', result.
    rewrite (beginTransform_started keyframe_ st vac cells x0 y0 time Hguard).
    reflexivity. }
  assert (result.2 =
          (KeyEdge_prepareAffineTransform <$> elements (draggedEdges_ st'))
          ++ (KeyVertex_prepareAffineTransform <$> elements (draggedVertices_ st')))
    as Ecalls.
  { unfold st', result.
    rewrite (beginTransform_started keyframe_ st vac cells x0 y0 time Hguard).
    reflexivity. }
  assert (trivialCase st' cells' = false) as Hguard'.
  { apply trivialCase_false. rewrite Eh. split; assumption. }
  destruct (determineAffine_is_Some st' x y) as [xf Hxf]; [rewrite Eh; exact Hh |].
  rewrite (continueTransform_applied st' cells' x y xf Hguard' Hxf).
  destruct (applyAffine_cells st' (makeRelativeToPivot st' xf)) as (Et & Ec & _).
  rewrite Et, Ec, Ecalls.
  destruct (prepare_cells (elements (draggedEdges_ st'))
              (elements (draggedVertices_ st'))) as (Ep & Ept & Epc).
  cbv zeta in Ep, Ept, Epc. rewrite Ep, Ept, Epc.
  repeat split; reflexivity.
Qed.

(** X4. One call of [continueTransform] never addresses a cell twice in the
    same role: the cells it transforms are pairwise distinct and so are the
    vertices it corrects.  When it applies a transform there is one
    [performAffineTransform] per cached edge, one per cached vertex, and one
    [correctEdgesGeometry] per cached vertex, and nothing else. *)
Theorem continueTransform_once_per_cell :
  forall (st : ToolState D) (cells : gset Cell) (x y : D),
    let calls := continueTransform st cells x y in
    NoDup (transformedCells calls)
    /\ NoDup (correctedVertices calls)
    /\ preparedCells calls = []
    /\ (hovered st <> TransformTool.None -> cells <> ∅ ->
        length calls
        = (size (draggedEdges_ st) + 2 * size (draggedVertices_ st))%nat
        /\ (forall e, e ∈ draggedEdges_ st <-> keyEdgeCell e ∈ transformedCells calls)
        /\ (forall v, v ∈ draggedVertices_ st <-> keyVertexCell v ∈ transformedCells calls)
        /\ (forall v, v ∈ draggedVertices_ st <-> v ∈ correctedVertices calls)).
Proof.
  intros st cells x y calls.
  assert (forall xf,
             NoDup (transformedCells (applyAffine st xf))
             /\ NoDup (correctedVertices (applyAffine st xf))) as Hnodup.
  { intros xf. destruct (applyAffine_cells st xf) as (Et & Ec & _).
    rewrite Et, Ec. split; [| apply NoDup_elements].
    apply NoDup_app. split; [| split].
    - apply NoDup_fmap_2; [| apply NoDup_elements].
      intros a b E. injection E. auto.
    - intros c Hc Hc'. apply list_elem_of_fmap in Hc as [e [-> _]].
      apply list_elem_of_fmap in Hc' as [v [E _]]. discriminate.
    - apply NoDup_fmap_2; [| apply NoDup_elements].
      intros a b E. injection E. auto. }
  assert (NoDup (transformedCells calls) /\ NoDup (correctedVertices calls)
          /\ preparedCells calls = []) as (H1 & H2 & H3).
  { unfold calls.
    destruct (continueTransform_calls st cells x y) as [E | [xf [Hxf E]]]; rewrite E.
    - split; [constructor |]. split; [constructor | reflexivity].
    - destruct (Hnodup (makeRelativeToPivot st xf)) as [Ha Hb].
      destruct (applyAffine_cells st (makeRelativeToPivot st xf)) as (_ & _ & Hc).
      split; [exact Ha |]. split; [exact Hb | exact Hc]. }
  split; [exact H1 |]. split; [exact H2 |]. split; [exact H3 |].
  intros Hh Hcells.
  assert (trivialCase st cells = false) as Hguard
      by (apply trivialCase_false; split; assumption).
  destruct (determineAffine_is_Some st x y Hh) as [xf Hxf].
  unfold calls. rewrite (continueTransform_applied st cells x y xf Hguard Hxf).
  destruct (applyAffine_cells st (makeRelativeToPivot st xf)) as (Et & Ec & _).
  rewrite Et, Ec.
  split; [| split; [| split]].
  - unfold applyAffine. rewrite !length_app, !length_fmap.
    unfold size, set_size. simpl. lia.
  - intros e. rewrite elem_of_app, !list_elem_of_fmap. split.
    + intros He. left. exists e. split; [reflexivity | apply elem_of_elements, He].
    + intros [[e' [E He]] | [v [E _]]]; [| discriminate].
      injection E as ->. apply elem_of_elements, He.
  - intros v. rewrite elem_of_app, !list_elem_of_fmap. split.
    + intros Hv. right. exists v. split; [reflexivity | apply elem_of_elements, Hv].
    + intros [[e [E _]] | [v' [E Hv]]]; [discriminate |].
      injection E as ->. apply elem_of_elements, Hv.
  - intros v. rewrite elem_of_elements. reflexivity.
Qed.

(** X10. [continueTransform] makes no call at all exactly when no widget is
    hovered, or its cell set is empty, or nothing is cached; in every other
    case each cached cell is called. *)
Theorem continueTransform_silent_iff :
  forall (st : ToolState D) (cells : gset Cell) (x y : D),
    continueTransform st cells x y = []
    <-> hovered st = TransformTool.None \/ cells = ∅
        \/ (draggedEdges_ st = ∅ /\ draggedVertices_ st = ∅).
Proof.
  intros st cells x y. split.
  - intros E.
    destruct (decide (hovered st = TransformTool.None)) as [Hh | Hh]; [left; exact Hh |].
    destruct (decide (cells = ∅)) as [Hc | Hc]; [right; left; exact Hc |].
    right; right.
    assert (trivialCase st cells = false) as Hguard
        by (apply trivialCase_false; split; assumption).
    destruct (determineAffine_is_Some st x y Hh) as [xf Hxf].
    rewrite (continueTransform_applied st cells x y xf Hguard Hxf) in E.
    unfold applyAffine in E.
    apply app_eq_nil in E as [E1 E2]. apply app_eq_nil in E2 as [E2 _].
    apply fmap_nil_inv in E1, E2.
    split; apply elements_empty_inv in E1, E2; apply leibniz_equiv; assumption.
  - intros [Hh | [Hc | [He Hv]]].
    + unfold continueTransform.
      assert (trivialCase st cells = true) as -> by (apply trivialCase_true; left; exact Hh).
      reflexivity.
    + unfold continueTransform.
      assert (trivialCase st cells = true) as -> by (apply trivialCase_true; right; exact Hc).
      reflexivity.
    + destruct (continueTransform_calls st cells x y) as [E | [xf [_ E]]]; [exact E |].
      rewrite E. unfold applyAffine. rewrite He, Hv, elements_empty. reflexivity.
Qed.
End PartitionFacts.

(** ** Pick ids *)

Section PickIds.
Context {D : Type}.
Local Open Scope Z_scope.

Lemma glPickColor_value (st : ToolState D) (w : TransformTool.WidgetId) :
  Int.in_range (idOffset_ st + TransformTool.toInt w - TransformTool.MIN_WIDGET_ID) ->
  glPickColor_ st w = idOffset_ st + TransformTool.toInt w - TransformTool.MIN_WIDGET_ID.
Proof.
  intros Hr. unfold glPickColor_, Int.sub, Int.add.
  destruct (IntFacts.wrap_congruent (idOffset_ st + TransformTool.toInt w)) as [q ->].
  apply (IntFacts.wrap_unique _ _ (- q)); [exact Hr | lia].
Qed.

Lemma setHoveredObject_hit (st : ToolState D) (id : Z) :
  hovered (setHoveredObject st id) <> TransformTool.None
  <-> TransformTool.MIN_WIDGET_ID
      <= Int.add (Int.sub id (idOffset_ st)) TransformTool.MIN_WIDGET_ID
      <= TransformTool.MAX_WIDGET_ID.
Proof.
  rewrite setHoveredObject_hovered. cbv zeta.
  destruct (decide _) as [Hr | Hr].
  - split; [intros _; exact Hr | intros _; apply widget_toInt_ofInt, Hr].
  - split; [congruence | contradiction].
Qed.

(** X11. When [idOffset_ + 11] does not overflow [int], the pick ids of the
    twelve widgets are the consecutive integers [idOffset_] ..
    [idOffset_ + 11] (the id of a widget is [idOffset_] plus its numeric
    value minus [MIN_WIDGET_ID]), two different widgets have different
    pick ids, and [setHoveredObject] sets a hovered widget for exactly the
    ids of that block and for no other [int]. *)
Theorem pick_ids_form_a_block :
  forall (st : ToolState D),
    Int.min_signed <= idOffset_ st <= Int.max_signed - 11 ->
    (forall w, w <> TransformTool.None ->
               glPickColor_ st w
               = idOffset_ st + TransformTool.toInt w - TransformTool.MIN_WIDGET_ID
               /\ idOffset_ st <= glPickColor_ st w <= idOffset_ st + 11)
    /\ (forall w w', w <> TransformTool.None -> w' <> TransformTool.None ->
                     glPickColor_ st w = glPickColor_ st w' -> w = w')
    /\ (forall id, Int.in_range id ->
                   (hovered (setHoveredObject st id) <> TransformTool.None
                    <-> idOffset_ st <= id <= idOffset_ st + 11)).
Proof.
  intros st Hoff.
  assert (forall w, w <> TransformTool.None ->
                    glPickColor_ st w
                    = idOffset_ st + TransformTool.toInt w - TransformTool.MIN_WIDGET_ID
                    /\ idOffset_ st <= glPickColor_ st w <= idOffset_ st + 11) as Hpick.
  { intros w Hw. pose proof (widget_toInt_range w Hw) as Hr.
    unfold TransformTool.MIN_WIDGET_ID, TransformTool.MAX_WIDGET_ID in *. simpl in Hr.
    rewrite glPickColor_value.
    - unfold TransformTool.MIN_WIDGET_ID. simpl. lia.
    - unfold Int.in_range, Int.min_signed, Int.max_signed, TransformTool.MIN_WIDGET_ID in *.
      simpl. lia. }
  split; [exact Hpick |]. split.
  - intros w w' Hw Hw' E.
    destruct (Hpick w Hw) as [E1 _]. destruct (Hpick w' Hw') as [E2 _].
    rewrite E1, E2 in E.
    assert (TransformTool.toInt w = TransformTool.toInt w') as Et by lia.
    rewrite <- (widget_ofInt_toInt w), <- (widget_ofInt_toInt w'), Et. reflexivity.
  - intros id Hid. rewrite setHoveredObject_hit.
    unfold Int.add, Int.sub.
    destruct (IntFacts.wrap_congruent (id - idOffset_ st)) as [q1 E1].
    destruct (IntFacts.wrap_congruent
                (Int.wrap (id - idOffset_ st) + TransformTool.MIN_WIDGET_ID)) as [q2 E2].
    rewrite E2, E1.
    pose proof (IntFacts.wrap_range (id - idOffset_ st)) as R1.
    pose proof (IntFacts.wrap_range
                  (Int.wrap (id - idOffset_ st) + TransformTool.MIN_WIDGET_ID)) as R2.
    rewrite E2, E1 in R2. rewrite E1 in R1.
    unfold Int.in_range, Int.min_signed, Int.max_signed, Int.modulus,
      TransformTool.MIN_WIDGET_ID, TransformTool.MAX_WIDGET_ID in *.
    simpl TransformTool.toInt in *.
    split; intros Hr; nia.
Qed.
End PickIds.

(** ** Widget positions *)

(** X12. [widgetOppositePos_] of a widget is [widgetPos_] of the widget
    across the box and conversely, and taking the widget across the box
    twice gives the widget back; a rotate widget sits at, and pivots
    about, the same points as the scale widget of its corner; the widget
    across the box is of the same category. *)
Theorem widget_opposite_duality :
  forall (D : Type) (SD : Scalar D) (BB : Type) (BO : BoundingBoxOps D BB)
         (id : TransformTool.WidgetId) (bb : BB),
    widgetOppositePos_ id bb = widgetPos_ (oppositeWidget id) bb
    /\ widgetPos_ id bb = widgetOppositePos_ (oppositeWidget id) bb
    /\ oppositeWidget (oppositeWidget id) = id
    /\ widgetPos_ id bb = widgetPos_ (cornerOfRotate id) bb
    /\ widgetOppositePos_ id bb = widgetOppositePos_ (cornerOfRotate id) bb
    /\ (isCornerScale (oppositeWidget id), isVerticalScale (oppositeWidget id),
        isHorizontalScale (oppositeWidget id), isRotate (oppositeWidget id))
       = (isCornerScale id, isVerticalScale id, isHorizontalScale id, isRotate id).
Proof.
  intros D SD BB BO id bb. destruct id; repeat split; reflexivity.
Qed.

(** ** The geometry of the applied transform, over the reals *)

Section RealGeometry.
Context {BB : Type} {BO : BoundingBoxOps R BB} {Time : Type}.
Variable keyframe_ : VAC BB Time -> gset Cell -> Time -> VAC BB Time * gset Cell.

(** The transform made relative to the pivot, on any point. *)
Lemma makeRelativeToPivot_point (st : ToolState R) (xf : Affine2d R) (p : Vec2 R) :
  t0 xf = 0%R -> t1 xf = 0%R ->
  transformPoint (makeRelativeToPivot st xf) p
  = vadd (pivotOf st) (linearTimes xf (vsub p (pivotOf st))).
Proof.
  intros Ht0 Ht1. destruct xf as [a b c d tx ty]. simpl in Ht0, Ht1. subst tx ty.
  unfold transformPoint, makeRelativeToPivot, translate, pretranslate,
    withTranslation, linearTimes, translation, vadd, vsub, vneg, pivotOf.
  simpl. f_equal; ring.
Qed.

(** X9. The transform handed to the cells is the selected scale or rotation
    applied about the pivot: it sends a point [p] to
    [pivot + L (p - pivot)], where [L] is the linear part of the transform
    selected by the hovered widget.  Hence the difference of two images is
    [L] applied to the difference of the two points: the pivot only fixes
    where the transform is centred.  Doubles are read as real numbers. *)
Theorem continueTransform_sandwich :
  forall (st : ToolState R) (x y : R) (xf : Affine2d R) (p : Vec2 R),
    determineAffine st x y = Some xf ->
    transformPoint (makeRelativeToPivot st xf) p
    = vadd (pivotOf st) (linearTimes xf (vsub p (pivotOf st)))
    /\ (forall q, vsub (transformPoint (makeRelativeToPivot st xf) p)
                       (transformPoint (makeRelativeToPivot st xf) q)
                  = mkVec2 (a00 xf * (vx p - vx q) + a01 xf * (vy p - vy q))%R
                           (a10 xf * (vx p - vx q) + a11 xf * (vy p - vy q))%R).
Proof.
  intros st x y xf p Hxf.
  destruct (determineAffine_linear st x y xf Hxf) as [Ht0 Ht1].
  split; [apply makeRelativeToPivot_point; assumption |].
  intros q. rewrite !makeRelativeToPivot_point by assumption.
  unfold vsub, vadd, linearTimes, pivotOf. simpl. f_equal; ring.
Qed.

(** X7. An edge scale widget leaves the other axis alone: with the top or
    the bottom widget hovered the applied transform keeps the x coordinate
    of every point, with the left or the right widget its y coordinate.
    Doubles are read as real numbers. *)
Theorem edge_scale_keeps_other_axis :
  forall (st : ToolState R) (x y : R) (xf : Affine2d R) (p : Vec2 R),
    determineAffine st x y = Some xf ->
    (isVerticalScale (hovered st) = true ->
     vx (transformPoint (makeRelativeToPivot st xf) p) = vx p)
    /\ (isHorizontalScale (hovered st) = true ->
        vy (transformPoint (makeRelativeToPivot st xf) p) = vy p).
Proof.
  intros st x y xf p Hxf.
  destruct (determineAffine_linear st x y xf Hxf) as [Ht0 Ht1].
  rewrite makeRelativeToPivot_point by assumption.
  rewrite determineAffine_by_category in Hxf.
  rewrite isVerticalScale_match, isHorizontalScale_match.
  destruct (hovered st); try discriminate; injection Hxf as <-;
    split; intros Hc; try discriminate;
    unfold vadd, vsub, linearTimes, pivotOf, Scaling; simpl; ring.
Qed.

(** X8. With a rotate widget hovered the applied transform is a rigid motion
    about the pivot: it preserves the squared distance between any two
    points, and the squared distance of every point to the pivot, for any
    pointer position.  Doubles are read as real numbers. *)
Theorem rotate_preserves_distances :
  forall (st : ToolState R) (x y : R) (xf : Affine2d R) (p q : Vec2 R),
    isRotate (hovered st) = true ->
    determineAffine st x y = Some xf ->
    dist2 (transformPoint (makeRelativeToPivot st xf) q)
          (transformPoint (makeRelativeToPivot st xf) p)
    = dist2 q p
    /\ dist2 (pivotOf st) (transformPoint (makeRelativeToPivot st xf) p)
       = dist2 (pivotOf st) p.
Proof.
  intros st x y xf p q Hrot Hxf.
  destruct (determineAffine_linear st x y xf Hxf) as [Ht0 Ht1].
  rewrite !makeRelativeToPivot_point by assumption.
  rewrite determineAffine_by_category in Hxf. rewrite isRotate_match in Hrot.
  destruct (hovered st); try discriminate; injection Hxf as <-.
  all: match goal with
       | |- context [Rotation2Dd ?a] =>
           pose proof (sin_cos_square a) as E; set (c := cos a) in *; set (s := sin a) in *
       end.
  all: unfold dist2, vadd, vsub, linearTimes, pivotOf, Rotation2Dd; simpl;
    fold c s; split.
  all: match goal with
       | |- ?l = ?r =>
           replace l with ((c * c + s * s) * r)%R by (unfold dist2; simpl; ring);
           rewrite E; ring
       end.
Qed.

(** The baseline recorded by a [beginTransform] that passes the guard. *)
Lemma beginTransform_baseline (st : ToolState R) (vac : VAC BB Time)
    (cells : gset Cell) (x0 y0 : R) (time : Time) :
  hovered st <> TransformTool.None ->
  cells <> ∅ ->
  let result := beginTransform keyframe_ st vac cells x0 y0 time in
  let st' := result.1.1 in
  let obb := outlineBoundingBoxOf result.1.2 cells time in
  hovered st' = hovered st
  /\ x0_ st' = x0 /\ y0_ st' = y0
  /\ dx_ st' = (x0 - vx (widgetPos_ (hovered st) obb))%R
  /\ dy_ st' = (y0 - vy (widgetPos_ (hovered st) obb))%R
  /\ xPivot_ st' = vx (widgetOppositePos_ (hovered st) obb)
  /\ yPivot_ st' = vy (widgetOppositePos_ (hovered st) obb).
Proof.
  intros Hh Hcells. cbv zeta.
  rewrite (beginTransform_started keyframe_ st vac cells x0 y0 time)
    by (apply trivialCase_false; split; assumption).
  repeat split; reflexivity.
Qed.

Lemma isCornerScale_match (h : TransformTool.WidgetId) :
  isCornerScale h = match h with
                    | TransformTool.TopLeftScale | TransformTool.TopRightScale
                    | TransformTool.BottomRightScale | TransformTool.BottomLeftScale => true
                    | _ => false
                    end.
Proof. destruct h; reflexivity. Qed.

(** X13. The denominators of the scale factors are the extents of the
    outline bounding box.  After a [beginTransform] that passes the guard,
    [x0_ - dx_ - xPivot_] is [xMax - xMin] or [xMin - xMax] of the outline
    box of the selection when the hovered widget scales along x (corner,
    left, right), so it is zero exactly when the box is flat along x; the
    same holds for [y0_ - dy_ - yPivot_] and the widgets that scale along y
    (corner, top, bottom).  The press position plays no part.  Doubles are
    read as real numbers. *)
Theorem scale_denominators_are_box_extents :
  forall (st : ToolState R) (vac : VAC BB Time) (cells : gset Cell)
         (x0 y0 : R) (time : Time),
    hovered st <> TransformTool.None ->
    cells <> ∅ ->
    let result := beginTransform keyframe_ st vac cells x0 y0 time in
    let st' := result.1.1 in
    let obb := outlineBoundingBoxOf result.1.2 cells time in
    (isCornerScale (hovered st) || isHorizontalScale (hovered st) = true ->
     ((x0_ st' - dx_ st' - xPivot_ st')%R = (xMax obb - xMin obb)%R
      \/ (x0_ st' - dx_ st' - xPivot_ st')%R = (xMin obb - xMax obb)%R)
     /\ ((x0_ st' - dx_ st' - xPivot_ st')%R = 0%R <-> xMin obb = xMax obb))
    /\ (isCornerScale (hovered st) || isVerticalScale (hovered st) = true ->
        ((y0_ st' - dy_ st' - yPivot_ st')%R = (yMax obb - yMin obb)%R
         \/ (y0_ st' - dy_ st' - yPivot_ st')%R = (yMin obb - yMax obb)%R)
        /\ ((y0_ st' - dy_ st' - yPivot_ st')%R = 0%R <-> yMin obb = yMax obb)).
Proof.
  intros st vac cells x0 y0 time Hh Hcells. cbv zeta.
  destruct (beginTransform_baseline st vac cells x0 y0 time Hh Hcells)
    as (_ & Ex & Ey & Edx & Edy & Epx & Epy).
  cbv zeta in Ex, Ey, Edx, Edy, Epx, Epy.
  rewrite Ex, Ey, Edx, Edy, Epx, Epy.
  set (obb := outlineBoundingBoxOf _ cells time).
  rewrite isCornerScale_match, isVerticalScale_match, isHorizontalScale_match.
  destruct (hovered st); try congruence; simpl;
    split; intros Hc; try discriminate;
    (split; [first [left; lra | right; lra] | split; intros E; lra]).
Qed.

(** X5. A scale handle follows the pointer.  After a [beginTransform] at
    (x0, y0) that passes the guard, the transform [continueTransform]
    builds for the pointer at (x, y) moves the hovered widget's own point
    of the outline box by exactly the pointer's displacement
    (x - x0, y - y0) along each axis the widget scales, provided the box is
    not flat along that axis; an edge widget leaves the other coordinate of
    that point unchanged.  Doubles are read as real numbers. *)
Theorem scale_handle_follows_pointer :
  forall (st : ToolState R) (vac : VAC BB Time) (cells : gset Cell)
         (x0 y0 x y : R) (time : Time) (xf : Affine2d R),
    hovered st <> TransformTool.None ->
    cells <> ∅ ->
    let result := beginTransform keyframe_ st vac cells x0 y0 time in
    let st' := result.1.1 in
    let obb := outlineBoundingBoxOf result.1.2 cells time in
    let anchor := widgetPos_ (hovered st) obb in
    determineAffine st' x y = Some xf ->
    let image := transformPoint (makeRelativeToPivot st' xf) anchor in
    (isCornerScale (hovered st) || isHorizontalScale (hovered st) = true ->
     xMin obb <> xMax obb -> vx image = (vx anchor + (x - x0))%R)
    /\ (isCornerScale (hovered st) || isVerticalScale (hovered st) = true ->
        yMin obb <> yMax obb -> vy image = (vy anchor + (y - y0))%R)
    /\ (isVerticalScale (hovered st) = true -> vx image = vx anchor)
    /\ (isHorizontalScale (hovered st) = true -> vy image = vy anchor).
Proof.
  intros st vac cells x0 y0 x y time xf Hh Hcells. cbv zeta.
  destruct (beginTransform_baseline st vac cells x0 y0 time Hh Hcells)
    as (Eh & Ex & Ey & Edx & Edy & Epx & Epy).
  cbv zeta in Eh, Ex, Ey, Edx, Edy, Epx, Epy.
  set (st' := (beginTransform keyframe_ st vac cells x0 y0 time).1.1) in *.
  set (obb := outlineBoundingBoxOf _ cells time) in *.
  intros Hxf.
  destruct (determineAffine_linear st' x y xf Hxf) as [Ht0 Ht1].
  rewrite makeRelativeToPivot_point by assumption.
  rewrite determineAffine_by_category, Eh in Hxf.
  rewrite isCornerScale_match, isVerticalScale_match, isHorizontalScale_match.
  unfold pivotOf. rewrite Ex, Ey, Edx, Edy, Epx, Epy in *.
  destruct (hovered st); try congruence; injection Hxf as <-;
    unfold vadd, vsub, linearTimes, Scaling; simpl;
    (split; [| split; [| split]]); intros Hc; try discriminate;
    try (intros Hne; field; lra); ring.
Qed.

(** X6. For a scale widget the transform depends on the pointer's
    displacement only: two drags of the same selection with the same
    widget, pressed at different positions and moved by the same amount,
    get the same transform (the offsets [dx_], [dy_] cancel the press
    position).  Doubles are read as real numbers. *)
Theorem scale_depends_on_displacement_only :
  forall (st : ToolState R) (vac : VAC BB Time) (cells : gset Cell)
         (x0 y0 x y x0' y0' x' y' : R) (time : Time),
    hovered st <> TransformTool.None ->
    cells <> ∅ ->
    isRotate (hovered st) = false ->
    (x - x0 = x' - x0')%R -> (y - y0 = y' - y0')%R ->
    let st1 := (beginTransform keyframe_ st vac cells x0 y0 time).1.1 in
    let st2 := (beginTransform keyframe_ st vac cells x0' y0' time).1.1 in
    determineAffine st1 x y = determineAffine st2 x' y'.
Proof.
  intros st vac cells x0 y0 x y x0' y0' x' y' time Hh Hcells Hrot Hx Hy. cbv zeta.
  destruct (beginTransform_baseline st vac cells x0 y0 time Hh Hcells)
    as (Eh & Ex & Ey & Edx & Edy & Epx & Epy).
  destruct (beginTransform_baseline st vac cells x0' y0' time Hh Hcells)
    as (Eh' & Ex' & Ey' & Edx' & Edy' & Epx' & Epy').
  cbv zeta in *.
  assert ((beginTransform keyframe_ st vac cells x0' y0' time).1.2
          = (beginTransform keyframe_ st vac cells x0 y0 time).1.2) as Evac.
  { rewrite !(beginTransform_started keyframe_ st vac cells _ _ time)
      by (apply trivialCase_false; split; assumption). reflexivity. }
  rewrite Evac in *.
  rewrite !determineAffine_by_category, Eh, Eh'.
  rewrite Ex, Ey, Edx, Edy, Epx, Epy, Ex', Ey', Edx', Edy', Epx', Epy'.
  rewrite isRotate_match in Hrot.
  destruct (hovered st); try congruence; try discriminate; simpl;
    f_equal; f_equal; f_equal; lra.
Qed.
End RealGeometry.

(** ** The direction of the rotation, over the reals *)

(** The unit vector of angle [atan (y / x)] points along (x, y) when
    [0 < x], and against it when [x < 0]. *)
Lemma atan_direction (x y : R) :
  x <> 0%R ->
  (x * sin (atan (y / x)) = y * cos (atan (y / x)))%R
  /\ (0 < cos (atan (y / x)))%R.
Proof.
  intros Hx. rewrite sin_atan, cos_atan.
  assert (0 < R_sqrt.sqrt (1 + (y / x)²))%R as Hs.
  { apply sqrt_lt_R0. unfold Rsqr. nra. }
  split.
  - field. split; [lra | exact Hx].
  - apply Rdiv_lt_0_compat; lra.
Qed.

(** [atan2(y, x)] is the direction of (x, y): the unit vector of that
    angle is collinear with (x, y) and on its side. *)
Lemma Ratan2_direction (x y : R) :
  (x <> 0 \/ y <> 0)%R ->
  (x * sin (Ratan2 y x) = y * cos (Ratan2 y x))%R
  /\ (0 < x * cos (Ratan2 y x) + y * sin (Ratan2 y x))%R.
Proof.
  intros Hxy. unfold Ratan2.
  destruct (Rlt_dec 0 x) as [Hpos | Hnpos].
  - destruct (atan_direction x y) as [E Hc]; [lra |].
    split; [exact E |].
    assert (x * (x * cos (atan (y / x)) + y * sin (atan (y / x)))
            = (x * x + y * y) * cos (atan (y / x)))%R as Ed.
    { replace (x * (x * cos (atan (y / x)) + y * sin (atan (y / x))))%R
        with (x * x * cos (atan (y / x)) + y * (x * sin (atan (y / x))))%R by ring.
      rewrite E. ring. }
    assert (0 < (x * x + y * y) * cos (atan (y / x)))%R as Hp
        by (apply Rmult_lt_0_compat; [nra | exact Hc]).
    rewrite <- Ed in Hp. nra.
  - destruct (Rlt_dec x 0) as [Hneg | Hnneg].
    + destruct (atan_direction x y) as [E Hc]; [lra |].
      assert (x * (x * cos (atan (y / x)) + y * sin (atan (y / x)))
              = (x * x + y * y) * cos (atan (y / x)))%R as Ed.
      { replace (x * (x * cos (atan (y / x)) + y * sin (atan (y / x))))%R
          with (x * x * cos (atan (y / x)) + y * (x * sin (atan (y / x))))%R by ring.
        rewrite E. ring. }
      assert (0 < (x * x + y * y) * cos (atan (y / x)))%R as Hp
          by (apply Rmult_lt_0_compat; [nra | exact Hc]).
      rewrite <- Ed in Hp.
      destruct (Rle_dec 0 y) as [Hy | Hy].
      * rewrite neg_sin, neg_cos. split; [lra | nra].
      * rewrite sin_minus, cos_minus, sin_PI, cos_PI. split; [lra | nra].
    + assert (x = 0)%R as -> by lra.
      destruct (Rlt_dec 0 y) as [Hy | Hy].
      * rewrite sin_PI2, cos_PI2. split; lra.
      * destruct (Rlt_dec y 0) as [Hy' | Hy']; [| lra].
        rewrite sin_neg, cos_neg, sin_PI2, cos_PI2. split; lra.
Qed.

(** X20. A rotate handle follows the pointer.  With a rotate widget
    hovered, the press position and the pointer both away from the pivot,
    the applied transform sends the press position (x0_, y0_) onto the
    open ray from the pivot through the pointer (x, y): the image minus the
    pivot is collinear with the pointer minus the pivot and on its side,
    and it is as far from the pivot as the press position was.  So the
    rotation turns in the direction of the drag, by the angle the pointer
    has swept around the pivot.  Doubles are read as real numbers, [atan2]
    as the angle of a vector. *)
Theorem rotate_handle_follows_pointer :
  forall (st : ToolState R) (x y : R) (xf : Affine2d R),
    isRotate (hovered st) = true ->
    (x0_ st <> xPivot_ st \/ y0_ st <> yPivot_ st) ->
    (x <> xPivot_ st \/ y <> yPivot_ st) ->
    determineAffine st x y = Some xf ->
    let image := transformPoint (makeRelativeToPivot st xf) (mkVec2 (x0_ st) (y0_ st)) in
    let wx := (vx image - xPivot_ st)%R in
    let wy := (vy image - yPivot_ st)%R in
    (wx * (y - yPivot_ st) - wy * (x - xPivot_ st) = 0)%R
    /\ (0 < wx * (x - xPivot_ st) + wy * (y - yPivot_ st))%R
    /\ (wx * wx + wy * wy
        = (x0_ st - xPivot_ st) * (x0_ st - xPivot_ st)
          + (y0_ st - yPivot_ st) * (y0_ st - yPivot_ st))%R.
Proof.
  intros st x y xf Hrot Hpress Hptr Hxf. cbv zeta.
  destruct (determineAffine_linear st x y xf Hxf) as [Ht0 Ht1].
  rewrite makeRelativeToPivot_point by assumption.
  rewrite determineAffine_by_category in Hxf. rewrite isRotate_match in Hrot.
  assert (xf = Rotation2Dd (Ratan2 (y - yPivot_ st) (x - xPivot_ st)
                            - Ratan2 (y0_ st - yPivot_ st) (x0_ st - xPivot_ st))%R)
    as ->.
  { destruct (hovered st); try discriminate; injection Hxf as <-; reflexivity. }
  clear Hxf Hrot Ht0 Ht1.
  destruct (Ratan2_direction (x0_ st - xPivot_ st) (y0_ st - yPivot_ st))
    as [E0 P0]; [destruct Hpress; [left | right]; lra |].
  destruct (Ratan2_direction (x - xPivot_ st) (y - yPivot_ st))
    as [E P]; [destruct Hptr; [left | right]; lra |].
  unfold vadd, vsub, linearTimes, pivotOf, Rotation2Dd.
  cbn [vx vy a00 a01 a10 a11 dadd dsub dmul dneg dcos dsin R_scalar].
  rewrite cos_minus, sin_minus.
  pose proof (sin_cos_square (Ratan2 (y0_ st - yPivot_ st) (x0_ st - xPivot_ st))) as S0.
  pose proof (sin_cos_square (Ratan2 (y - yPivot_ st) (x - xPivot_ st))) as S.
  set (c0 := cos (Ratan2 (y0_ st - yPivot_ st) (x0_ st - xPivot_ st))) in *.
  set (s0 := sin (Ratan2 (y0_ st - yPivot_ st) (x0_ st - xPivot_ st))) in *.
  set (c := cos (Ratan2 (y - yPivot_ st) (x - xPivot_ st))) in *.
  set (s := sin (Ratan2 (y - yPivot_ st) (x - xPivot_ st))) in *.
  set (a0 := (x0_ st - xPivot_ st)%R) in *.
  set (b0 := (y0_ st - yPivot_ st)%R) in *.
  set (a := (x - xPivot_ st)%R) in *.
  set (b := (y - yPivot_ st)%R) in *.
  set (d0 := (a0 * c0 + b0 * s0)%R) in *.
  assert (xPivot_ st + ((c * c0 + s * s0) * a0 + - (s * c0 - c * s0) * b0) - xPivot_ st
          = c * d0)%R as ->.
  { unfold d0. replace (xPivot_ st + ((c * c0 + s * s0) * a0 + - (s * c0 - c * s0) * b0)
                        - xPivot_ st)%R
      with (c * (a0 * c0 + b0 * s0) + s * (a0 * s0 - b0 * c0))%R by ring.
    rewrite E0. ring. }
  assert (yPivot_ st + ((s * c0 - c * s0) * a0 + (c * c0 + s * s0) * b0) - yPivot_ st
          = s * d0)%R as ->.
  { unfold d0. replace (yPivot_ st + ((s * c0 - c * s0) * a0 + (c * c0 + s * s0) * b0)
                        - yPivot_ st)%R
      with (s * (a0 * c0 + b0 * s0) - c * (a0 * s0 - b0 * c0))%R by ring.
    rewrite E0. ring. }
  split; [| split].
  - replace (c * d0 * b - s * d0 * a)%R with (- d0 * (a * s - b * c))%R by ring.
    rewrite E. ring.
  - replace (c * d0 * a + s * d0 * b)%R with (d0 * (a * c + b * s))%R by ring.
    apply Rmult_lt_0_compat; assumption.
  - replace (c * d0 * (c * d0) + s * d0 * (s * d0))%R
      with ((c * c + s * s) * (d0 * d0))%R by ring.
    rewrite S. unfold d0.
    replace (1 * ((a0 * c0 + b0 * s0) * (a0 * c0 + b0 * s0)))%R
      with (a0 * a0 * (c0 * c0) + b0 * b0 * (s0 * s0)
            + 2 * (b0 * c0) * (a0 * s0))%R by ring.
    rewrite E0.
    replace (a0 * a0 * (c0 * c0) + b0 * b0 * (s0 * s0) + 2 * (b0 * c0) * (b0 * c0))%R
      with (a0 * a0 * (c0 * c0) + b0 * b0 * (s0 * s0) + (b0 * c0) * (b0 * c0)
            + (a0 * s0) * (a0 * s0))%R by (rewrite E0; ring).
    replace (a0 * a0 * (c0 * c0) + b0 * b0 * (s0 * s0) + b0 * c0 * (b0 * c0)
             + a0 * s0 * (a0 * s0))%R
      with ((a0 * a0 + b0 * b0) * (c0 * c0 + s0 * s0))%R by ring.
    rewrite S0. ring.
Qed.

(** ** The shape of the rotate arrow, over the reals *)

Ltac unfold_arrow :=
  unfold bodyMin, bodyMax, firstHead, secondHead, arrowCenter, rMinBody, rMaxBody,
    rMinHead, rMaxHead, rCenterline, arrowSize, rotateWidgetSize, scaleWidgetCornerSize,
    rotateWidgetCircleRadius, rotateWidgetCircleCenter, rotateWidgetBodyHalfWidth,
    rotateWidgetHeadHalfWidth, SQRT2, decimal, p_, p_u, u_, vadd, vsub, smul;
  cbn [fst snd vx vy dadd dsub dmul ddiv dneg dcos dsin d_of_Z R_scalar];
  change (10 ^ Z.of_nat 4)%Z with 10000%Z; change (10 ^ Z.of_nat 1)%Z with 10%Z.

Section ArrowShape.
Context {BB : Type} {BO : BoundingBoxOps R BB}.
Variables (id : TransformTool.WidgetId) (bb bb' : BB) (zoom : R).
Hypothesis zoom_nonzero : zoom <> 0%R.

Lemma sameShape_body (i : nat) :
  sameShape id bb bb' zoom (bodyMin id bb zoom i) (bodyMin id bb' 1%R i)
  /\ sameShape id bb bb' zoom (bodyMax id bb zoom i) (bodyMax id bb' 1%R i).
Proof.
  unfold sameShape. split; unfold_arrow; f_equal; field; exact zoom_nonzero.
Qed.

Lemma sameShape_heads :
  sameShape id bb bb' zoom (firstHead id bb zoom).1.1 (firstHead id bb' 1%R).1.1
  /\ sameShape id bb bb' zoom (firstHead id bb zoom).1.2 (firstHead id bb' 1%R).1.2
  /\ sameShape id bb bb' zoom (firstHead id bb zoom).2 (firstHead id bb' 1%R).2
  /\ sameShape id bb bb' zoom (secondHead id bb zoom).1.1 (secondHead id bb' 1%R).1.1
  /\ sameShape id bb bb' zoom (secondHead id bb zoom).1.2 (secondHead id bb' 1%R).1.2
  /\ sameShape id bb bb' zoom (secondHead id bb zoom).2 (secondHead id bb' 1%R).2.
Proof.
  unfold sameShape. repeat split; unfold_arrow; f_equal; field; exact zoom_nonzero.
Qed.
End ArrowShape.

Section ArrowIndex.
Context {D : Type} {SD : Scalar D} {BB : Type} {BO : BoundingBoxOps D BB}.
Variables (id : TransformTool.WidgetId) (bb : BB) (zoom : D).

(** The six head points, one lookup at a time. *)
Lemma computeArrow_heads :
  let n := rotateWidgetNumSamples in
  let res := computeArrow_ id bb zoom in
  res !! 0%nat = Some (firstHead id bb zoom).1.1
  /\ res !! 1%nat = Some (firstHead id bb zoom).1.2
  /\ res !! 2%nat = Some (firstHead id bb zoom).2
  /\ res !! (n + 3)%nat = Some (secondHead id bb zoom).1.1
  /\ res !! (n + 4)%nat = Some (secondHead id bb zoom).1.2
  /\ res !! (n + 5)%nat = Some (secondHead id bb zoom).2.
Proof.
  cbv zeta.
  destruct (computeArrow_points id bb zoom) as (_ & Hfirst & Hsecond & _).
  cbv zeta in Hfirst, Hsecond.
  pose proof (f_equal (fun t => t.1.1) Hfirst) as H0.
  pose proof (f_equal (fun t => t.1.2) Hfirst) as H1.
  pose proof (f_equal (fun t => t.2) Hfirst) as H2.
  pose proof (f_equal (fun t => t.1.1) Hsecond) as G0.
  pose proof (f_equal (fun t => t.1.2) Hsecond) as G1.
  pose proof (f_equal (fun t => t.2) Hsecond) as G2.
  cbn beta iota delta [fst snd] in H0, H1, H2, G0, G1, G2.
  repeat split; assumption.
Qed.

(** What is stored at an index of the contour. *)
Lemma computeArrow_lookup (i : nat) (p : Vec2 D) :
  computeArrow_ id bb zoom !! i = Some p ->
  let n := rotateWidgetNumSamples in
  (i = 0%nat /\ p = (firstHead id bb zoom).1.1)
  \/ (i = 1%nat /\ p = (firstHead id bb zoom).1.2)
  \/ (i = 2%nat /\ p = (firstHead id bb zoom).2)
  \/ (i = (n + 3)%nat /\ p = (secondHead id bb zoom).1.1)
  \/ (i = (n + 4)%nat /\ p = (secondHead id bb zoom).1.2)
  \/ (i = (n + 5)%nat /\ p = (secondHead id bb zoom).2)
  \/ (exists j, (j < n)%nat /\ i = (3 + j)%nat /\ p = bodyMin id bb zoom j)
  \/ (exists j, (j < n)%nat /\ i = (2 * n + 5 - j)%nat /\ p = bodyMax id bb zoom j).
Proof.
  intros Hi. cbv zeta.
  destruct (computeArrow_points id bb zoom) as (Hlen & _ & _ & Hbody).
  destruct computeArrow_heads as (H0 & H1 & H2 & G0 & G1 & G2).
  cbv zeta in Hlen, Hbody, H0, H1, H2, G0, G1, G2.
  apply lookup_lt_Some in Hi as Hlt. rewrite Hlen in Hlt.
  set (n := rotateWidgetNumSamples) in *.
  destruct (decide (i < 3)%nat) as [Ha | Ha].
  - assert (i = 0 \/ i = 1 \/ i = 2)%nat as [-> | [-> | ->]] by lia.
    + left. split; [reflexivity | congruence].
    + right; left. split; [reflexivity | congruence].
    + right; right; left. split; [reflexivity | congruence].
  - destruct (decide (i < n + 3)%nat) as [Hb | Hb].
    + do 6 right. left. exists (i - 3)%nat.
      destruct (Hbody (i - 3)%nat) as [Hmin _]; [lia |].
      replace (3 + (i - 3))%nat with i in Hmin by lia.
      split; [lia |]. split; [lia | congruence].
    + destruct (decide (i < n + 6)%nat) as [Hc | Hc].
      * assert (i = n + 3 \/ i = n + 4 \/ i = n + 5)%nat as [-> | [-> | ->]] by lia.
        -- do 3 right. left. split; [reflexivity | congruence].
        -- do 4 right. left. split; [reflexivity | congruence].
        -- do 5 right. left. split; [reflexivity | congruence].
      * do 7 right. exists (2 * n + 5 - i)%nat.
        destruct (Hbody (2 * n + 5 - i)%nat) as [_ Hmax]; [lia |].
        replace (2 * n + 5 - (2 * n + 5 - i))%nat with i in Hmax by lia.
        split; [lia |]. split; [lia | congruence].
Qed.
End ArrowIndex.

Section ArrowInvariance.
Context {BB : Type} {BO : BoundingBoxOps R BB}.

(** X14. The rotate arrow is attached to its corner and keeps its size on
    screen: for a non-zero zoom, the contour at zoom [zoom] has as many
    points as the contour at zoom 1, and relative to the widget's corner
    each of its points is the point of the same index of the contour at
    zoom 1 divided by [zoom], whatever the two bounding boxes are.  Doubles
    are read as real numbers. *)
Theorem computeArrow_follows_corner_and_zoom :
  forall (id : TransformTool.WidgetId) (bb bb' : BB) (zoom : R),
    zoom <> 0%R ->
    length (computeArrow_ id bb zoom) = length (computeArrow_ id bb' 1%R)
    /\ (forall i p,
          computeArrow_ id bb zoom !! i = Some p ->
          exists p1, computeArrow_ id bb' 1%R !! i = Some p1
                     /\ vsub p (widgetPos_ id bb)
                        = smul (1 / zoom)%R (vsub p1 (widgetPos_ id bb'))).
Proof.
  intros id bb bb' zoom Hz.
  destruct (computeArrow_points id bb zoom) as (Hlen & _).
  destruct (computeArrow_points id bb' 1%R) as (Hlen1 & _ & _ & Hbody).
  destruct (computeArrow_heads id bb' 1%R) as (H0 & H1 & H2 & G0 & G1 & G2).
  cbv zeta in Hlen, Hlen1, Hbody, H0, H1, H2, G0, G1, G2.
  split; [congruence |].
  destruct (sameShape_heads id bb bb' zoom Hz) as (S0 & S1 & S2 & S3 & S4 & S5).
  intros i p Hi. apply computeArrow_lookup in Hi. cbv zeta in Hi.
  destruct Hi as [[-> ->] | [[-> ->] | [[-> ->] | [[-> ->] | [[-> ->] | [[-> ->] | Hi]]]]]].
  - eexists. split; [exact H0 | exact S0].
  - eexists. split; [exact H1 | exact S1].
  - eexists. split; [exact H2 | exact S2].
  - eexists. split; [exact G0 | exact S3].
  - eexists. split; [exact G1 | exact S4].
  - eexists. split; [exact G2 | exact S5].
  - destruct Hi as [[j (Hj & -> & ->)] | [j (Hj & -> & ->)]];
      destruct (Hbody j Hj) as [Hmin Hmax];
      destruct (sameShape_body id bb bb' zoom Hz j) as [Smin Smax];
      eexists; (split; [eassumption | assumption]).
Qed.

Lemma sample_angles :
  forall id : TransformTool.WidgetId,
    (startAngle id + IZR (Z.of_nat 0) * deltaAngle)%R = startAngle id
    /\ (startAngle id + IZR (Z.of_nat (rotateWidgetNumSamples - 1)) * deltaAngle)%R
       = endAngle id.
Proof.
  intros id. unfold startAngle, endAngle, deltaAngle, rotateWidgetAngleRange,
    rotateWidgetNumSamples, decimal.
  cbn [dadd dsub dmul ddiv dneg d_of_Z R_scalar].
  change (10 ^ Z.of_nat 1)%Z with 10%Z.
  change (Z.of_nat 20 - 1)%Z with 19%Z. change (Z.of_nat (20 - 1)) with 19%Z.
  change (Z.of_nat 0) with 0%Z.
  split; field.
Qed.

(** X15. The body of the rotate arrow meets its two heads.  The first
    inner/outer pair of body points (indices 3 and 2n+5) is on the ray of
    angle [startAngle] from the circle's centre, on which the inner and
    outer points of the first head (indices 2 and 0) lie; the last pair
    (indices n+2 and n+6) is on the ray of angle [endAngle], on which the
    inner and outer points of the second head (indices n+3 and n+5) lie.
    The two points of every body pair are at distance
    [2 * rotateWidgetBodyHalfWidth * size] of each other, the width of the
    body.  Doubles are read as real numbers. *)
Theorem computeArrow_body_meets_heads :
  forall (id : TransformTool.WidgetId) (bb : BB) (zoom : R),
    let n := rotateWidgetNumSamples in
    let res := computeArrow_ id bb zoom in
    let center := arrowCenter id bb zoom in
    res !! 3%nat = Some (p_ center (rMinBody zoom) (startAngle id))
    /\ res !! (2 * n + 5)%nat = Some (p_ center (rMaxBody zoom) (startAngle id))
    /\ res !! (n + 2)%nat = Some (p_ center (rMinBody zoom) (endAngle id))
    /\ res !! (n + 6)%nat = Some (p_ center (rMaxBody zoom) (endAngle id))
    /\ (res !! 0%nat, res !! 2%nat)
       = (Some (p_ center (rMaxHead zoom) (startAngle id)),
          Some (p_ center (rMinHead zoom) (startAngle id)))
    /\ (res !! (n + 3)%nat, res !! (n + 5)%nat)
       = (Some (p_ center (rMinHead zoom) (endAngle id)),
          Some (p_ center (rMaxHead zoom) (endAngle id)))
    /\ (forall i pin pout,
          (i < n)%nat -> res !! (3 + i)%nat = Some pin ->
          res !! (2 * n + 5 - i)%nat = Some pout ->
          dist2 pin pout
          = ((2 * (rotateWidgetBodyHalfWidth * arrowSize zoom))
             * (2 * (rotateWidgetBodyHalfWidth * arrowSize zoom)))%R).
Proof.
  intros id bb zoom. cbv zeta.
  destruct (computeArrow_points id bb zoom) as (_ & _ & _ & Hbody).
  destruct (computeArrow_heads id bb zoom) as (H0 & _ & H2 & G0 & _ & G2).
  cbv zeta in Hbody, H0, H2, G0, G2.
  destruct (sample_angles id) as [Es Ee].
  destruct (Hbody 0%nat) as [Hmin0 Hmax0]; [unfold rotateWidgetNumSamples; lia |].
  destruct (Hbody (rotateWidgetNumSamples - 1)%nat) as [Hmin1 Hmax1];
    [unfold rotateWidgetNumSamples; lia |].
  unfold bodyMin, bodyMax in Hmin0, Hmax0, Hmin1, Hmax1.
  cbn [dadd dmul d_of_Z R_scalar] in Hmin0, Hmax0, Hmin1, Hmax1.
  rewrite Es in Hmin0, Hmax0. rewrite Ee in Hmin1, Hmax1.
  rewrite Nat.sub_0_r in Hmax0.
  replace (3 + (rotateWidgetNumSamples - 1))%nat with (rotateWidgetNumSamples + 2)%nat
    in Hmin1 by (unfold rotateWidgetNumSamples; lia).
  replace (2 * rotateWidgetNumSamples + 5 - (rotateWidgetNumSamples - 1))%nat
    with (rotateWidgetNumSamples + 6)%nat in Hmax1
    by (unfold rotateWidgetNumSamples; lia).
  split; [exact Hmin0 |]. split; [exact Hmax0 |].
  split; [exact Hmin1 |]. split; [exact Hmax1 |].
  split; [rewrite H0, H2; reflexivity |].
  split; [rewrite G0, G2; reflexivity |].
  intros i pin pout Hi Hin Hout.
  destruct (Hbody i Hi) as [Hmin Hmax].
  rewrite Hmin in Hin. rewrite Hmax in Hout.
  injection Hin as <-. injection Hout as <-.
  unfold dist2, bodyMin, bodyMax, rMinBody, rMaxBody, p_u, u_, vadd, smul.
  cbn [vx vy dadd dsub dmul dcos dsin R_scalar].
  match goal with
  | |- context [cos ?a] =>
      pose proof (sin_cos_square a) as E; set (c := cos a) in *; set (s := sin a) in *
  end.
  set (w := (rotateWidgetBodyHalfWidth * arrowSize zoom)%R).
  match goal with
  | |- ?l = _ => replace l with ((2 * w) * (2 * w) * (c * c + s * s))%R by ring
  end.
  rewrite E. ring.
Qed.
End ArrowInvariance.

(** ** The OpenGL calls *)

Lemma fillOrder_permutation : fillOrder ≡ₚ seq 0 (2 * rotateWidgetNumSamples + 6).
Proof.
  apply (bool_decide_unpack (fillOrder ≡ₚ seq 0 (2 * rotateWidgetNumSamples + 6))).
  vm_compute. exact I.
Qed.

Section FillLoop.
Context {D : Type}.

Lemma glVertexAt_Some (arrow : list (Vec2 D)) (i : nat) :
  (i < length arrow)%nat ->
  exists p, arrow !! i = Some p /\ glVertexAt arrow i = Some (glVertex2d (vx p) (vy p)).
Proof.
  intros Hi. destruct (lookup_lt_is_Some_2 arrow i Hi) as [p Hp].
  exists p. split; [exact Hp |]. unfold glVertexAt. rewrite Hp. reflexivity.
Qed.

Lemma glVertexAt_is_Some (arrow : list (Vec2 D)) (i : nat) :
  is_Some (glVertexAt arrow i) <-> (i < length arrow)%nat.
Proof.
  unfold glVertexAt. rewrite fmap_is_Some. apply lookup_lt_is_Some.
Qed.

Lemma glVertices_app (a b : list (GLCall D)) :
  glVertices (a ++ b) = glVertices a ++ glVertices b.
Proof. apply omap_app. Qed.

(** The loop succeeds when its indices are in range, and then emits the
    points at the indices of [fillBodyOrder], and nothing else. *)
Lemma fillArrowBody_Some (arrow : list (Vec2 D)) (d : Vec2 D) (k : nat) :
  forall lo hi,
    (k <= S hi)%nat -> (lo + k <= length arrow)%nat -> (hi < length arrow)%nat ->
    exists body,
      fillArrowBody arrow k lo hi = Some body
      /\ glVertices body = (fun j => nth j arrow d) <$> fillBodyOrder k lo hi
      /\ Forall (fun c => exists x y, c = glVertex2d x y) body.
Proof.
  induction k as [| k IH]; intros lo hi Hk Hlo Hhi.
  - exists []. repeat split; constructor.
  - destruct (glVertexAt_Some arrow lo) as [p [Hp Ep]]; [lia |].
    destruct (glVertexAt_Some arrow hi) as [q [Hq Eq]]; [lia |].
    destruct (IH (S lo) (Nat.pred hi)) as [rest (Er & Ev & Ef)]; [lia | lia | lia |].
    exists (glVertex2d (vx p) (vy p) :: glVertex2d (vx q) (vy q) :: rest).
    split; [| split].
    + simpl. rewrite Ep, Eq. simpl. rewrite Er. reflexivity.
    + cbn [fillBodyOrder]. rewrite !fmap_cons.
      rewrite (nth_lookup_Some _ _ d _ Hp), (nth_lookup_Some _ _ d _ Hq).
      unfold glVertices in *. cbn [omap list_omap]. rewrite Ev.
      destruct p, q; reflexivity.
    + repeat constructor; eauto.
Qed.

Lemma fillArrowBody_is_Some (arrow : list (Vec2 D)) (k lo hi : nat) :
  is_Some (fillArrowBody arrow (S k) lo hi) -> (hi < length arrow)%nat.
Proof.
  simpl. intros [body Hb].
  destruct (glVertexAt arrow lo) as [a |]; [| discriminate]. simpl in Hb.
  destruct (glVertexAt arrow hi) as [b |] eqn:Eb; [| discriminate].
  apply glVertexAt_is_Some. rewrite Eb. eexists; reflexivity.
Qed.
End FillLoop.

Section FilledFacts.
Context {D : Type} {SD : Scalar D} {BB : Type} {BO : BoundingBoxOps D BB}.

Lemma closedCalls_nil : closedCalls (D:=D) [].
Proof. intros rest. reflexivity. Qed.

Lemma closedCalls_app (a b : list (GLCall D)) :
  closedCalls a -> closedCalls b -> closedCalls (a ++ b).
Proof.
  intros Ha Hb rest. rewrite <- app_assoc, Ha, Hb.
  rewrite <- (app_nil_r (a ++ b)), <- app_assoc, Ha, Hb.
  simpl. rewrite !app_nil_r, app_assoc. reflexivity.
Qed.

Lemma filledPrimitives_app (a b : list (GLCall D)) :
  closedCalls a ->
  filledPrimitives false (a ++ b) = filledPrimitives false a ++ filledPrimitives false b.
Proof. intros Ha. apply Ha. Qed.

Lemma filledPrimitives_vertices (inside : bool) (body rest : list (GLCall D)) :
  Forall isVertexCall body ->
  filledPrimitives inside (body ++ rest)
  = (if inside then body else []) ++ filledPrimitives inside rest.
Proof.
  induction 1 as [| c body [x [y ->]] _ IH]; [destruct inside; reflexivity |].
  simpl. rewrite IH. destruct inside; reflexivity.
Qed.

Lemma Forall_isVertexCall_fmap (arrow : list (Vec2 D)) :
  Forall isVertexCall ((fun p => glVertex2d (vx p) (vy p)) <$> arrow).
Proof. apply Forall_fmap, Forall_true. intros p. eexists _, _. reflexivity. Qed.

Lemma pickIds_vertices (body : list (GLCall D)) :
  Forall isVertexCall body -> pickIds body = [].
Proof.
  induction 1 as [| c body [x [y ->]] _ IH]; [reflexivity | exact IH].
Qed.

Lemma pickIds_app (a b : list (GLCall D)) : pickIds (a ++ b) = pickIds a ++ pickIds b.
Proof. apply omap_app. Qed.

Lemma glStrokeBoundingBox_closed (bb : BB) :
  closedCalls (glStrokeBoundingBox_ bb) /\ filledPrimitives false (glStrokeBoundingBox_ bb) = [].
Proof. split; [intros rest |]; reflexivity. Qed.

Lemma glStrokeRect_closed (pos : Vec2 D) (size : D) :
  closedCalls (glStrokeRect_ pos size)
  /\ filledPrimitives false (glStrokeRect_ pos size) = [].
Proof. split; [intros rest |]; reflexivity. Qed.

Lemma glFillRect_closed (pos : Vec2 D) (size : D) :
  closedCalls (glFillRect_ pos size)
  /\ filledPrimitives false (glFillRect_ pos size) = glFillRect_ pos size.
Proof. split; [intros rest |]; reflexivity. Qed.

Lemma glStrokeArrow_filled (arrow : list (Vec2 D)) (rest : list (GLCall D)) :
  filledPrimitives false (glStrokeArrow_ arrow ++ rest) = filledPrimitives false rest.
Proof.
  unfold glStrokeArrow_. rewrite <- !app_assoc. simpl.
  rewrite filledPrimitives_vertices by apply Forall_isVertexCall_fmap. reflexivity.
Qed.

Lemma glStrokeArrow_closed (arrow : list (Vec2 D)) :
  closedCalls (glStrokeArrow_ arrow)
  /\ filledPrimitives false (glStrokeArrow_ arrow) = [].
Proof.
  assert (filledPrimitives false (glStrokeArrow_ arrow) = []) as E.
  { rewrite <- (app_nil_r (glStrokeArrow_ arrow)). apply glStrokeArrow_filled. }
  split; [| exact E]. intros rest. rewrite E. apply glStrokeArrow_filled.
Qed.

Lemma glStrokeArrow_vertices (arrow : list (Vec2 D)) :
  glVertices (glStrokeArrow_ arrow) = arrow.
Proof.
  unfold glStrokeArrow_, glVertices. simpl. rewrite omap_app. simpl.
  rewrite app_nil_r. induction arrow as [| [x y] arrow IH]; [reflexivity |].
  rewrite fmap_cons. cbn [omap list_omap vx vy]. rewrite IH. reflexivity.
Qed.

(** The shape of what [glFillArrow_] emits when it reads in range. *)
Lemma glFillArrow_Some (arrow : list (Vec2 D)) (d : Vec2 D) :
  (2 * rotateWidgetNumSamples + 6 <= length arrow)%nat ->
  exists body heads,
    glFillArrow_ arrow
    = Some ([glBegin GL_TRIANGLE_STRIP] ++ body
            ++ [glEnd; glBegin GL_TRIANGLES] ++ heads ++ [glEnd])
    /\ Forall isVertexCall body /\ Forall isVertexCall heads
    /\ glVertices body ++ glVertices heads = (fun j => nth j arrow d) <$> fillOrder.
Proof.
  intros Hlen. unfold rotateWidgetNumSamples in Hlen.
  destruct (fillArrowBody_Some arrow d rotateWidgetNumSamples 3
              (2 * rotateWidgetNumSamples + 5)) as [body (Eb & Ev & Ef)];
    [unfold rotateWidgetNumSamples; lia .. |].
  destruct (glVertexAt_Some arrow 0) as [h0 [L0 E0]]; [lia |].
  destruct (glVertexAt_Some arrow 1) as [h1 [L1 E1]]; [lia |].
  destruct (glVertexAt_Some arrow 2) as [h2 [L2 E2]]; [lia |].
  destruct (glVertexAt_Some arrow (rotateWidgetNumSamples + 3)) as [g0 [M0 F0]];
    [unfold rotateWidgetNumSamples; lia |].
  destruct (glVertexAt_Some arrow (rotateWidgetNumSamples + 4)) as [g1 [M1 F1]];
    [unfold rotateWidgetNumSamples; lia |].
  destruct (glVertexAt_Some arrow (rotateWidgetNumSamples + 5)) as [g2 [M2 F2]];
    [unfold rotateWidgetNumSamples; lia |].
  exists body.
  exists [glVertex2d (vx h0) (vy h0); glVertex2d (vx h1) (vy h1);
          glVertex2d (vx h2) (vy h2); glVertex2d (vx g0) (vy g0);
          glVertex2d (vx g1) (vy g1); glVertex2d (vx g2) (vy g2)].
  split; [| split; [| split]].
  - unfold glFillArrow_. cbv zeta. rewrite Eb, E0, E1, E2, F0, F1, F2. reflexivity.
  - eapply Forall_impl; [exact Ef |]. intros c Hc. exact Hc.
  - repeat constructor; eexists _, _; reflexivity.
  - rewrite Ev. unfold fillOrder. cbv zeta. rewrite fmap_app. f_equal.
    cbn [fmap list_fmap glVertices omap list_omap].
    rewrite (nth_lookup_Some _ _ d _ L0), (nth_lookup_Some _ _ d _ L1),
      (nth_lookup_Some _ _ d _ L2), (nth_lookup_Some _ _ d _ M0),
      (nth_lookup_Some _ _ d _ M1), (nth_lookup_Some _ _ d _ M2).
    destruct h0, h1, h2, g0, g1, g2. reflexivity.
Qed.

Lemma fmap_nth_seq (arrow : list (Vec2 D)) (d : Vec2 D) (m : nat) :
  (fun j => nth j arrow d) <$> seq 0 m = take m arrow ++ replicate (m - length arrow) d.
Proof.
  apply list_eq. intros i. rewrite list_lookup_fmap.
  destruct (decide (i < m)%nat) as [Hi | Hi].
  - rewrite lookup_seq_lt by exact Hi. simpl.
    destruct (decide (i < length arrow)%nat) as [Hj | Hj].
    + rewrite lookup_app_l by (rewrite length_take; lia).
      rewrite lookup_take_lt by exact Hi.
      destruct (lookup_lt_is_Some_2 arrow i Hj) as [p Hp].
      rewrite Hp, (nth_lookup_Some _ _ d _ Hp). reflexivity.
    + rewrite lookup_app_r by (rewrite length_take; lia).
      rewrite length_take, nth_overflow by lia.
      symmetry. apply lookup_replicate_2. lia.
  - rewrite lookup_seq_ge by lia. simpl. symmetry. apply lookup_ge_None.
    rewrite length_app, length_take, length_replicate. lia.
Qed.
End FilledFacts.

Section FillArrow.
Context {D : Type} {SD : Scalar D} {BB : Type} {BO : BoundingBoxOps D BB}.

Lemma glFillArrow_vertices (arrow : list (Vec2 D)) (fill : list (GLCall D)) :
  glFillArrow_ arrow = Some fill ->
  (2 * rotateWidgetNumSamples + 6 <= length arrow)%nat ->
  glVertices fill ≡ₚ take (2 * rotateWidgetNumSamples + 6) arrow.
Proof.
  intros Hf Hlen.
  set (d := mkVec2 (d_of_Z 0) (d_of_Z 0)).
  destruct (glFillArrow_Some arrow d Hlen) as (body & heads & E & Hb & Hh & Ev).
  assert (glVertices fill = glVertices body ++ glVertices heads) as ->.
  { assert (fill = [glBegin GL_TRIANGLE_STRIP] ++ body
                   ++ [glEnd; glBegin GL_TRIANGLES] ++ heads ++ [glEnd]) as ->
      by congruence.
    unfold glVertices. rewrite !omap_app. simpl. rewrite app_nil_r. reflexivity. }
  rewrite Ev, fillOrder_permutation, fmap_nth_seq.
  replace (2 * rotateWidgetNumSamples + 6 - length arrow)%nat with 0%nat by lia.
  simpl. rewrite app_nil_r. reflexivity.
Qed.

Lemma glFillArrow_is_Some (arrow : list (Vec2 D)) :
  is_Some (glFillArrow_ arrow) <-> (2 * rotateWidgetNumSamples + 6 <= length arrow)%nat.
Proof.
  split.
  - intros [fill Hf]. unfold glFillArrow_ in Hf. cbv zeta in Hf.
    destruct (fillArrowBody arrow rotateWidgetNumSamples 3
                (2 * rotateWidgetNumSamples + 5)) as [body |] eqn:Eb; [| discriminate].
    assert (2 * rotateWidgetNumSamples + 5 < length arrow)%nat; [| lia].
    apply (fillArrowBody_is_Some arrow (Nat.pred rotateWidgetNumSamples) 3).
    change (S (Nat.pred rotateWidgetNumSamples)) with rotateWidgetNumSamples.
    rewrite Eb. eexists; reflexivity.
  - intros Hlen.
    destruct (glFillArrow_Some arrow (mkVec2 (d_of_Z 0) (d_of_Z 0)) Hlen)
      as (body & heads & E & _).
    rewrite E. eexists; reflexivity.
Qed.

Lemma computeArrow_length (id : TransformTool.WidgetId) (bb : BB) (zoom : D) :
  length (computeArrow_ id bb zoom) = (2 * rotateWidgetNumSamples + 6)%nat.
Proof. apply (computeArrow_points id bb zoom). Qed.

(** X16. [glFillArrow_] reads its argument at the indices 0 .. 2n+5 and at
    no other: it stays within the vector exactly when the vector has at
    least 2n+6 points, and then the vertices of its triangle strip and of
    its two triangles are the first 2n+6 points, each emitted once, in
    another order.  On the contour [computeArrow_] returns it always stays
    within the vector, and it emits the very points [glStrokeArrow_]
    emits, which are the whole contour in order: the filled arrow and its
    outline have the same points. *)
Theorem glFillArrow_covers_contour :
  forall arrow : list (Vec2 D),
    let n := rotateWidgetNumSamples in
    (is_Some (glFillArrow_ arrow) <-> (2 * n + 6 <= length arrow)%nat)
    /\ (forall fill, glFillArrow_ arrow = Some fill ->
          glVertices fill ≡ₚ take (2 * n + 6) arrow)
    /\ (forall (id : TransformTool.WidgetId) (bb : BB) (zoom : D),
          exists fill,
            glFillArrow_ (computeArrow_ id bb zoom) = Some fill
            /\ glVertices fill ≡ₚ glVertices (glStrokeArrow_ (computeArrow_ id bb zoom))
            /\ glVertices (glStrokeArrow_ (computeArrow_ id bb zoom))
               = computeArrow_ id bb zoom).
Proof.
  intros arrow n. split; [apply glFillArrow_is_Some |]. split.
  - intros fill Hf. apply glFillArrow_vertices; [exact Hf |].
    apply glFillArrow_is_Some. rewrite Hf. eexists; reflexivity.
  - intros id bb zoom.
    pose proof (computeArrow_length id bb zoom) as Hlen.
    destruct (proj2 (glFillArrow_is_Some (computeArrow_ id bb zoom))) as [fill Hf];
      [lia |].
    exists fill. split; [exact Hf |]. split; [| apply glStrokeArrow_vertices].
    rewrite glStrokeArrow_vertices.
    rewrite (glFillArrow_vertices _ _ Hf) by lia.
    rewrite <- Hlen, firstn_all. reflexivity.
Qed.
End FillArrow.

Section DrawFacts.
Context {D : Type} {SD : Scalar D} {BB : Type} {BO : BoundingBoxOps D BB}.
Context {Time : Type}.
Variable boundingBox : VAC BB Time -> Cell -> Time -> BB.
Variable isProper : BB -> bool.

(** What the two rotate-widget procedures emit, from the same fill. *)
Lemma drawRotateWidget_fill (st : ToolState D) (id : TransformTool.WidgetId)
    (bb : BB) (zoom : D) :
  exists fill shown,
    drawRotateWidget_ st id bb zoom = Some shown
    /\ drawPickRotateWidget_ st id bb zoom
       = Some (Picking_glColor (glPickColor_ st id) :: fill)
    /\ closedCalls shown /\ closedCalls (Picking_glColor (glPickColor_ st id) :: fill)
    /\ filledPrimitives false shown = fill
    /\ filledPrimitives false (Picking_glColor (glPickColor_ st id) :: fill) = fill
    /\ pickIds fill = []
    /\ Forall (fun c => isColorCall c = false) fill.
Proof.
  pose proof (computeArrow_length id bb zoom) as Hlen.
  destruct (glFillArrow_Some (computeArrow_ id bb zoom) (mkVec2 (d_of_Z 0) (d_of_Z 0)))
    as (body & heads & E & Hb & Hh & _); [lia |].
  remember ([glBegin GL_TRIANGLE_STRIP] ++ body
            ++ [glEnd; glBegin GL_TRIANGLES] ++ heads ++ [glEnd]) as fill eqn:Efill.
  assert (forall rest, filledPrimitives false (fill ++ rest)
                       = fill ++ filledPrimitives false rest) as Hfill.
  { intros rest. rewrite Efill. rewrite <- !app_assoc. simpl.
    rewrite (filledPrimitives_vertices true body) by exact Hb. simpl.
    rewrite (filledPrimitives_vertices true heads) by exact Hh. simpl.
    reflexivity. }
  assert (filledPrimitives false fill = fill) as Hfill0.
  { rewrite <- (app_nil_r fill) at 1. rewrite Hfill. simpl. apply app_nil_r. }
  exists fill. eexists. unfold drawRotateWidget_, drawPickRotateWidget_. cbv zeta.
  rewrite E. simpl mbind.
  split; [reflexivity |]. split; [reflexivity |].
  split; [| split; [| split; [| split; [| split]]]].
  - intros rest. cbn [app filledPrimitives]. rewrite <- ?app_assoc.
    rewrite !Hfill. cbn [app filledPrimitives].
    rewrite glStrokeArrow_filled, (proj2 (glStrokeArrow_closed _)), app_nil_r.
    reflexivity.
  - intros rest. cbn [app filledPrimitives]. rewrite Hfill, Hfill0. reflexivity.
  - cbn [app filledPrimitives]. rewrite Hfill. cbn [app filledPrimitives].
    rewrite (proj2 (glStrokeArrow_closed _)). apply app_nil_r.
  - cbn [app filledPrimitives]. exact Hfill0.
  - rewrite Efill, !pickIds_app, (pickIds_vertices body Hb),
      (pickIds_vertices heads Hh). reflexivity.
  - rewrite Efill, !Forall_app. repeat split.
    + repeat constructor.
    + eapply Forall_impl; [exact Hb |]. intros c [x [y ->]]. reflexivity.
    + repeat constructor.
    + eapply Forall_impl; [exact Hh |]. intros c [x [y ->]]. reflexivity.
    + repeat constructor.
Qed.

Lemma drawScaleWidget_fill (st : ToolState D) (id : TransformTool.WidgetId)
    (bb : BB) (size zoom : D) :
  closedCalls (drawScaleWidget_ st id bb size zoom)
  /\ closedCalls (drawPickScaleWidget_ st id bb size zoom)
  /\ filledPrimitives false (drawScaleWidget_ st id bb size zoom)
     = filledPrimitives false (drawPickScaleWidget_ st id bb size zoom)
  /\ pickIds (drawPickScaleWidget_ st id bb size zoom) = [glPickColor_ st id]
  /\ Forall (fun c => forall v, c <> glColor4dv v)
            (drawPickScaleWidget_ st id bb size zoom).
Proof.
  split; [| split; [| split; [| split]]].
  - intros rest. reflexivity.
  - intros rest. reflexivity.
  - reflexivity.
  - reflexivity.
  - repeat constructor; intros v; discriminate.
Qed.

(** A loop over widgets of closed pieces with the same filled primitives. *)
Lemma concat_filled (f g : TransformTool.WidgetId -> list (GLCall D))
    (ws : list TransformTool.WidgetId) :
  (forall id, closedCalls (f id) /\ closedCalls (g id)
              /\ filledPrimitives false (f id) = filledPrimitives false (g id)) ->
  closedCalls (concat (f <$> ws)) /\ closedCalls (concat (g <$> ws))
  /\ filledPrimitives false (concat (f <$> ws))
     = filledPrimitives false (concat (g <$> ws)).
Proof.
  intros H. induction ws as [| w ws (IH1 & IH2 & IH3)].
  - split; [apply closedCalls_nil |]. split; [apply closedCalls_nil | reflexivity].
  - destruct (H w) as (H1 & H2 & H3). rewrite !fmap_cons. cbn [concat].
    split; [apply closedCalls_app; assumption |].
    split; [apply closedCalls_app; assumption |].
    rewrite (filledPrimitives_app _ _ H1), (filledPrimitives_app _ _ H2), H3, IH3.
    reflexivity.
Qed.

Lemma concatCalls_rotate (st : ToolState D) (bb : BB) (zoom : D)
    (ws : list TransformTool.WidgetId) :
  exists shown picked,
    concatCalls ((fun id => drawRotateWidget_ st id bb zoom) <$> ws) = Some shown
    /\ concatCalls ((fun id => drawPickRotateWidget_ st id bb zoom) <$> ws) = Some picked
    /\ closedCalls shown /\ closedCalls picked
    /\ filledPrimitives false shown = filledPrimitives false picked
    /\ pickIds picked = glPickColor_ st <$> ws
    /\ Forall (fun c => forall v, c <> glColor4dv v) picked.
Proof.
  induction ws as [| w ws (shown & picked & E1 & E2 & C1 & C2 & F & P & N)].
  - exists [], []. repeat split; try reflexivity; try apply closedCalls_nil.
    constructor.
  - destruct (drawRotateWidget_fill st w bb zoom)
      as (fill & shownw & Ew1 & Ew2 & Cw1 & Cw2 & Fw1 & Fw2 & Pw & Nw).
    exists (shownw ++ shown), ((Picking_glColor (glPickColor_ st w) :: fill) ++ picked).
    rewrite !fmap_cons. cbn [concatCalls]. rewrite Ew1, Ew2, E1, E2.
    split; [reflexivity |]. split; [reflexivity |].
    split; [apply closedCalls_app; assumption |].
    split; [apply closedCalls_app; assumption |].
    split; [| split].
    + rewrite (filledPrimitives_app _ _ Cw1), (filledPrimitives_app _ _ Cw2), Fw1, Fw2, F.
      reflexivity.
    + rewrite pickIds_app, P. cbn [pickIds omap list_omap].
      change (omap _ fill) with (pickIds fill). rewrite Pw. reflexivity.
    + apply Forall_app. split; [| exact N]. constructor; [intros v; discriminate |].
      eapply Forall_impl; [exact Nw |]. intros c Hc v ->. discriminate.
Qed.

(** X17. [draw] and [drawPick] never read an arrow out of range, for any
    tool state, selection, time and zoom, and they issue no OpenGL command
    at all exactly when the bounding box of the selection is not proper;
    when it is proper both issue commands. *)
Theorem draw_reads_in_range :
  forall (st : ToolState D) (vac : VAC BB Time) (cells : gset Cell) (time : Time)
         (zoom : D),
    let bb := boundingBoxOf boundingBox vac cells time in
    exists shown picked,
      draw boundingBox isProper st vac cells time zoom = Some shown
      /\ drawPick boundingBox isProper st vac cells time zoom = Some picked
      /\ (shown = [] <-> isProper bb = false)
      /\ (picked = [] <-> isProper bb = false).
Proof.
  intros st vac cells time zoom bb.
  destruct (concatCalls_rotate st bb zoom rotateWidgets)
    as (shown & picked & E1 & E2 & _).
  unfold draw, drawPick. cbv zeta. fold bb. rewrite E1, E2.
  destruct (isProper bb).
  - eexists _, _. split; [reflexivity |]. split; [reflexivity |].
    split; (split; [discriminate | discriminate]).
  - exists [], []. repeat split; reflexivity.
Qed.

(** X18. What can be picked is what is shown filled: the filled primitives
    ([GL_QUADS], [GL_TRIANGLE_STRIP], [GL_TRIANGLES], with their vertices
    in order) issued by [drawPick] are exactly those issued by [draw], for
    any tool state, selection, time and zoom.  The outlines, colours and
    line width of [draw] add no filled primitive. *)
Theorem drawPick_fills_what_draw_fills :
  forall (st : ToolState D) (vac : VAC BB Time) (cells : gset Cell) (time : Time)
         (zoom : D),
    exists shown picked,
      draw boundingBox isProper st vac cells time zoom = Some shown
      /\ drawPick boundingBox isProper st vac cells time zoom = Some picked
      /\ filledPrimitives false shown = filledPrimitives false picked.
Proof.
  intros st vac cells time zoom.
  set (bb := boundingBoxOf boundingBox vac cells time).
  destruct (concatCalls_rotate st bb zoom rotateWidgets)
    as (shown & picked & E1 & E2 & C1 & C2 & F & _).
  unfold draw, drawPick. cbv zeta. fold bb. rewrite E1, E2.
  destruct (isProper bb); [| exists [], []; repeat split; reflexivity].
  eexists _, _. split; [reflexivity |]. split; [reflexivity |].
  destruct (concat_filled
              (fun id => drawScaleWidget_ st id bb scaleWidgetCornerSize zoom)
              (fun id => drawPickScaleWidget_ st id bb scaleWidgetCornerSize zoom)
              cornerScaleWidgets) as (Cc1 & Cc2 & Fc).
  { intros id. destruct (drawScaleWidget_fill st id bb scaleWidgetCornerSize zoom)
      as (H1 & H2 & H3 & _). auto. }
  destruct (concat_filled
              (fun id => drawScaleWidget_ st id bb scaleWidgetEdgeSize zoom)
              (fun id => drawPickScaleWidget_ st id bb scaleWidgetEdgeSize zoom)
              edgeScaleWidgets) as (Ce1 & Ce2 & Fe).
  { intros id. destruct (drawScaleWidget_fill st id bb scaleWidgetEdgeSize zoom)
      as (H1 & H2 & H3 & _). auto. }
  cbn [app filledPrimitives].
  rewrite (filledPrimitives_app _ _ (proj1 (glStrokeBoundingBox_closed _))),
    (proj2 (glStrokeBoundingBox_closed _)).
  cbn [app filledPrimitives].
  rewrite (filledPrimitives_app _ _ (proj1 (glStrokeBoundingBox_closed _))),
    (proj2 (glStrokeBoundingBox_closed _)).
  cbn [app].
  rewrite (filledPrimitives_app _ _ Cc1), (filledPrimitives_app _ _ Ce1),
    (filledPrimitives_app _ _ Cc2), (filledPrimitives_app _ _ Ce2), Fc, Fe, F.
  reflexivity.
Qed.

Lemma setHoveredObject_glPickColor (st : ToolState D) (id : TransformTool.WidgetId) :
  id <> TransformTool.None ->
  hovered (setHoveredObject st (glPickColor_ st id)) = id.
Proof.
  intros Hid. rewrite setHoveredObject_hovered. cbv zeta. unfold glPickColor_.
  pose proof (widget_toInt_range id Hid) as Hrange.
  rewrite IntFacts.pick_round_trip.
  - rewrite decide_True by exact Hrange. apply widget_ofInt_toInt.
  - clear. unfold Int.in_range, Int.min_signed, Int.max_signed.
    destruct id; simpl; lia.
Qed.

Lemma pickIds_concat_scale (st : ToolState D) (bb : BB) (size zoom : D)
    (ws : list TransformTool.WidgetId) :
  pickIds (concat ((fun id => drawPickScaleWidget_ st id bb size zoom) <$> ws))
  = glPickColor_ st <$> ws
  /\ Forall (fun c => forall v, c <> glColor4dv v)
            (concat ((fun id => drawPickScaleWidget_ st id bb size zoom) <$> ws)).
Proof.
  induction ws as [| w ws [IH1 IH2]]; [split; [reflexivity | constructor] |].
  rewrite !fmap_cons. cbn [concat].
  destruct (drawScaleWidget_fill st w bb size zoom) as (_ & _ & _ & P & N).
  split.
  - rewrite pickIds_app, P, IH1. reflexivity.
  - apply Forall_app. split; assumption.
Qed.

(** X19. When the bounding box of the selection is proper, [drawPick] sets
    twelve pick ids: those of the four corner scale widgets, of the four
    edge scale widgets and of the four rotate widgets, in the order of the
    three loops.  They are pairwise distinct, every widget other than
    [None] has its id among them, and [setHoveredObject] on any of them
    sets a hovered widget whose pick id it is.  [drawPick] sets no display
    colour. *)
Theorem drawPick_ids_decode :
  forall (st : ToolState D) (vac : VAC BB Time) (cells : gset Cell) (time : Time)
         (zoom : D),
    isProper (boundingBoxOf boundingBox vac cells time) = true ->
    exists picked,
      drawPick boundingBox isProper st vac cells time zoom = Some picked
      /\ pickIds picked
         = glPickColor_ st <$> (cornerScaleWidgets ++ edgeScaleWidgets ++ rotateWidgets)
      /\ NoDup (pickIds picked)
      /\ (forall w, w <> TransformTool.None -> glPickColor_ st w ∈ pickIds picked)
      /\ (forall id, id ∈ pickIds picked ->
            hovered (setHoveredObject st id) <> TransformTool.None
            /\ glPickColor_ st (hovered (setHoveredObject st id)) = id)
      /\ Forall (fun c => forall v, c <> glColor4dv v) picked.
Proof.
  intros st vac cells time zoom Hproper.
  set (bb := boundingBoxOf boundingBox vac cells time) in *.
  destruct (concatCalls_rotate st bb zoom rotateWidgets)
    as (shown & picked & _ & E2 & _ & _ & _ & P & N).
  destruct (pickIds_concat_scale st bb scaleWidgetCornerSize zoom cornerScaleWidgets)
    as [Pc Nc].
  destruct (pickIds_concat_scale st bb scaleWidgetEdgeSize zoom edgeScaleWidgets)
    as [Pe Ne].
  unfold drawPick. cbv zeta. fold bb. rewrite E2, Hproper.
  eexists. split; [reflexivity |].
  assert (pickIds
            (concat ((fun id => drawPickScaleWidget_ st id bb scaleWidgetCornerSize zoom)
                       <$> cornerScaleWidgets)
             ++ concat ((fun id => drawPickScaleWidget_ st id bb scaleWidgetEdgeSize zoom)
                          <$> edgeScaleWidgets)
             ++ picked)
          = glPickColor_ st <$> (cornerScaleWidgets ++ edgeScaleWidgets ++ rotateWidgets))
    as Hids.
  { rewrite !pickIds_app, Pc, Pe, P, !fmap_app. reflexivity. }
  assert (forall w, w <> TransformTool.None ->
                    w ∈ cornerScaleWidgets ++ edgeScaleWidgets ++ rotateWidgets) as Hall.
  { intros w Hw. unfold cornerScaleWidgets, edgeScaleWidgets, rotateWidgets.
    apply list_elem_of_In. destruct w; [congruence | ..]; simpl; tauto. }
  assert (forall w, w ∈ cornerScaleWidgets ++ edgeScaleWidgets ++ rotateWidgets ->
                    w <> TransformTool.None) as Hnone.
  { intros w Hw ->. apply list_elem_of_In in Hw. simpl in Hw.
    intuition discriminate. }
  split; [exact Hids |]. rewrite Hids. split; [| split; [| split]].
  - apply NoDup_fmap_2_strong.
    + intros w w' Hw Hw' E.
      rewrite <- (setHoveredObject_glPickColor st w (Hnone w Hw)),
        <- (setHoveredObject_glPickColor st w' (Hnone w' Hw')), E.
      reflexivity.
    + apply NoDup_ListNoDup. repeat constructor; simpl; intuition discriminate.
  - intros w Hw. apply list_elem_of_fmap. exists w. split; [reflexivity | auto].
  - intros id Hid. apply list_elem_of_fmap in Hid. destruct Hid as [w [-> Hw]].
    rewrite (setHoveredObject_glPickColor st w (Hnone w Hw)).
    split; [apply Hnone, Hw | reflexivity].
  - apply Forall_app. split; [exact Nc |]. apply Forall_app. split; assumption.
Qed.
End DrawFacts.

(** ** The glBegin/glEnd protocol *)

Section ProtocolFacts.
Context {D : Type} {SD : Scalar D} {BB : Type} {BO : BoundingBoxOps D BB}.
Context {Time : Type}.
Variable boundingBox : VAC BB Time -> Cell -> Time -> BB.
Variable isProper : BB -> bool.

Lemma wellFormed_app (a b : list (GLCall D)) :
  forall current,
    wellFormed current a = true ->
    wellFormed current (a ++ b) = wellFormed None b.
Proof.
  induction a as [| c a IH]; intros current Ha.
  - destruct current; [discriminate | reflexivity].
  - destruct c, current as [[m k] |]; simpl in Ha |- *; try discriminate;
      try (apply IH; exact Ha).
    apply andb_true_iff in Ha as [Hk Ha]. rewrite Hk. simpl. apply IH, Ha.
Qed.

Lemma wellFormed_concat (l : list (list (GLCall D))) :
  Forall (fun a => wellFormed None a = true) l -> wellFormed None (concat l) = true.
Proof.
  induction 1 as [| a l Ha _ IH]; [reflexivity |].
  cbn [concat]. rewrite (wellFormed_app a _ None Ha). exact IH.
Qed.

Lemma wellFormed_vertices (mode : GLMode) (body rest : list (GLCall D)) :
  Forall isVertexCall body ->
  forall k, wellFormed (Some (mode, k)) (body ++ rest)
            = wellFormed (Some (mode, (k + length body)%nat)) rest.
Proof.
  induction 1 as [| c body [x [y ->]] _ IH]; intros k.
  - rewrite Nat.add_0_r. reflexivity.
  - cbn [app wellFormed length]. rewrite IH. f_equal. f_equal. f_equal. lia.
Qed.

Lemma glVertexAt_isVertexCall (arrow : list (Vec2 D)) (i : nat) (c : GLCall D) :
  glVertexAt arrow i = Some c -> isVertexCall c.
Proof.
  unfold glVertexAt. destruct (arrow !! i) as [p |]; [| discriminate].
  intros E. injection E as <-. eexists _, _. reflexivity.
Qed.

Lemma fillArrowBody_shape (arrow : list (Vec2 D)) (k : nat) :
  forall lo hi body,
    fillArrowBody arrow k lo hi = Some body ->
    Forall isVertexCall body /\ length body = (2 * k)%nat.
Proof.
  induction k as [| k IH]; intros lo hi body Hb.
  - injection Hb as <-. split; [constructor | reflexivity].
  - cbn [fillArrowBody] in Hb.
    destruct (glVertexAt arrow lo) as [a |] eqn:Ea; [| discriminate].
    destruct (glVertexAt arrow hi) as [b |] eqn:Eb; [| discriminate].
    destruct (fillArrowBody arrow k (S lo) (Nat.pred hi)) as [rest |] eqn:Er;
      [| discriminate].
    injection Hb as <-. destruct (IH _ _ _ Er) as [Hf Hl].
    split.
    + constructor; [exact (glVertexAt_isVertexCall _ _ _ Ea) |].
      constructor; [exact (glVertexAt_isVertexCall _ _ _ Eb) | exact Hf].
    + cbn [length]. rewrite Hl. lia.
Qed.

Lemma glFillArrow_shape (arrow : list (Vec2 D)) (fill : list (GLCall D)) :
  glFillArrow_ arrow = Some fill ->
  exists body heads,
    fill = [glBegin GL_TRIANGLE_STRIP] ++ body
           ++ [glEnd; glBegin GL_TRIANGLES] ++ heads ++ [glEnd]
    /\ Forall isVertexCall body /\ length body = (2 * rotateWidgetNumSamples)%nat
    /\ Forall isVertexCall heads /\ length heads = 6%nat.
Proof.
  unfold glFillArrow_. cbv zeta. intros Hf.
  destruct (fillArrowBody arrow rotateWidgetNumSamples 3
              (2 * rotateWidgetNumSamples + 5)) as [body |] eqn:Eb; [| discriminate].
  destruct (glVertexAt arrow 0) as [h0 |] eqn:E0; [| discriminate].
  destruct (glVertexAt arrow 1) as [h1 |] eqn:E1; [| discriminate].
  destruct (glVertexAt arrow 2) as [h2 |] eqn:E2; [| discriminate].
  destruct (glVertexAt arrow (rotateWidgetNumSamples + 3)) as [g0 |] eqn:F0;
    [| discriminate].
  destruct (glVertexAt arrow (rotateWidgetNumSamples + 4)) as [g1 |] eqn:F1;
    [| discriminate].
  destruct (glVertexAt arrow (rotateWidgetNumSamples + 5)) as [g2 |] eqn:F2;
    [| discriminate].
  injection Hf as <-.
  destruct (fillArrowBody_shape _ _ _ _ _ Eb) as [Hb Hl].
  exists body, [h0; h1; h2; g0; g1; g2].
  split; [reflexivity |]. split; [exact Hb |]. split; [exact Hl |].
  split; [| reflexivity].
  repeat (constructor; [eapply glVertexAt_isVertexCall; eassumption |]). constructor.
Qed.

Lemma glFillArrow_wellFormed (arrow : list (Vec2 D)) (fill rest : list (GLCall D)) :
  glFillArrow_ arrow = Some fill ->
  wellFormed None (fill ++ rest) = wellFormed None rest.
Proof.
  intros Hf. destruct (glFillArrow_shape arrow fill Hf)
    as (body & heads & -> & Hb & Hlb & Hh & Hlh).
  rewrite <- !app_assoc. cbn [app wellFormed].
  rewrite (wellFormed_vertices _ body) by exact Hb. rewrite Hlb.
  cbn [app wellFormed].
  change (completePrimitive GL_TRIANGLE_STRIP (0 + 2 * rotateWidgetNumSamples)) with true.
  cbn [andb].
  rewrite (wellFormed_vertices _ heads) by exact Hh. rewrite Hlh.
  cbn [app wellFormed]. reflexivity.
Qed.

Lemma glStrokeArrow_wellFormed (arrow : list (Vec2 D)) (rest : list (GLCall D)) :
  (2 <= length arrow)%nat ->
  wellFormed None (glStrokeArrow_ arrow ++ rest) = wellFormed None rest.
Proof.
  intros Hlen. unfold glStrokeArrow_. rewrite <- !app_assoc. cbn [app wellFormed].
  rewrite wellFormed_vertices by apply Forall_isVertexCall_fmap.
  rewrite length_fmap. cbn [app wellFormed completePrimitive].
  assert ((2 <=? 0 + length arrow)%nat = true) as -> by (apply Nat.leb_le; lia).
  reflexivity.
Qed.

Lemma drawRotateWidget_wellFormed (st : ToolState D) (id : TransformTool.WidgetId)
    (bb : BB) (zoom : D) :
  exists shown picked,
    drawRotateWidget_ st id bb zoom = Some shown
    /\ drawPickRotateWidget_ st id bb zoom = Some picked
    /\ wellFormed None shown = true /\ wellFormed None picked = true.
Proof.
  pose proof (computeArrow_length id bb zoom) as Hlen.
  destruct (proj2 (glFillArrow_is_Some (computeArrow_ id bb zoom))) as [fill Hf];
    [lia |].
  unfold drawRotateWidget_, drawPickRotateWidget_. cbv zeta. rewrite Hf.
  eexists _, _. split; [reflexivity |]. split; [reflexivity |]. split.
  - cbn [app wellFormed]. rewrite (glFillArrow_wellFormed _ _ _ Hf).
    cbn [app wellFormed].
    rewrite <- (app_nil_r (glStrokeArrow_ _)).
    rewrite glStrokeArrow_wellFormed; [reflexivity |].
    rewrite Hlen. unfold rotateWidgetNumSamples. lia.
  - cbn [app wellFormed]. rewrite <- (app_nil_r fill).
    rewrite (glFillArrow_wellFormed _ _ _ Hf). reflexivity.
Qed.

Lemma concatCalls_wellFormed (st : ToolState D) (bb : BB) (zoom : D)
    (ws : list TransformTool.WidgetId) :
  exists shown picked,
    concatCalls ((fun id => drawRotateWidget_ st id bb zoom) <$> ws) = Some shown
    /\ concatCalls ((fun id => drawPickRotateWidget_ st id bb zoom) <$> ws) = Some picked
    /\ wellFormed None shown = true /\ wellFormed None picked = true.
Proof.
  induction ws as [| w ws (shown & picked & E1 & E2 & W1 & W2)].
  - exists [], []. repeat split; reflexivity.
  - destruct (drawRotateWidget_wellFormed st w bb zoom)
      as (shownw & pickedw & Ew1 & Ew2 & Ww1 & Ww2).
    exists (shownw ++ shown), (pickedw ++ picked).
    rewrite !fmap_cons. cbn [concatCalls]. rewrite Ew1, Ew2, E1, E2.
    split; [reflexivity |]. split; [reflexivity |].
    rewrite (wellFormed_app _ _ None Ww1), (wellFormed_app _ _ None Ww2).
    split; assumption.
Qed.

(** X21. [draw] and [drawPick] respect the [glBegin]/[glEnd] protocol, for
    any tool state, selection, time and zoom: no primitive is opened inside
    another or left open, every vertex is emitted inside a primitive,
    colours, pick ids and the line width are set between primitives only,
    and every primitive is complete for its mode (quads by four vertices,
    triangles by three, a triangle strip of at least three, a line loop of
    at least two). *)
Theorem draw_respects_glBegin_glEnd :
  forall (st : ToolState D) (vac : VAC BB Time) (cells : gset Cell) (time : Time)
         (zoom : D),
    exists shown picked,
      draw boundingBox isProper st vac cells time zoom = Some shown
      /\ drawPick boundingBox isProper st vac cells time zoom = Some picked
      /\ wellFormed None shown = true
      /\ wellFormed None picked = true.
Proof.
  intros st vac cells time zoom.
  set (bb := boundingBoxOf boundingBox vac cells time).
  destruct (concatCalls_wellFormed st bb zoom rotateWidgets)
    as (shown & picked & E1 & E2 & W1 & W2).
  unfold draw, drawPick. cbv zeta. fold bb. rewrite E1, E2.
  destruct (isProper bb); [| exists [], []; repeat split; reflexivity].
  eexists _, _. split; [reflexivity |]. split; [reflexivity |].
  assert (forall size ws,
             wellFormed None (concat ((fun id => drawScaleWidget_ st id bb size zoom)
                                        <$> ws)) = true) as Hs.
  { intros size ws. apply wellFormed_concat, Forall_fmap, Forall_true.
    intros id. reflexivity. }
  assert (forall size ws,
             wellFormed None (concat ((fun id => drawPickScaleWidget_ st id bb size zoom)
                                        <$> ws)) = true) as Hp.
  { intros size ws. apply wellFormed_concat, Forall_fmap, Forall_true.
    intros id. reflexivity. }
  split.
  - cbn [app wellFormed].
    rewrite (wellFormed_app (glStrokeBoundingBox_ _) _ None) by reflexivity.
    cbn [app wellFormed].
    rewrite (wellFormed_app (glStrokeBoundingBox_ _) _ None) by reflexivity.
    rewrite (wellFormed_app _ _ None (Hs _ _)), (wellFormed_app _ _ None (Hs _ _)).
    exact W1.
  - rewrite (wellFormed_app _ _ None (Hp _ _)), (wellFormed_app _ _ None (Hp _ _)).
    exact W2.
Qed.
End ProtocolFacts.

(** ** Checks on concrete inputs *)

(** C1 on the complex of one edge: selecting the edge caches its two
    vertices. *)
Lemma beginTransform_caches_closure_witness :
  let st := hoveringTool (D:=float) TransformTool.TopLeftScale PrimFloat.zero in
  let cells : gset Cell := {[keyEdgeCell e3]} in
  let st' := (beginTransform (SD:=float_scale_only) noKeyframe st (edgeVAC box10)
                cells PrimFloat.zero PrimFloat.zero tt).1.1 in
  hovered st <> TransformTool.None /\ cells <> ∅
  /\ v1 ∈ draggedVertices_ st' /\ v2 ∈ draggedVertices_ st'.
Proof.
  cbv zeta.
  assert (hovered (hoveringTool (D:=float) TransformTool.TopLeftScale PrimFloat.zero)
          <> TransformTool.None) as Hh by discriminate.
  assert (({[keyEdgeCell e3]} : gset Cell) <> ∅) as Hc by apply non_empty_singleton_L.
  pose proof (beginTransform_caches_closure (SD:=float_scale_only) noKeyframe
                _ (edgeVAC box10) _ PrimFloat.zero PrimFloat.zero tt Hh Hc) as T.
  cbv zeta in T. destruct T as (_ & Hext & _ & _ & _ & He & Hev).
  assert (e3 ∈ draggedEdges_
            (beginTransform (SD:=float_scale_only) noKeyframe
               (hoveringTool TransformTool.TopLeftScale PrimFloat.zero)
               (edgeVAC box10) {[keyEdgeCell e3]} PrimFloat.zero PrimFloat.zero tt).1.1)
    as Hedge.
  { apply He, Hext. vm_compute. reflexivity. }
  split; [exact Hh |]. split; [exact Hc |].
  split; apply (Hev e3); try exact Hedge; vm_compute; reflexivity.
Defined.


(** C3 on the scenario of the spec, in binary64: with the edge selected
    the drag to (5,5) hands the scale by 5/10 about the pivot to the cached
    cells. *)
Lemma continueTransform_selects_transform_witness :
  let st := scenarioTool (D:=float) in
  let cells : gset Cell := {[keyEdgeCell e3]} in
  let half := PrimFloat.div (float_of_Z 5) (float_of_Z 10) in
  cells <> ∅
  /\ continueTransform st cells (float_of_Z 5) (float_of_Z 5)
     = applyAffine st (makeRelativeToPivot st (Scaling half half)).
Proof.
  cbv zeta.
  assert (({[keyEdgeCell e3]} : gset Cell) <> ∅) as Hc by apply non_empty_singleton_L.
  split; [exact Hc |].
  etransitivity;
    [exact (proj1 (proj2 continueTransform_selects_transform) float float_scale_only
              scenarioTool {[keyEdgeCell e3]} (float_of_Z 5) (float_of_Z 5) Hc) |].
  vm_compute. reflexivity.
Defined.


(** C5 with nothing hovered. *)
Lemma beginTransform_clears_then_guards_witness :
  let st := hoveringTool (D:=float) TransformTool.None PrimFloat.zero in
  let cells : gset Cell := {[keyEdgeCell e3]} in
  hovered st = TransformTool.None
  /\ beginTransform noKeyframe st (edgeVAC box10) cells PrimFloat.one PrimFloat.one tt
     = (clearDragged st, edgeVAC box10, []).
Proof.
  cbv zeta. split; [reflexivity |].
  exact (proj1 (proj2 (beginTransform_clears_then_guards noKeyframe
                         (hoveringTool TransformTool.None PrimFloat.zero)
                         (edgeVAC box10) {[keyEdgeCell e3]}
                         PrimFloat.one PrimFloat.one tt)
                      (or_introl eq_refl))).
Defined.

(** C6 with the id offset 100: the pick id of [TopScale] is 104 and maps
    back to [TopScale]. *)
Lemma setHoveredObject_pick_id_mapping_witness :
  let st := setIdOffset (hoveringTool (D:=float) TransformTool.None PrimFloat.zero) 100 in
  TransformTool.TopScale <> TransformTool.None
  /\ glPickColor_ st TransformTool.TopScale = 104%Z
  /\ hovered (setHoveredObject st (glPickColor_ st TransformTool.TopScale))
     = TransformTool.TopScale.
Proof.
  cbv zeta.
  assert (TransformTool.TopScale <> TransformTool.None) as Hid by discriminate.
  split; [exact Hid |]. split; [reflexivity |].
  exact (proj1 (proj2 (proj2 (proj2
           (setHoveredObject_pick_id_mapping float
              (setIdOffset (hoveringTool TransformTool.None PrimFloat.zero) 100) 0))))
           TransformTool.TopScale Hid).
Defined.

(** C9 on the scenario of the spec, in binary64: the five calls. *)
Lemma continueTransform_call_order_witness :
  let st := scenarioTool (D:=float) in
  let cells : gset Cell := {[keyEdgeCell e3]} in
  let xf := Scaling (PrimFloat.div (float_of_Z 5) (float_of_Z 10))
                    (PrimFloat.div (float_of_Z 5) (float_of_Z 10)) in
  trivialCase st cells = false
  /\ determineAffine st (float_of_Z 5) (float_of_Z 5) = Some xf
  /\ continueTransform st cells (float_of_Z 5) (float_of_Z 5)
     = [KeyEdge_performAffineTransform e3 (makeRelativeToPivot st xf);
        KeyVertex_performAffineTransform v2 (makeRelativeToPivot st xf);
        KeyVertex_performAffineTransform v1 (makeRelativeToPivot st xf);
        KeyVertex_correctEdgesGeometry v2;
        KeyVertex_correctEdgesGeometry v1].
Proof.
  cbv zeta.
  assert (trivialCase (scenarioTool (D:=float)) {[keyEdgeCell e3]} = false) as Hg
      by (vm_compute; reflexivity).
  assert (determineAffine (scenarioTool (D:=float)) (float_of_Z 5) (float_of_Z 5)
          = Some (Scaling (PrimFloat.div (float_of_Z 5) (float_of_Z 10))
                          (PrimFloat.div (float_of_Z 5) (float_of_Z 10)))) as Hxf
      by (vm_compute; reflexivity).
  split; [exact Hg |]. split; [exact Hxf |].
  rewrite (proj1 (continueTransform_call_order scenarioTool {[keyEdgeCell e3]}
                    (float_of_Z 5) (float_of_Z 5)) _ Hg Hxf).
  vm_compute. reflexivity.
Defined.

(** C10 on the scenario of the spec, with two different cell sets. *)
Lemma continueTransform_ignores_cells_witness :
  let A : gset Cell := {[keyEdgeCell e3]} in
  let B : gset Cell := {[keyVertexCell v1; keyVertexCell v2]} in
  A <> ∅ /\ B <> ∅
  /\ continueTransform (scenarioTool (D:=float)) A (float_of_Z 5) (float_of_Z 5)
     = continueTransform (scenarioTool (D:=float)) B (float_of_Z 5) (float_of_Z 5).
Proof.
  cbv zeta.
  assert (({[keyEdgeCell e3]} : gset Cell) <> ∅) as HA by apply non_empty_singleton_L.
  assert (({[keyVertexCell v1; keyVertexCell v2]} : gset Cell) <> ∅) as HB
      by (intros E; apply (f_equal size) in E; vm_compute in E; discriminate).
  split; [exact HA |]. split; [exact HB |].
  exact (proj1 (continueTransform_ignores_cells scenarioTool _ _
                  (float_of_Z 5) (float_of_Z 5) HA HB)).
Defined.

(** C8 in binary64, with both denominators zero: the factors are 5/0 and
    0/0, that is infinity and NaN, and they reach the cached cells. *)
Lemma continueTransform_scale_division_unguarded_witness :
  let st := hoveringTool (D:=float) TransformTool.TopLeftScale PrimFloat.zero in
  let cells : gset Cell := {[keyEdgeCell e3]} in
  let xf := makeRelativeToPivot st
              (Scaling (PrimFloat.div (float_of_Z 5) PrimFloat.zero)
                       (PrimFloat.div PrimFloat.zero PrimFloat.zero)) in
  cells <> ∅
  /\ isCornerScale (hovered st) || isVerticalScale (hovered st)
       || isHorizontalScale (hovered st) = true
  /\ continueTransform st cells (float_of_Z 5) PrimFloat.zero = applyAffine st xf
  /\ a00 xf = PrimFloat.infinity /\ a11 xf = PrimFloat.nan.
Proof.
  cbv zeta.
  assert (({[keyEdgeCell e3]} : gset Cell) <> ∅) as Hc by apply non_empty_singleton_L.
  assert (isCornerScale (hovered (hoveringTool (D:=float) TransformTool.TopLeftScale
                                                PrimFloat.zero))
          || isVerticalScale (hovered (hoveringTool (D:=float) TransformTool.TopLeftScale
                                                    PrimFloat.zero))
          || isHorizontalScale (hovered (hoveringTool (D:=float) TransformTool.TopLeftScale
                                                      PrimFloat.zero)) = true) as Hs
      by reflexivity.
  pose proof (continueTransform_scale_division_unguarded
                (hoveringTool TransformTool.TopLeftScale PrimFloat.zero)
                {[keyEdgeCell e3]} (float_of_Z 5) PrimFloat.zero Hc Hs) as T.
  cbv zeta in T. destruct T as (_ & Hcalls & Hx & Hy).
  split; [exact Hc |]. split; [exact Hs |].
  split; [exact Hcalls |].
  split.
  - etransitivity; [apply Hx; reflexivity |]. vm_compute. reflexivity.
  - etransitivity; [apply Hy; reflexivity |]. vm_compute. reflexivity.
Defined.


(** ** Checks of the further properties on concrete inputs *)

(** The outline box of the scenario is the box [0,0]..[10,10]. *)
Lemma scenario_outline :
  outlineBoundingBoxOf
    (beginTransform noKeyframe (hoveringTool (D:=R) TransformTool.TopLeftScale 0%R)
       (edgeVAC box10) {[keyEdgeCell e3]} 0%R 0%R tt).1.2
    {[keyEdgeCell e3]} tt
  = Some (box10 (D:=R)).
Proof.
  rewrite beginTransform_started by apply (scenarioTool_started (D:=R)).
  cbn [fst snd noKeyframe]. rewrite outlineBoundingBoxOf_singleton. reflexivity.
Qed.

(** X2 on the complex of one edge, in binary64: the selected edge is
    cached. *)
Lemma beginTransform_caches_selected_keys_witness :
  let st := hoveringTool (D:=float) TransformTool.TopLeftScale PrimFloat.zero in
  let cells : gset Cell := {[keyEdgeCell e3]} in
  let st' := (beginTransform (SD:=float_scale_only) noKeyframe st (edgeVAC box10)
                cells PrimFloat.zero PrimFloat.zero tt).1.1 in
  hovered st <> TransformTool.None /\ cells <> ∅
  /\ e3 ∈ draggedEdges_ st' /\ v1 ∈ draggedVertices_ st'.
Proof.
  cbv zeta.
  assert (hovered (hoveringTool (D:=float) TransformTool.TopLeftScale PrimFloat.zero)
          <> TransformTool.None) as Hh by discriminate.
  assert (({[keyEdgeCell e3]} : gset Cell) <> ∅) as Hc by apply non_empty_singleton_L.
  pose proof (beginTransform_caches_selected_keys (SD:=float_scale_only) noKeyframe
                _ (edgeVAC box10) _ PrimFloat.zero PrimFloat.zero tt Hh Hc) as T.
  cbv zeta in T. destruct T as (_ & He & Hev).
  split; [exact Hh |]. split; [exact Hc |]. split.
  - apply (He (keyEdgeCell e3)); [| reflexivity].
    apply elem_of_union. left. apply elem_of_singleton. reflexivity.
  - apply (Hev (keyEdgeCell e3) e3); [| reflexivity | vm_compute; reflexivity].
    apply elem_of_union. left. apply elem_of_singleton. reflexivity.
Defined.

(** X3 on the scenario of the spec, in binary64: the drag to (5,5)
    transforms the three cells the press prepared. *)
Lemma continueTransform_transforms_prepared_witness :
  let st := hoveringTool (D:=float) TransformTool.TopLeftScale PrimFloat.zero in
  let cells : gset Cell := {[keyEdgeCell e3]} in
  let result := beginTransform (SD:=float_scale_only) noKeyframe st (edgeVAC box10)
                  cells PrimFloat.zero PrimFloat.zero tt in
  hovered st <> TransformTool.None /\ cells <> ∅
  /\ transformedCells (continueTransform result.1.1 cells (float_of_Z 5) (float_of_Z 5))
     = preparedCells result.2
  /\ preparedCells result.2 = [keyEdgeCell e3; keyVertexCell v2; keyVertexCell v1].
Proof.
  cbv zeta.
  assert (hovered (hoveringTool (D:=float) TransformTool.TopLeftScale PrimFloat.zero)
          <> TransformTool.None) as Hh by discriminate.
  assert (({[keyEdgeCell e3]} : gset Cell) <> ∅) as Hc by apply non_empty_singleton_L.
  split; [exact Hh |]. split; [exact Hc |]. split.
  - exact (proj1 (continueTransform_transforms_prepared (SD:=float_scale_only)
                    noKeyframe _ (edgeVAC box10) _ _ PrimFloat.zero PrimFloat.zero
                    (float_of_Z 5) (float_of_Z 5) tt Hh Hc Hc)).
  - vm_compute. reflexivity.
Defined.

(** X11 with the id offset 100: the pick id of [TopScale] is
    100 + 5 - 1. *)
Lemma pick_ids_form_a_block_witness :
  let st := setIdOffset (hoveringTool (D:=float) TransformTool.None PrimFloat.zero) 100 in
  (Int.min_signed <= idOffset_ st <= Int.max_signed - 11)%Z
  /\ glPickColor_ st TransformTool.TopScale
     = (idOffset_ st + TransformTool.toInt TransformTool.TopScale
        - TransformTool.MIN_WIDGET_ID)%Z
  /\ (idOffset_ st <= glPickColor_ st TransformTool.TopScale <= idOffset_ st + 11)%Z.
Proof.
  cbv zeta.
  assert (Int.min_signed
          <= idOffset_ (setIdOffset (hoveringTool (D:=float) TransformTool.None
                                                  PrimFloat.zero) 100)
          <= Int.max_signed - 11)%Z as Hoff
      by (unfold Int.min_signed, Int.max_signed; simpl; lia).
  split; [exact Hoff |].
  refine (proj1 (pick_ids_form_a_block _ Hoff) TransformTool.TopScale _).
  discriminate.
Defined.

(** X9 on the scenario of the spec: the scale by 1/2 about (10,10), on the
    widget's point (0,0). *)
Lemma continueTransform_sandwich_witness :
  let xf := Scaling (1 / 2)%R (1 / 2)%R in
  let p := mkVec2 0%R 0%R in
  determineAffine (scenarioTool (D:=R)) 5%R 5%R = Some xf
  /\ transformPoint (makeRelativeToPivot (scenarioTool (D:=R)) xf) p
     = vadd (pivotOf scenarioTool) (linearTimes xf (vsub p (pivotOf scenarioTool))).
Proof.
  cbv zeta. split; [exact scenarioTool_ratio |].
  exact (proj1 (continueTransform_sandwich scenarioTool 5%R 5%R _ (mkVec2 0%R 0%R)
                  scenarioTool_ratio)).
Defined.

(** X7 with [TopScale] pressed on its point (5,0) of the box
    [0,0]..[10,10] and dragged to (5,5): the point (3,7) keeps x = 3. *)
Lemma edge_scale_keeps_other_axis_witness :
  let st := pressedTool TransformTool.TopScale 5%R 0%R 5%R 0%R 5%R 10%R in
  let xf := Scaling 1%R ((5 - (0 - 0) - 10) / (0 - (0 - 0) - 10))%R in
  determineAffine st 5%R 5%R = Some xf
  /\ vx (transformPoint (makeRelativeToPivot st xf) (mkVec2 3%R 7%R)) = 3%R.
Proof.
  cbv zeta.
  assert (determineAffine (pressedTool TransformTool.TopScale 5%R 0%R 5%R 0%R 5%R 10%R)
                          5%R 5%R
          = Some (Scaling 1%R ((5 - (0 - 0) - 10) / (0 - (0 - 0) - 10))%R)) as Hxf
      by (rewrite determineAffine_by_category; reflexivity).
  split; [exact Hxf |].
  exact (proj1 (edge_scale_keeps_other_axis _ 5%R 5%R _ (mkVec2 3%R 7%R) Hxf) eq_refl).
Defined.

(** X8 with [TopLeftRotate] pressed at (0,0), pivot (10,10), and dragged to
    (0,20): the distance between (1,2) and (3,4) is kept. *)
Lemma rotate_preserves_distances_witness :
  let st := pressedTool TransformTool.TopLeftRotate 0%R 0%R 0%R 0%R 10%R 10%R in
  let xf := Rotation2Dd (Ratan2 (20 - 10) (0 - 10) - Ratan2 (0 - 10) (0 - 10))%R in
  isRotate (hovered st) = true
  /\ determineAffine st 0%R 20%R = Some xf
  /\ dist2 (transformPoint (makeRelativeToPivot st xf) (mkVec2 3%R 4%R))
           (transformPoint (makeRelativeToPivot st xf) (mkVec2 1%R 2%R))
     = dist2 (mkVec2 3%R 4%R) (mkVec2 1%R 2%R).
Proof.
  cbv zeta.
  assert (isRotate (hovered (pressedTool TransformTool.TopLeftRotate
                                         0%R 0%R 0%R 0%R 10%R 10%R)) = true) as Hrot
      by reflexivity.
  assert (determineAffine (pressedTool TransformTool.TopLeftRotate
                                       0%R 0%R 0%R 0%R 10%R 10%R) 0%R 20%R
          = Some (Rotation2Dd (Ratan2 (20 - 10) (0 - 10) - Ratan2 (0 - 10) (0 - 10))%R))
    as Hxf by (rewrite determineAffine_by_category; reflexivity).
  split; [exact Hrot |]. split; [exact Hxf |].
  exact (proj1 (rotate_preserves_distances _ 0%R 20%R _ (mkVec2 1%R 2%R) (mkVec2 3%R 4%R)
                  Hrot Hxf)).
Defined.

(** X13 on the scenario of the spec: the x denominator is zero exactly
    when the box is flat along x (it is 0 - 10). *)
Lemma scale_denominators_are_box_extents_witness :
  let st := hoveringTool (D:=R) TransformTool.TopLeftScale 0%R in
  let cells : gset Cell := {[keyEdgeCell e3]} in
  let result := beginTransform noKeyframe st (edgeVAC box10) cells 0%R 0%R tt in
  let st' := result.1.1 in
  let obb := outlineBoundingBoxOf result.1.2 cells tt in
  hovered st <> TransformTool.None /\ cells <> ∅
  /\ ((x0_ st' - dx_ st' - xPivot_ st')%R = 0%R <-> xMin obb = xMax obb).
Proof.
  cbv zeta.
  assert (hovered (hoveringTool (D:=R) TransformTool.TopLeftScale 0%R)
          <> TransformTool.None) as Hh by discriminate.
  assert (({[keyEdgeCell e3]} : gset Cell) <> ∅) as Hc by apply non_empty_singleton_L.
  split; [exact Hh |]. split; [exact Hc |].
  exact (proj2 (proj1 (scale_denominators_are_box_extents noKeyframe _ (edgeVAC box10)
                         _ 0%R 0%R tt Hh Hc) eq_refl)).
Defined.

(** X5 on the scenario of the spec: dragging from (0,0) to (5,5) moves the
    top-left corner of the box by 5 along x. *)
Lemma scale_handle_follows_pointer_witness :
  let st := hoveringTool (D:=R) TransformTool.TopLeftScale 0%R in
  let cells : gset Cell := {[keyEdgeCell e3]} in
  let result := beginTransform noKeyframe st (edgeVAC box10) cells 0%R 0%R tt in
  let st' := result.1.1 in
  let obb := outlineBoundingBoxOf result.1.2 cells tt in
  let anchor := widgetPos_ (hovered st) obb in
  let xf := Scaling (1 / 2)%R (1 / 2)%R in
  hovered st <> TransformTool.None /\ cells <> ∅
  /\ determineAffine st' 5%R 5%R = Some xf
  /\ xMin obb <> xMax obb
  /\ vx (transformPoint (makeRelativeToPivot st' xf) anchor) = (vx anchor + (5 - 0))%R.
Proof.
  cbv zeta.
  assert (hovered (hoveringTool (D:=R) TransformTool.TopLeftScale 0%R)
          <> TransformTool.None) as Hh by discriminate.
  assert (({[keyEdgeCell e3]} : gset Cell) <> ∅) as Hc by apply non_empty_singleton_L.
  assert (xMin (outlineBoundingBoxOf
                  (beginTransform noKeyframe
                     (hoveringTool (D:=R) TransformTool.TopLeftScale 0%R)
                     (edgeVAC box10) {[keyEdgeCell e3]} 0%R 0%R tt).1.2
                  {[keyEdgeCell e3]} tt)
          <> xMax (outlineBoundingBoxOf
                     (beginTransform noKeyframe
                        (hoveringTool (D:=R) TransformTool.TopLeftScale 0%R)
                        (edgeVAC box10) {[keyEdgeCell e3]} 0%R 0%R tt).1.2
                     {[keyEdgeCell e3]} tt)) as Hflat
      by (rewrite scenario_outline; simpl; lra).
  split; [exact Hh |]. split; [exact Hc |]. split; [exact scenarioTool_ratio |].
  split; [exact Hflat |].
  exact (proj1 (scale_handle_follows_pointer noKeyframe _ (edgeVAC box10) _
                  0%R 0%R 5%R 5%R tt _ Hh Hc scenarioTool_ratio) eq_refl Hflat).
Defined.

(** X6 on the scenario of the spec: pressing at (0,0) and dragging to
    (5,5), or pressing at (1,1) and dragging to (6,6). *)
Lemma scale_depends_on_displacement_only_witness :
  let st := hoveringTool (D:=R) TransformTool.TopLeftScale 0%R in
  let cells : gset Cell := {[keyEdgeCell e3]} in
  hovered st <> TransformTool.None /\ cells <> ∅
  /\ isRotate (hovered st) = false
  /\ (5 - 0 = 6 - 1)%R
  /\ determineAffine
       (beginTransform noKeyframe st (edgeVAC box10) cells 0%R 0%R tt).1.1 5%R 5%R
     = determineAffine
         (beginTransform noKeyframe st (edgeVAC box10) cells 1%R 1%R tt).1.1 6%R 6%R.
Proof.
  cbv zeta.
  assert (hovered (hoveringTool (D:=R) TransformTool.TopLeftScale 0%R)
          <> TransformTool.None) as Hh by discriminate.
  assert (({[keyEdgeCell e3]} : gset Cell) <> ∅) as Hc by apply non_empty_singleton_L.
  assert (5 - 0 = 6 - 1)%R as Hd by lra.
  split; [exact Hh |]. split; [exact Hc |]. split; [reflexivity |].
  split; [exact Hd |].
  exact (scale_depends_on_displacement_only noKeyframe _ (edgeVAC box10) _
           0%R 0%R 5%R 5%R 1%R 1%R 6%R 6%R tt Hh Hc eq_refl Hd Hd).
Defined.

(** X14 for the top-left arrow of the box [0,0]..[10,10] at zoom 2. *)
Lemma computeArrow_follows_corner_and_zoom_witness :
  (2 <> 0)%R
  /\ length (computeArrow_ TransformTool.TopLeftRotate (Some (box10 (D:=R))) 2%R)
     = length (computeArrow_ TransformTool.TopLeftRotate (Some (box10 (D:=R))) 1%R).
Proof.
  assert (2 <> 0)%R as Hz by lra.
  split; [exact Hz |].
  exact (proj1 (computeArrow_follows_corner_and_zoom TransformTool.TopLeftRotate
                  (Some box10) (Some box10) 2%R Hz)).
Defined.

(** X19 with every cell reporting the box [0,0]..[10,10], every box
    taken as proper, the id offset 0 and zoom 1, in binary64: the pick ids
    are pairwise distinct. *)
Lemma drawPick_ids_decode_witness :
  let boundingBox := fun (_ : VAC (option (Box float)) unit) (_ : Cell) (_ : unit) =>
                       Some (box10 (D:=float)) in
  let isProper := fun _ : option (Box float) => true in
  let st := hoveringTool (D:=float) TransformTool.None PrimFloat.zero in
  let cells : gset Cell := {[keyEdgeCell e3]} in
  isProper (boundingBoxOf boundingBox (edgeVAC box10) cells tt) = true
  /\ exists picked,
       drawPick boundingBox isProper st (edgeVAC box10) cells tt PrimFloat.one
       = Some picked
       /\ NoDup (pickIds picked).
Proof.
  cbv zeta. split; [reflexivity |].
  destruct (drawPick_ids_decode (SD:=float_scale_only)
              (fun _ _ _ => Some (box10 (D:=float))) (fun _ => true)
              (hoveringTool (D:=float) TransformTool.None PrimFloat.zero)
              (edgeVAC box10) {[keyEdgeCell e3]} tt PrimFloat.one eq_refl)
    as (picked & E & _ & Hnd & _).
  exists picked. split; [exact E | exact Hnd].
Defined.

(** X20 with [TopLeftRotate] pressed at (0,0), pivot (10,10), and dragged
    to (0,20): the image of (0,0) is on the side of (0,20) from the
    pivot. *)
Lemma rotate_handle_follows_pointer_witness :
  let st := pressedTool TransformTool.TopLeftRotate 0%R 0%R 0%R 0%R 10%R 10%R in
  let xf := Rotation2Dd (Ratan2 (20 - 10) (0 - 10) - Ratan2 (0 - 10) (0 - 10))%R in
  let image := transformPoint (makeRelativeToPivot st xf) (mkVec2 (x0_ st) (y0_ st)) in
  isRotate (hovered st) = true
  /\ (x0_ st <> xPivot_ st \/ y0_ st <> yPivot_ st)
  /\ (0%R <> xPivot_ st \/ 20%R <> yPivot_ st)
  /\ determineAffine st 0%R 20%R = Some xf
  /\ ((vx image - xPivot_ st) * (20 - yPivot_ st)
      - (vy image - yPivot_ st) * (0 - xPivot_ st) = 0)%R.
Proof.
  cbv zeta.
  assert (isRotate (hovered (pressedTool TransformTool.TopLeftRotate
                                         0%R 0%R 0%R 0%R 10%R 10%R)) = true) as Hrot
      by reflexivity.
  assert (x0_ (pressedTool TransformTool.TopLeftRotate 0%R 0%R 0%R 0%R 10%R 10%R)
          <> xPivot_ (pressedTool TransformTool.TopLeftRotate 0%R 0%R 0%R 0%R 10%R 10%R)
          \/ y0_ (pressedTool TransformTool.TopLeftRotate 0%R 0%R 0%R 0%R 10%R 10%R)
             <> yPivot_ (pressedTool TransformTool.TopLeftRotate
                                     0%R 0%R 0%R 0%R 10%R 10%R)) as Hpress
      by (left; simpl; lra).
  assert (0%R <> xPivot_ (pressedTool TransformTool.TopLeftRotate
                                      0%R 0%R 0%R 0%R 10%R 10%R)
          \/ 20%R <> yPivot_ (pressedTool TransformTool.TopLeftRotate
                                          0%R 0%R 0%R 0%R 10%R 10%R)) as Hptr
      by (left; simpl; lra).
  assert (determineAffine (pressedTool TransformTool.TopLeftRotate
                                       0%R 0%R 0%R 0%R 10%R 10%R) 0%R 20%R
          = Some (Rotation2Dd (Ratan2 (20 - 10) (0 - 10) - Ratan2 (0 - 10) (0 - 10))%R))
    as Hxf by (rewrite determineAffine_by_category; reflexivity).
  split; [exact Hrot |]. split; [exact Hpress |]. split; [exact Hptr |].
  split; [exact Hxf |].
  exact (proj1 (rotate_handle_follows_pointer _ 0%R 20%R _ Hrot Hpress Hptr Hxf)).
Defined.
